(** * Lowering of MSCCL++ programs to their JSON description

    A shallow embedding of [msccl/language/mscclpp/ir.py] (module [Ir] below)
    and of the older [msccl/language/ir_mscclpp.py] (module [IrMscclpp]),
    with the properties of the passes of [ir_to_json] and of the serializer
    [dump_to_json].

    Python objects that are shared and mutated in place (the [Op]s, which
    dependency lists refer to) live in an explicit store; devices and
    threadblocks, which the program owns exclusively, are plain values. *)

From Stdlib Require Import ZArith Lia.
From Stdlib Require OrderedTypeEx.
From stdpp Require Import base option list gmap strings sorting.

Local Open Scope Z_scope.

(** ** The data model ([msccl.language.types]) *)

Module Buffer.
Inductive t := input | output | scratch.
End Buffer.

Module ChannelType.
Inductive t := proxy | sm | none | nvls.
End ChannelType.

(** The members of [MscclppInstruction] that the sources name. *)
Module Instruction.
Inductive t :=
| nop | read_reduce_copy | read_reduce_copy_send | reduce_send | copy
| reduce | copy_packet | transform_to_packet | reduce_send_packet
| reduce_packet | put | put_packet | put_with_signal
| put_with_signal_and_flush | get | wait | signal | flush | barrier
| group_store | group_load_reduce | group_load_reduce_store.
End Instruction.

#[global] Instance Buffer_eq_dec : EqDecision Buffer.t.
Proof. solve_decision. Defined.
#[global] Instance ChannelType_eq_dec : EqDecision ChannelType.t.
Proof. solve_decision. Defined.
#[global] Instance Instruction_eq_dec : EqDecision Instruction.t.
Proof. solve_decision. Defined.

#[global] Instance Buffer_countable : Countable Buffer.t.
Proof.
  refine (inj_countable'
    (λ b, match b with
          | Buffer.input => 0%nat | Buffer.output => 1%nat
          | Buffer.scratch => 2%nat end)
    (λ n, match n with
          | 0%nat => Buffer.input | 1%nat => Buffer.output
          | _ => Buffer.scratch end) _).
  by intros [].
Defined.

(** A chunk reference: a region of a buffer of some rank. *)
Module ChunkRef.
Record t := mk { rank : Z; buffer : Buffer.t; index : Z; size : Z }.
End ChunkRef.

(** What a channel is connected to: one rank, or, for a multicast
    channel, a collection of ranks (a Python list). *)
Inductive ConnectedTo :=
| ToRank (r : Z)
| ToRanks (rs : list Z).

#[global] Instance ConnectedTo_eq_dec : EqDecision ConnectedTo.
Proof. solve_decision. Defined.

Module Channel.
Record t := mk {
  srcBuffer : Buffer.t;
  dstBuffer : Buffer.t;
  type : ChannelType.t;
  connected_to : ConnectedTo }.
End Channel.

(** An [Op] object is identified by its address in the store; dependency
    lists hold such addresses. *)
Abbreviation OpRef := nat (only parsing).

Module Op.
Record t := mk {
  inst : Instruction.t;
  rank : Z;
  src : option ChunkRef.t;
  dst : option ChunkRef.t;
  depends : list OpRef;
  step : Z;
  tb : Z;
  channel_type : ChannelType.t;
  srcs : list ChunkRef.t;
  dsts : list ChunkRef.t;
  (* [extra] is a dictionary; the sources read two of its keys *)
  extra_tb_list : option (list Z);
  extra_barrier_id : option Z }.

Definition with_depends (ds : list OpRef) (op : t) : t :=
  mk (inst op) (rank op) (src op) (dst op) ds (step op) (tb op)
     (channel_type op) (srcs op) (dsts op)
     (extra_tb_list op) (extra_barrier_id op).

Definition with_step_tb (s tbid : Z) (op : t) : t :=
  mk (inst op) (rank op) (src op) (dst op) (depends op) s tbid
     (channel_type op) (srcs op) (dsts op)
     (extra_tb_list op) (extra_barrier_id op).
End Op.

Module Threadblock.
Record t := mk {
  id : Z;
  ops : list OpRef;
  channels : list Channel.t;
  channel : Z }.

Definition with_ops (os : list OpRef) (tb : t) : t :=
  mk (id tb) os (channels tb) (channel tb).
End Threadblock.

(** The key of a device's channel table and one of its entries *)
Abbreviation ChanKey := (Buffer.t * Buffer.t * ChannelType.t)%type (only parsing).
Abbreviation ChanEntry := (Z * ConnectedTo)%type (only parsing).

Module Gpu.
Record t := mk {
  rank : Z;
  threadblocks : list Threadblock.t;
  input_chunks : Z;
  output_chunks : Z;
  scratch_chunks : Z;
  (* a [dict]: keys in insertion order *)
  channels : list (ChanKey * list ChanEntry) }.

Definition with_chunks (i o s : Z) (g : t) : t :=
  mk (rank g) (threadblocks g) i o s (channels g).
Definition with_scratch_chunks (s : Z) (g : t) : t :=
  mk (rank g) (threadblocks g) (input_chunks g) (output_chunks g) s
     (channels g).
Definition with_threadblocks (tbs : list Threadblock.t) (g : t) : t :=
  mk (rank g) tbs (input_chunks g) (output_chunks g) (scratch_chunks g)
     (channels g).
Definition with_channels (tbs : list Threadblock.t)
    (cs : list (ChanKey * list ChanEntry)) (g : t) : t :=
  mk (rank g) tbs (input_chunks g) (output_chunks g) (scratch_chunks g) cs.
End Gpu.

Module Program.
Record t := mk {
  name : string;
  collective : string;
  inplace : bool;
  protocol : string;
  gpus : list Gpu.t;
  num_chunk_groups : Z;
  num_threads_per_block : Z;
  use_double_scratch_buffer : bool;
  min_message_size : Z;
  max_message_size : Z }.

Definition with_gpus (gs : list Gpu.t) (p : t) : t :=
  mk (name p) (collective p) (inplace p) (protocol p) gs
     (num_chunk_groups p) (num_threads_per_block p)
     (use_double_scratch_buffer p) (min_message_size p)
     (max_message_size p).
End Program.

(** ** The store of [Op] objects *)

Abbreviation Heap := (list Op.t) (only parsing).

Definition inst_of (h : Heap) (r : OpRef) : option Instruction.t :=
  Op.inst <$> h !! r.

Definition depends_of (h : Heap) (r : OpRef) : list OpRef :=
  match h !! r with Some op => Op.depends op | None => [] end.

(** [op.depends = ds] *)
Definition set_depends (h : Heap) (r : OpRef) (ds : list OpRef) : Heap :=
  alter (Op.with_depends ds) r h.

(** ** Buffer sizes ([ir_to_json], first loop) *)

(** [buffer_sizes = defaultdict(lambda: 0)] *)
Definition sizes_get (m : gmap (Z * Buffer.t) Z) (k : Z * Buffer.t) : Z :=
  default 0 (m !! k).

(** [buffer_sizes[key] = max(buffer_sizes[key], c.index + c.size)] with
    [key = (rank, c.buffer)] *)
Definition bump (rank : Z) (m : gmap (Z * Buffer.t) Z) (c : ChunkRef.t)
    : gmap (Z * Buffer.t) Z :=
  <[(rank, ChunkRef.buffer c) :=
      Z.max (sizes_get m (rank, ChunkRef.buffer c))
            (ChunkRef.index c + ChunkRef.size c)]> m.

Definition remote_dsts (i : Instruction.t) : bool :=
  bool_decide (i = Instruction.read_reduce_copy_send)
  || bool_decide (i = Instruction.reduce_send)
  || bool_decide (i = Instruction.reduce_send_packet).

Section buffer_sizes.
(** The two instruction sets differ between the two source files. *)
Variables local_src local_dst : list Instruction.t.

(** The body of the loop over the ops; [None] when [op.src] or [op.dst]
    is [None] where the code dereferences it. *)
Definition scan_op (rank : Z) (m : gmap (Z * Buffer.t) Z) (op : Op.t)
    : option (gmap (Z * Buffer.t) Z) :=
  m1 ← (if bool_decide (Op.inst op ∈ local_src) then
          s ← Op.src op;
          Some (foldl (bump rank) (bump rank m s) (Op.srcs op))
        else Some m);
  if bool_decide (Op.inst op ∈ local_dst) then
    d ← Op.dst op;
    let m2 := bump rank m1 d in
    if negb (remote_dsts (Op.inst op))
    then Some (foldl (bump rank) m2 (Op.dsts op))
    else Some m2
  else Some m1.

Definition scan_ref (h : Heap) (rank : Z) (m : gmap (Z * Buffer.t) Z)
    (r : OpRef) : option (gmap (Z * Buffer.t) Z) :=
  match h !! r with
  | Some op => scan_op rank m op
  | None => Some m
  end.

Fixpoint scan_ops (h : Heap) (rank : Z) (m : gmap (Z * Buffer.t) Z)
    (rs : list OpRef) : option (gmap (Z * Buffer.t) Z) :=
  match rs with
  | [] => Some m
  | r :: rs => m' ← scan_ref h rank m r; scan_ops h rank m' rs
  end.

Fixpoint scan_tbs (h : Heap) (rank : Z) (m : gmap (Z * Buffer.t) Z)
    (tbs : list Threadblock.t) : option (gmap (Z * Buffer.t) Z) :=
  match tbs with
  | [] => Some m
  | tb :: tbs =>
      m' ← scan_ops h rank m (Threadblock.ops tb); scan_tbs h rank m' tbs
  end.

Fixpoint scan_gpus (h : Heap) (m : gmap (Z * Buffer.t) Z)
    (gs : list Gpu.t) : option (gmap (Z * Buffer.t) Z) :=
  match gs with
  | [] => Some m
  | g :: gs =>
      m' ← scan_tbs h (Gpu.rank g) m (Gpu.threadblocks g);
      scan_gpus h m' gs
  end.

(** [gpu.input_chunks = max(buffer_sizes[(gpu.rank, Buffer.input)],
    gpu.input_chunks)] and the same for the other two buffers *)
Definition apply_sizes (m : gmap (Z * Buffer.t) Z) (g : Gpu.t) : Gpu.t :=
  Gpu.with_chunks
    (Z.max (sizes_get m (Gpu.rank g, Buffer.input)) (Gpu.input_chunks g))
    (Z.max (sizes_get m (Gpu.rank g, Buffer.output)) (Gpu.output_chunks g))
    (Z.max (sizes_get m (Gpu.rank g, Buffer.scratch))
           (Gpu.scratch_chunks g))
    g.

Definition infer_buffer_sizes (h : Heap) (p : Program.t)
    : option Program.t :=
  m ← scan_gpus h ∅ (Program.gpus p);
  Some (Program.with_gpus (apply_sizes m <$> Program.gpus p) p).
End buffer_sizes.

(** ** Python helpers *)

(** [max(xs)]: [ValueError] on an empty sequence *)
Definition py_max (xs : list Z) : option Z :=
  match xs with
  | [] => None
  | x :: xs => Some (foldl Z.max x xs)
  end.

(** [sorted]: a stable sort that compares with [<] only.  [lt] returns
    [None] where Python's [<] raises [TypeError]; the sort then fails as
    soon as it performs such a comparison. *)
Fixpoint insert_sorted {A} (lt : A → A → option bool) (x : A) (l : list A)
    : option (list A) :=
  match l with
  | [] => Some [x]
  | y :: l' =>
      b ← lt y x;
      if b : bool then cons y <$> insert_sorted lt x l' else Some (x :: l)
  end.

Fixpoint py_sorted {A} (lt : A → A → option bool) (l : list A)
    : option (list A) :=
  match l with
  | [] => Some []
  | x :: l' => s ← py_sorted lt l'; insert_sorted lt x s
  end.

(** [<] on lists of integers *)
Fixpoint list_lt (xs ys : list Z) : bool :=
  match xs, ys with
  | _, [] => false
  | [], _ :: _ => true
  | x :: xs', y :: ys' =>
      if bool_decide (x = y) then list_lt xs' ys' else bool_decide (x < y)
  end.

(** [<] on connection targets: an [int] and a [list] do not compare *)
Definition conn_lt (a b : ConnectedTo) : option bool :=
  match a, b with
  | ToRank x, ToRank y => Some (bool_decide (x < y))
  | ToRanks xs, ToRanks ys => Some (list_lt xs ys)
  | _, _ => None
  end.

(** [<] on the tuples [(tb.id, ch.connected_to)]: the first components
    that differ decide *)
Definition entry_lt (a b : ChanEntry) : option bool :=
  if bool_decide (a.1 = b.1) then
    if bool_decide (a.2 = b.2) then Some false else conn_lt a.2 b.2
  else Some (bool_decide (a.1 < b.1)).

(** [sorted(l, key=f)] for a key that always compares *)
Definition by_key {A K} (klt : K → K → bool) (f : A → K) (x y : A)
    : option bool :=
  Some (klt (f x) (f y)).

Definition Z_lt (x y : Z) : bool := bool_decide (x < y).

(** [<] on pairs of strings, the sort key [(x["srcbuff"], x["dstbuff"])] *)
Definition str2_lt (a b : string * string) : bool :=
  if bool_decide (a.1 = b.1) then String.ltb a.2 b.2
  else String.ltb a.1 b.1.

(** A [dict] as the list of its items in insertion order *)
Fixpoint dict_get {K V} `{EqDecision K} (k : K) (d : list (K * V))
    : option V :=
  match d with
  | [] => None
  | (k', v) :: d' => if decide (k' = k) then Some v else dict_get k d'
  end.

Fixpoint dict_set {K V} `{EqDecision K} (k : K) (v : V) (d : list (K * V))
    : list (K * V) :=
  match d with
  | [] => [(k, v)]
  | (k', v') :: d' =>
      if decide (k' = k) then (k, v) :: d' else (k', v') :: dict_set k v d'
  end.

(** ** Channel tables ([ir_to_json], "get channel info") *)

Definition chan_key (ch : Channel.t) : ChanKey :=
  (Channel.srcBuffer ch, Channel.dstBuffer ch, Channel.type ch).

(** One iteration of the inner loop: create the key's list or append *)
Definition chan_dict_add (tbid : Z) (d : list (ChanKey * list ChanEntry))
    (ch : Channel.t) : list (ChanKey * list ChanEntry) :=
  match dict_get (chan_key ch) d with
  | None => dict_set (chan_key ch) [(tbid, Channel.connected_to ch)] d
  | Some es =>
      dict_set (chan_key ch) (es ++ [(tbid, Channel.connected_to ch)]) d
  end.

Definition chan_dict_tb (d : list (ChanKey * list ChanEntry))
    (tb : Threadblock.t) : list (ChanKey * list ChanEntry) :=
  foldl (chan_dict_add (Threadblock.id tb)) d (Threadblock.channels tb).

(** [chan_dict[key] = sorted(value)] for every key *)
Definition sort_values (d : list (ChanKey * list ChanEntry))
    : option (list (ChanKey * list ChanEntry)) :=
  mapM (λ kv, es ← py_sorted entry_lt kv.2; Some (kv.1, es)) d.

Definition alloc_channels_gpu (g : Gpu.t) : option Gpu.t :=
  tbs ← py_sorted (by_key Z_lt Threadblock.id) (Gpu.threadblocks g);
  d ← sort_values (foldl chan_dict_tb [] tbs);
  Some (Gpu.with_channels tbs d g).

Definition alloc_channels (p : Program.t) : option Program.t :=
  gs ← mapM alloc_channels_gpu (Program.gpus p);
  Some (Program.with_gpus gs p).

(** ** Dependency simplification *)

(** A loop over all ops of all threadblocks of all devices that only
    mutates ops *)
Definition for_each_tb (f : Heap → Threadblock.t → Heap) (h : Heap)
    (p : Program.t) : Heap :=
  foldl (λ h g, foldl f h (Gpu.threadblocks g)) h (Program.gpus p).

(** "Remove the dependencies of wait after signal" *)
Definition drop_signal_deps (h : Heap) (r : OpRef) : Heap :=
  if bool_decide (inst_of h r = Some Instruction.wait) then
    set_depends h r
      (filter (λ dep, inst_of h dep ≠ Some Instruction.signal)
              (depends_of h r))
  else h.

Definition filter_wait_tb (h : Heap) (tb : Threadblock.t) : Heap :=
  foldl drop_signal_deps h (Threadblock.ops tb).

Definition filter_wait : Heap → Program.t → Heap :=
  for_each_tb filter_wait_tb.

(** "Filter out redundant dependencies": the loop state is the store and
    [running_depends] *)
Definition filter_redundant_op (st : Heap * list OpRef) (r : OpRef)
    : Heap * list OpRef :=
  let ds := filter (λ dep, dep ∉ st.2) (depends_of st.1 r) in
  (set_depends st.1 r ds, st.2 ++ ds).

Definition filter_redundant_ops (h : Heap) (rs : list OpRef) : Heap :=
  (foldl filter_redundant_op (h, []) rs).1.

Definition filter_redundant_tb (h : Heap) (tb : Threadblock.t) : Heap :=
  filter_redundant_ops h (Threadblock.ops tb).

Definition filter_redundant : Heap → Program.t → Heap :=
  for_each_tb filter_redundant_tb.

(** ** Renumbering ("update step and tid for ops") *)

Fixpoint renumber_ops (tbid : Z) (i : nat) (h : Heap) (rs : list OpRef)
    : Heap :=
  match rs with
  | [] => h
  | r :: rs =>
      renumber_ops tbid (S i)
        (alter (Op.with_step_tb (Z.of_nat i) tbid) r h) rs
  end.

Definition renumber_tb (h : Heap) (tb : Threadblock.t) : Heap :=
  renumber_ops (Threadblock.id tb) 0 h (Threadblock.ops tb).

Definition renumber : Heap → Program.t → Heap := for_each_tb renumber_tb.

(** ** Passes that rebuild the op lists *)

(** Run a pass over a list, threading the store *)
Fixpoint map_state {S A B} (f : S → A → S * B) (s : S) (l : list A)
    : S * list B :=
  match l with
  | [] => (s, [])
  | a :: l =>
      let sb := f s a in
      let r := map_state f sb.1 l in
      (r.1, sb.2 :: r.2)
  end.

Definition map_tbs (f : Heap → list OpRef → Heap * list OpRef) (h : Heap)
    (p : Program.t) : Heap * Program.t :=
  let r :=
    map_state (λ h g,
      let r := map_state (λ h tb,
                 let r := f h (Threadblock.ops tb) in
                 (r.1, Threadblock.with_ops r.2 tb))
               h (Gpu.threadblocks g) in
      (r.1, Gpu.with_threadblocks r.2 g))
    h (Program.gpus p) in
  (r.1, Program.with_gpus r.2 p).

(** [Op(Instruction.nop, -1, None, None, deps)]; the fields the
    constructor call leaves out take their defaults. *)
Definition nop_op (deps : list OpRef) : Op.t :=
  Op.mk Instruction.nop (-1) None None deps (-1) (-1) ChannelType.none
        [] [] None None.

(** ** JSON documents *)

(** The dictionary that [dump_to_json] hands to [json.dumps]; a [dict]
    keeps its keys in insertion order. *)
#[local] Unset Elimination Schemes.
Inductive json :=
| JNull
| JBool (b : bool)
| JInt (n : Z)
| JStr (s : string)
| JList (l : list json)
| JDict (kv : list (string * json)).
#[local] Set Elimination Schemes.

Definition json_keys (j : json) : list string :=
  match j with JDict kv => kv.*1 | _ => [] end.

Definition json_get (k : string) (j : json) : option json :=
  match j with JDict kv => dict_get k kv | _ => None end.

Definition json_items (j : json) : list json :=
  match j with JList l => l | _ => [] end.

(** [v in [None, "", [], {}]] *)
Definition is_empty_field (v : json) : bool :=
  match v with
  | JNull | JStr EmptyString | JList [] | JDict [] => true
  | _ => false
  end.

Definition remove_empty_fields (d : list (string * json))
    : list (string * json) :=
  filter (λ kv, is_empty_field kv.2 = false) d.

(** The part of [msccl/language/types.py] that the serializer uses and
    that is not among the sources: the [value] of the members of the
    three enumerations, and the method [Op.cnt] ([None] when it raises).
    They are parameters of the serializer. *)
Class Types := {
  Buffer_value : Buffer.t → string;
  ChannelType_value : ChannelType.t → string;
  Instruction_value : Instruction.t → string;
  Op_cnt : Op.t → option Z }.

Definition conn_json (c : ConnectedTo) : json :=
  match c with
  | ToRank r => JInt r
  | ToRanks rs => JList (JInt <$> rs)
  end.

(** [set(a) == set(b)] *)
Definition same_set (a b : list Z) : bool :=
  forallb (λ x, bool_decide (x ∈ b)) a && forallb (λ x, bool_decide (x ∈ a)) b.

(** [enumerate(l)] *)
Definition enumerate {A} (l : list A) : list (nat * A) := imap pair l.

(** The dictionaries that [dump_to_json] builds per threadblock from the
    device's channel table *)
Module TbChannel.
Record t := mk {
  srcbuff : string;
  dstbuff : string;
  type : string;
  chanIds : list nat;
  connectedTo : list ConnectedTo }.
End TbChannel.

(** The dictionaries of the device-level list ["channels"] before the
    multicast ones are rendered *)
Module GpuChannel.
Record t := mk {
  srcbuff : string;
  dstbuff : string;
  type : string;
  connectedTo : list ConnectedTo }.
End GpuChannel.

(** The local variables of the loop over the ops of [dump_to_json] *)
Module Fields.
Record t := mk {
  o_buff : json;
  i_buff : json;
  dst_channel_ids : list json;
  src_channel_ids : list json;
  srcs : list json;
  dsts : list json;
  src : option ChunkRef.t;
  dst : option ChunkRef.t }.
Definition init : t := mk JNull JNull [] [] [] [] None None.
End Fields.

Section serializer.
Context `{Types}.

(** [get_channel_ids]: [None] is [KeyError] (no entry for the key in
    the threadblock's table) or [TypeError] ([set] of an [int]) *)
Definition get_channel_ids (chunk_list : list ChunkRef.t)
    (tb_channel_dict : list (ChanKey * TbChannel.t))
    (src_buffer dst_buffer : Buffer.t) (chan_type : ChannelType.t)
    : option (list json) :=
  let key := (src_buffer, dst_buffer, chan_type) in
  if bool_decide (chan_type = ChannelType.nvls) then
    let ranks := ChunkRef.rank <$> chunk_list in
    e ← dict_get key tb_channel_dict;
    hits ← mapM (λ ie : nat * ConnectedTo,
              match ie.2 with
              | ToRanks ele => Some (ie.1, same_set ele ranks)
              | ToRank _ => None
              end) (enumerate (TbChannel.connectedTo e));
    Some ((λ ib : nat * bool, JDict [("id", JInt (Z.of_nat ib.1))])
            <$> filter (λ ib : nat * bool, ib.2 = true) hits)
  else
    ids ← mapM (λ c,
      e ← dict_get key tb_channel_dict;
      Some ((λ ie : nat * ConnectedTo,
               JDict [("id", JInt (Z.of_nat ie.1));
                      ("off", JInt (ChunkRef.index c))])
            <$> filter (λ ie : nat * ConnectedTo,
                          ie.2 = ToRank (ChunkRef.rank c))
                  (enumerate (TbChannel.connectedTo e))))
      chunk_list;
    Some (concat ids).

(** [{"src": a.value, "dst": b.value}] *)
Definition buff_pair (a b : Buffer.t) : json :=
  JDict [("src", JStr (Buffer_value a)); ("dst", JStr (Buffer_value b))].

(** [{"buff": x.buffer.value, "off": x.index}] *)
Definition buff_off (x : ChunkRef.t) : json :=
  JDict [("buff", JStr (Buffer_value (ChunkRef.buffer x)));
         ("off", JInt (ChunkRef.index x))].

Definition opt_json {A} (f : A → json) (x : option A) : json :=
  match x with Some a => f a | None => JNull end.

Definition list_or_null (l : list json) : json :=
  match l with [] => JNull | _ => JList l end.

(** The dictionary [instr] of every instruction that is neither a no-op
    nor a barrier *)
Definition instr_of (op : Op.t) (f : Fields.t)
    : option (list (string * json)) :=
  cnt ← Op_cnt op;
  Some [("name", JStr (Instruction_value (Op.inst op)));
        ("i_buff", Fields.i_buff f);
        ("i_cids", JList (Fields.src_channel_ids f));
        ("o_buff", Fields.o_buff f);
        ("o_cids", JList (Fields.dst_channel_ids f));
        ("src", opt_json (λ c, JInt (ChunkRef.rank c)) (Fields.src f));
        ("srcs", list_or_null (Fields.srcs f));
        ("dsts", list_or_null (Fields.dsts f));
        ("srcbuff",
         opt_json (λ c, JStr (Buffer_value (ChunkRef.buffer c)))
                  (Fields.src f));
        ("srcoff", opt_json (λ c, JInt (ChunkRef.index c)) (Fields.src f));
        ("dst", opt_json (λ c, JInt (ChunkRef.rank c)) (Fields.dst f));
        ("dstbuff",
         opt_json (λ c, JStr (Buffer_value (ChunkRef.buffer c)))
                  (Fields.dst f));
        ("dstoff", opt_json (λ c, JInt (ChunkRef.index c)) (Fields.dst f));
        ("ctype", JStr (ChannelType_value (Op.channel_type op)));
        ("cnt", JInt cnt)].

(** The dictionary of a no-op; [dep.tb] and [dep.step] are read from
    the store *)
Definition nop_instr (h : Heap) (op : Op.t) : list (string * json) :=
  [("name", JStr (Instruction_value (Op.inst op)));
   ("deps",
    JList ((λ dep,
             JDict [("tb", opt_json JInt (Op.tb <$> h !! dep));
                    ("step", opt_json JInt (Op.step <$> h !! dep))])
           <$> Op.depends op))].

(** The threadblock's view of one entry of the device's table *)
Definition tb_channel_obj (tbid : Z) (kv : ChanKey * list ChanEntry)
    : TbChannel.t :=
  TbChannel.mk
    (Buffer_value kv.1.1.1) (Buffer_value kv.1.1.2)
    (ChannelType_value kv.1.2)
    ((λ ie : nat * ChanEntry, ie.1)
       <$> filter (λ ie : nat * ChanEntry, ie.2.1 = tbid)
             (enumerate kv.2))
    (snd <$> filter (λ e : ChanEntry, e.1 = tbid) kv.2).

(** The key of [sorted(..., key=lambda x: (x["srcbuff"], x["dstbuff"]))] *)
Definition tb_channel_key (x : TbChannel.t) : string * string :=
  (TbChannel.srcbuff x, TbChannel.dstbuff x).
Definition gpu_channel_key (x : GpuChannel.t) : string * string :=
  (GpuChannel.srcbuff x, GpuChannel.dstbuff x).

Definition tb_channel_json (x : TbChannel.t) : json :=
  JDict [("src", JStr (TbChannel.srcbuff x));
         ("dst", JStr (TbChannel.dstbuff x));
         ("ctype", JStr (TbChannel.type x));
         ("cids", JList ((λ i, JInt (Z.of_nat i)) <$> TbChannel.chanIds x))].
End serializer.

(** ** [msccl/language/mscclpp/ir.py] *)

Module Ir.
Definition _local_src_insts_mscclpp : list Instruction.t :=
  [ Instruction.put; Instruction.put_packet; Instruction.signal;
    Instruction.flush; Instruction.put_with_signal;
    Instruction.put_with_signal_and_flush; Instruction.copy;
    Instruction.copy_packet; Instruction.transform_to_packet;
    Instruction.reduce; Instruction.reduce_packet;
    Instruction.reduce_send; Instruction.reduce_send_packet;
    Instruction.group_load_reduce_store; Instruction.group_store ].

Definition _local_dst_insts_mscclpp : list Instruction.t :=
  [ Instruction.get; Instruction.wait; Instruction.read_reduce_copy;
    Instruction.copy; Instruction.copy_packet;
    Instruction.transform_to_packet; Instruction.reduce;
    Instruction.read_reduce_copy_send; Instruction.reduce_send;
    Instruction.reduce_packet; Instruction.reduce_send_packet;
    Instruction.group_load_reduce_store; Instruction.group_load_reduce ].

Definition _insts_no_need_sync_barrier : list Instruction.t :=
  [ Instruction.copy_packet; Instruction.reduce_packet;
    Instruction.reduce_send_packet; Instruction.barrier ].

(** "Since LL protocol will double the scratch size. We need to make
    sure all GPUs have the same scratch size." *)
Definition unify_scratch (p : Program.t) : option Program.t :=
  if bool_decide (Program.protocol p = "LL") then
    max_scratch ← py_max (Gpu.scratch_chunks <$> Program.gpus p);
    Some (Program.with_gpus
            (Gpu.with_scratch_chunks max_scratch <$> Program.gpus p) p)
  else Some p.

(** [op.inst in _insts_no_need_sync_barrier] *)
Definition no_need_sync (h : Heap) (r : OpRef) : bool :=
  match inst_of h r with
  | Some i => bool_decide (i ∈ _insts_no_need_sync_barrier)
  | None => false
  end.

(** [new_ops[-1].inst == Instruction.barrier or
     new_ops[-1].inst == Instruction.nop] *)
Definition is_marker (h : Heap) (r : OpRef) : bool :=
  bool_decide (inst_of h r = Some Instruction.barrier)
  || bool_decide (inst_of h r = Some Instruction.nop).

(** The dependencies that the no-op of [r] receives *)
Definition nop_depends (h : Heap) (r : OpRef) : list OpRef :=
  filter (λ dep, inst_of h dep ≠ Some Instruction.barrier) (depends_of h r).

(** One iteration of "Expand operations with dependencies with no-ops";
    the loop state is the store and [new_ops].  The no-op is allocated
    at the end of the store when it is appended to [new_ops] (otherwise
    nothing refers to it). *)
Definition lower_op (st : Heap * list OpRef) (r : OpRef)
    : Heap * list OpRef :=
  if no_need_sync st.1 r then (st.1, st.2 ++ [r])
  else
    let deps := nop_depends st.1 r in
    match last st.2 with
    | Some m =>
        if is_marker st.1 m then
          (set_depends st.1 m (depends_of st.1 m ++ deps), st.2 ++ [r])
        else if bool_decide (deps ≠ []) then
          (st.1 ++ [nop_op deps], st.2 ++ [length st.1; r])
        else (st.1, st.2 ++ [r])
    | None =>
        if bool_decide (deps ≠ []) then
          (st.1 ++ [nop_op deps], st.2 ++ [length st.1; r])
        else (st.1, st.2 ++ [r])
    end.

Definition lower_ops (h : Heap) (rs : list OpRef) : Heap * list OpRef :=
  foldl lower_op (h, []) rs.

Definition lower_sync : Heap → Program.t → Heap * Program.t :=
  map_tbs lower_ops.

(** The passes of [ir_to_json] on the dependencies, in order: the two
    simplifications, the no-ops, the renumbering *)
Definition lower_deps (h : Heap) (p : Program.t) : Heap * Program.t :=
  let h1 := filter_wait h p in
  let h2 := filter_redundant h1 p in
  let hp := lower_sync h2 p in
  (renumber hp.1 hp.2, hp.2).

Section dump.
Context `{Types}.

(** The branches of the loop over the ops that fill the local
    variables *)
Definition op_fields (d : list (ChanKey * TbChannel.t)) (op : Op.t)
    : option Fields.t :=
  match Op.inst op with
  | Instruction.signal | Instruction.flush =>
      s ← Op.src op; t ← Op.dst op;
      o ← get_channel_ids (Op.dsts op) d (ChunkRef.buffer s)
            (ChunkRef.buffer t) (Op.channel_type op);
      Some (Fields.mk (buff_pair (ChunkRef.buffer s) (ChunkRef.buffer t))
              JNull o [] [] [] None None)
  | Instruction.wait =>
      s ← Op.src op; t ← Op.dst op;
      i ← get_channel_ids (Op.srcs op) d (ChunkRef.buffer s)
            (ChunkRef.buffer t) (Op.channel_type op);
      Some (Fields.mk JNull
              (buff_pair (ChunkRef.buffer s) (ChunkRef.buffer t))
              [] i [] [] None None)
  | Instruction.read_reduce_copy =>
      s ← Op.src op; t ← Op.dst op;
      i ← get_channel_ids (Op.srcs op) d (ChunkRef.buffer s)
            (ChunkRef.buffer t) (Op.channel_type op);
      Some (Fields.mk JNull
              (buff_pair (ChunkRef.buffer s) (ChunkRef.buffer t))
              [] i [] [] (Some t) (Some t))
  | Instruction.read_reduce_copy_send =>
      s ← Op.src op; t ← Op.dst op;
      i ← get_channel_ids (Op.srcs op) d (ChunkRef.buffer s)
            (ChunkRef.buffer t) (Op.channel_type op);
      d0 ← head (Op.dsts op);
      o ← get_channel_ids (Op.dsts op) d (ChunkRef.buffer t)
            (ChunkRef.buffer d0) (Op.channel_type op);
      Some (Fields.mk
              (buff_pair (ChunkRef.buffer t) (ChunkRef.buffer d0))
              (buff_pair (ChunkRef.buffer s) (ChunkRef.buffer t))
              o i [] [] (Some t) (Some t))
  | Instruction.reduce_send | Instruction.reduce_send_packet =>
      t ← Op.dst op;
      d0 ← head (Op.dsts op);
      o ← get_channel_ids (Op.dsts op) d (ChunkRef.buffer t)
            (ChunkRef.buffer d0) ChannelType.sm;
      Some (Fields.mk
              (buff_pair (ChunkRef.buffer t) (ChunkRef.buffer d0))
              JNull o [] (buff_off <$> Op.srcs op) []
              (Some t) (Some t))
  | Instruction.reduce | Instruction.reduce_packet =>
      Some (Fields.mk JNull JNull [] [] (buff_off <$> Op.srcs op) []
              (Op.dst op) (Op.dst op))
  | Instruction.put | Instruction.put_packet
  | Instruction.put_with_signal
  | Instruction.put_with_signal_and_flush =>
      s ← Op.src op; t ← Op.dst op;
      o ← get_channel_ids (Op.dsts op) d (ChunkRef.buffer s)
            (ChunkRef.buffer t) (Op.channel_type op);
      Some (Fields.mk (buff_pair (ChunkRef.buffer s) (ChunkRef.buffer t))
              JNull o [] (buff_off <$> Op.srcs op) [] None None)
  | Instruction.get =>
      s ← Op.src op; t ← Op.dst op;
      i ← get_channel_ids (Op.srcs op) d (ChunkRef.buffer s)
            (ChunkRef.buffer t) (Op.channel_type op);
      Some (Fields.mk JNull
              (buff_pair (ChunkRef.buffer s) (ChunkRef.buffer t))
              [] i [] (buff_off <$> Op.dsts op) None None)
  | Instruction.copy | Instruction.copy_packet
  | Instruction.transform_to_packet =>
      Some (Fields.mk JNull JNull [] [] [] [] (Op.src op) (Op.dst op))
  | Instruction.group_load_reduce_store =>
      s ← Op.src op; t ← Op.dst op;
      i ← get_channel_ids (Op.srcs op) d (ChunkRef.buffer s)
            (ChunkRef.buffer t) (Op.channel_type op);
      o ← get_channel_ids (Op.dsts op) d (ChunkRef.buffer s)
            (ChunkRef.buffer t) (Op.channel_type op);
      Some (Fields.mk JNull JNull o i [] [] (Some s) (Some t))
  | _ => Some Fields.init
  end.

(** The dictionary of a barrier *)
Definition barrier_instr (op : Op.t) : option (list (string * json)) :=
  tb_list ← Op.extra_tb_list op;
  barrier_id ← Op.extra_barrier_id op;
  Some [("name", JStr (Instruction_value (Op.inst op)));
        ("nthread_blocks", JInt (Z.of_nat (length tb_list)));
        ("barrier_id", JInt barrier_id)].

(** One iteration of the loop over [tb.ops]: the records appended to
    [ops] (none when [op.tb == -1]) *)
Definition dump_op (h : Heap) (d : list (ChanKey * TbChannel.t))
    (r : OpRef) : option (list json) :=
  match h !! r with
  | None => Some []
  | Some op =>
      if bool_decide (Op.tb op = -1) then Some []
      else
        instr ←
          (if bool_decide (Op.inst op = Instruction.nop) then
             Some (nop_instr h op)
           else if bool_decide (Op.inst op = Instruction.barrier) then
             barrier_instr op
           else f ← op_fields d op; instr_of op f);
        Some [JDict (remove_empty_fields instr)]
  end.

(** [tb_channel_dict]: the entries of the device's table in which
    the threadblock has a channel *)
Definition tb_channel_dict (g : Gpu.t) (tb : Threadblock.t)
    : list (ChanKey * TbChannel.t) :=
  filter (λ kx : ChanKey * TbChannel.t, TbChannel.chanIds kx.2 ≠ [])
    ((λ kv, (kv.1, tb_channel_obj (Threadblock.id tb) kv))
       <$> Gpu.channels g).

(** One iteration of the loop over [gpu.threadblocks]: the records
    appended to ["threadblocks"] (none when [tb.id < 0]) *)
Definition dump_tb (h : Heap) (g : Gpu.t) (tb : Threadblock.t)
    : option (list json) :=
  if bool_decide (Threadblock.id tb < 0) then Some []
  else
    tb_channels ←
      py_sorted (by_key str2_lt tb_channel_key)
        (filter (λ x, TbChannel.type x ≠ "none")
           (tb_channel_dict g tb).*2);
    ops ← mapM (dump_op h (tb_channel_dict g tb)) (Threadblock.ops tb);
    Some [JDict [("id", JInt (Threadblock.id tb));
                 ("ops", JList (concat ops));
                 ("channels", JList (tb_channel_json <$> tb_channels))]].

(** An entry of the device-level list ["channels"] *)
Definition gpu_channel_obj (kv : ChanKey * list ChanEntry)
    : option GpuChannel.t :=
  connectedTo ←
    (if bool_decide (kv.1.2 = ChannelType.nvls) then
       mapM (λ eles,
         match eles with
         | ToRanks rs => ToRanks <$> py_sorted (by_key Z_lt id) rs
         | ToRank _ => None
         end) kv.2.*2
     else Some kv.2.*2);
  Some (GpuChannel.mk (Buffer_value kv.1.1.1) (Buffer_value kv.1.1.2)
          (ChannelType_value kv.1.2) connectedTo).

(** "render for GPU NVLS channels" *)
Definition render_channel (max_input max_output max_scratch : Z)
    (chan : GpuChannel.t) : json :=
  if bool_decide (GpuChannel.type chan = "nvls") then
    let buff := GpuChannel.srcbuff chan in
    let buffer_size :=
      if bool_decide (buff = Buffer_value Buffer.input) then max_input
      else if bool_decide (buff = Buffer_value Buffer.output)
           then max_output else max_scratch in
    JDict [("buff", JStr buff);
           ("type", JStr (GpuChannel.type chan));
           ("rankGroups",
            JList ((λ ranks, JDict [("size", JInt buffer_size);
                                    ("ranks", conn_json ranks)])
                   <$> GpuChannel.connectedTo chan))]
  else
    JDict [("srcbuff", JStr (GpuChannel.srcbuff chan));
           ("dstbuff", JStr (GpuChannel.dstbuff chan));
           ("type", JStr (GpuChannel.type chan));
           ("connectedTo",
            JList (conn_json <$> GpuChannel.connectedTo chan))].

Definition dump_gpu (h : Heap) (p : Program.t)
    (max_input max_output max_scratch : Z) (ig : nat * Gpu.t)
    : option json :=
  objs ← mapM gpu_channel_obj (Gpu.channels ig.2);
  channels ←
    py_sorted (by_key str2_lt gpu_channel_key)
      (filter (λ x, GpuChannel.type x ≠ "none") objs);
  tbs ← mapM (dump_tb h ig.2) (Gpu.threadblocks ig.2);
  Some (JDict
    [("id", JInt (Z.of_nat ig.1));
     ("inputChunks", JInt (Gpu.input_chunks ig.2));
     ("outputChunks", JInt (Gpu.output_chunks ig.2));
     ("scratchChunks", JInt (Gpu.scratch_chunks ig.2));
     ("chunkGroups", JInt (Program.num_chunk_groups p));
     ("threadblocks", JList (concat tbs));
     ("channels",
      JList (render_channel max_input max_output max_scratch
               <$> channels))]).

Definition dump_to_json (h : Heap) (p : Program.t) : option json :=
  max_scratch ← py_max (Gpu.scratch_chunks <$> Program.gpus p);
  max_input ← py_max (Gpu.input_chunks <$> Program.gpus p);
  max_output ← py_max (Gpu.output_chunks <$> Program.gpus p);
  gpus ← mapM (dump_gpu h p max_input max_output max_scratch)
            (enumerate (Program.gpus p));
  Some (JDict
    [("name", JStr (Program.name p));
     ("collective", JStr (Program.collective p));
     ("protocol", JStr (Program.protocol p));
     ("inplace", JBool (Program.inplace p));
     ("gpus", JList gpus);
     ("num_threads_per_block", JInt (Program.num_threads_per_block p));
     ("use_double_scratch_buffer",
      JBool (Program.use_double_scratch_buffer p));
     ("min_message_size", JInt (Program.min_message_size p));
     ("max_message_size", JInt (Program.max_message_size p))]).

(** The passes of [ir_to_json] in order.  (The code then computes
    [nchannels], which nothing reads.) *)
Definition ir_to_json (h : Heap) (p : Program.t) : option json :=
  p1 ← infer_buffer_sizes _local_src_insts_mscclpp
         _local_dst_insts_mscclpp h p;
  p2 ← unify_scratch p1;
  p3 ← alloc_channels p2;
  let hp := lower_deps h p3 in
  dump_to_json hp.1 hp.2.
End dump.
End Ir.

(** ** [msccl/language/ir_mscclpp.py]

    The older lowering.  Its enumerations and classes come from
    [msccl.language.ir]; the members that the file names are members of
    the types above, which the model shares. *)

Module IrMscclpp.
Definition _local_src_insts_mscclpp : list Instruction.t :=
  [ Instruction.put; Instruction.put_packet; Instruction.signal;
    Instruction.copy; Instruction.copy_packet; Instruction.reduce;
    Instruction.reduce_packet; Instruction.reduce_send;
    Instruction.reduce_send_packet ].

Definition _local_dst_insts_mscclpp : list Instruction.t :=
  [ Instruction.get; Instruction.wait; Instruction.read_reduce_copy;
    Instruction.copy; Instruction.copy_packet; Instruction.reduce;
    Instruction.read_reduce_copy_send; Instruction.reduce_send;
    Instruction.reduce_packet; Instruction.reduce_send_packet ].

(** One iteration of "Expand operations with dependencies with no-ops":
    a no-op per dependency, then the op *)
Definition expand_op (st : Heap * list OpRef) (r : OpRef)
    : Heap * list OpRef :=
  let deps := depends_of st.1 r in
  (st.1 ++ ((λ dep, nop_op [dep]) <$> deps),
   st.2 ++ seq (length st.1) (length deps) ++ [r]).

Definition expand_ops (h : Heap) (rs : list OpRef) : Heap * list OpRef :=
  foldl expand_op (h, []) rs.

Definition expand_nops (h : Heap) (p : Program.t) : Heap * Program.t :=
  if bool_decide (Program.protocol p ≠ "LL") then map_tbs expand_ops h p
  else (h, p).

Definition lower_deps (h : Heap) (p : Program.t) : Heap * Program.t :=
  let h1 := filter_wait h p in
  let h2 := filter_redundant h1 p in
  let hp := expand_nops h2 p in
  (renumber hp.1 hp.2, hp.2).

Section dump.
Context `{Types}.

Definition get_channel_ids (chunk_list : list ChunkRef.t)
    (tb_channel_dict : list (ChanKey * TbChannel.t))
    (src_buffer dst_buffer : Buffer.t) (chan_type : ChannelType.t)
    : option (list json) :=
  ids ← mapM (λ c,
    e ← dict_get (src_buffer, dst_buffer, chan_type) tb_channel_dict;
    Some ((λ ie : nat * ConnectedTo,
             JDict [("id", JInt (Z.of_nat ie.1));
                    ("off", JInt (ChunkRef.index c))])
          <$> filter (λ ie : nat * ConnectedTo,
                        ie.2 = ToRank (ChunkRef.rank c))
                (enumerate (TbChannel.connectedTo e))))
    chunk_list;
  Some (concat ids).

Definition op_fields (d : list (ChanKey * TbChannel.t)) (op : Op.t)
    : option Fields.t :=
  match Op.inst op with
  | Instruction.signal =>
      s ← Op.src op; t ← Op.dst op;
      o ← get_channel_ids (Op.dsts op) d (ChunkRef.buffer s)
            (ChunkRef.buffer t) (Op.channel_type op);
      Some (Fields.mk (buff_pair (ChunkRef.buffer s) (ChunkRef.buffer t))
              JNull o [] [] [] None None)
  | Instruction.wait =>
      s ← Op.src op; t ← Op.dst op;
      i ← get_channel_ids (Op.srcs op) d (ChunkRef.buffer s)
            (ChunkRef.buffer t) (Op.channel_type op);
      Some (Fields.mk JNull
              (buff_pair (ChunkRef.buffer s) (ChunkRef.buffer t))
              [] i [] [] None None)
  | Instruction.read_reduce_copy =>
      s ← Op.src op; t ← Op.dst op;
      i ← get_channel_ids (Op.srcs op) d (ChunkRef.buffer s)
            (ChunkRef.buffer t) (Op.channel_type op);
      Some (Fields.mk JNull
              (buff_pair (ChunkRef.buffer s) (ChunkRef.buffer t))
              [] i [] [] (Some t) (Some t))
  | Instruction.read_reduce_copy_send =>
      s ← Op.src op; t ← Op.dst op;
      i ← get_channel_ids (Op.srcs op) d (ChunkRef.buffer s)
            (ChunkRef.buffer t) (Op.channel_type op);
      d0 ← head (Op.dsts op);
      o ← get_channel_ids (Op.dsts op) d (ChunkRef.buffer t)
            (ChunkRef.buffer d0) (Op.channel_type op);
      Some (Fields.mk
              (buff_pair (ChunkRef.buffer t) (ChunkRef.buffer d0))
              (buff_pair (ChunkRef.buffer s) (ChunkRef.buffer t))
              o i [] [] (Some t) (Some t))
  | Instruction.reduce_send | Instruction.reduce_send_packet =>
      t ← Op.dst op;
      d0 ← head (Op.dsts op);
      o ← get_channel_ids (Op.dsts op) d (ChunkRef.buffer t)
            (ChunkRef.buffer d0) ChannelType.sm;
      Some (Fields.mk
              (buff_pair (ChunkRef.buffer t) (ChunkRef.buffer d0))
              JNull o [] (buff_off <$> Op.srcs op) []
              (Some t) (Some t))
  | Instruction.reduce =>
      Some (Fields.mk JNull JNull [] [] (buff_off <$> Op.srcs op) []
              None (Op.dst op))
  | Instruction.put | Instruction.put_packet =>
      s ← Op.src op; t ← Op.dst op;
      o ← get_channel_ids (Op.dsts op) d (ChunkRef.buffer s)
            (ChunkRef.buffer t) (Op.channel_type op);
      Some (Fields.mk (buff_pair (ChunkRef.buffer s) (ChunkRef.buffer t))
              JNull o [] (buff_off <$> Op.srcs op) [] None None)
  | Instruction.get =>
      s ← Op.src op; t ← Op.dst op;
      i ← get_channel_ids (Op.srcs op) d (ChunkRef.buffer s)
            (ChunkRef.buffer t) (Op.channel_type op);
      Some (Fields.mk JNull
              (buff_pair (ChunkRef.buffer s) (ChunkRef.buffer t))
              [] i [] (buff_off <$> Op.dsts op) None None)
  | Instruction.copy | Instruction.copy_packet =>
      Some (Fields.mk JNull JNull [] [] [] [] (Op.src op) (Op.dst op))
  | _ => Some Fields.init
  end.

Definition dump_op (h : Heap) (d : list (ChanKey * TbChannel.t))
    (r : OpRef) : option (list json) :=
  match h !! r with
  | None => Some []
  | Some op =>
      if bool_decide (Op.tb op = -1) then Some []
      else
        instr ←
          (if bool_decide (Op.inst op = Instruction.nop) then
             Some (nop_instr h op)
           else f ← op_fields d op; instr_of op f);
        Some [JDict (remove_empty_fields instr)]
  end.

Definition dump_tb (h : Heap) (g : Gpu.t) (tb : Threadblock.t)
    : option (list json) :=
  if bool_decide (Threadblock.id tb < 0) then Some []
  else
    let tb_channel_dict :=
      (λ kv, (kv.1, tb_channel_obj (Threadblock.id tb) kv))
        <$> Gpu.channels g in
    tb_channels ←
      py_sorted (by_key str2_lt tb_channel_key)
        (filter (λ x, TbChannel.type x ≠ "none") tb_channel_dict.*2);
    ops ← mapM (dump_op h tb_channel_dict) (Threadblock.ops tb);
    Some [JDict [("id", JInt (Threadblock.id tb));
                 ("ops", JList (concat ops));
                 ("channels", JList (tb_channel_json <$> tb_channels))]].

Definition gpu_channel_obj (kv : ChanKey * list ChanEntry)
    : GpuChannel.t :=
  GpuChannel.mk (Buffer_value kv.1.1.1) (Buffer_value kv.1.1.2)
    (ChannelType_value kv.1.2) kv.2.*2.

Definition gpu_channel_json (chan : GpuChannel.t) : json :=
  JDict [("srcbuff", JStr (GpuChannel.srcbuff chan));
         ("dstbuff", JStr (GpuChannel.dstbuff chan));
         ("type", JStr (GpuChannel.type chan));
         ("connectedTo",
          JList (conn_json <$> GpuChannel.connectedTo chan))].

Definition dump_gpu (h : Heap) (ig : nat * Gpu.t) : option json :=
  channels ←
    py_sorted (by_key str2_lt gpu_channel_key)
      (filter (λ x, GpuChannel.type x ≠ "none")
         (gpu_channel_obj <$> Gpu.channels ig.2));
  tbs ← mapM (dump_tb h ig.2) (Gpu.threadblocks ig.2);
  Some (JDict
    [("id", JInt (Z.of_nat ig.1));
     ("inputChunks", JInt (Gpu.input_chunks ig.2));
     ("outputChunks", JInt (Gpu.output_chunks ig.2));
     ("scratchChunks", JInt (Gpu.scratch_chunks ig.2));
     ("threadblocks", JList (concat tbs));
     ("channels", JList (gpu_channel_json <$> channels))]).

Definition dump_to_json (h : Heap) (p : Program.t) : option json :=
  gpus ← mapM (dump_gpu h) (enumerate (Program.gpus p));
  Some (JDict
    [("name", JStr (Program.name p));
     ("colletive", JStr (Program.collective p));
     ("protocol", JStr (Program.protocol p));
     ("inplace", JBool (Program.inplace p));
     ("gpus", JList gpus)]).

Definition ir_to_json (h : Heap) (p : Program.t) : option json :=
  p1 ← infer_buffer_sizes _local_src_insts_mscclpp
         _local_dst_insts_mscclpp h p;
  p3 ← alloc_channels p1;
  let hp := lower_deps h p3 in
  dump_to_json hp.1 hp.2.
End dump.
End IrMscclpp.

(** ** Vocabulary of the statements *)

(** All threadblocks of a program, device after device, and all the ops
    they list *)
Definition tbs_of (p : Program.t) : list Threadblock.t :=
  g ← Program.gpus p; Gpu.threadblocks g.

Definition all_ops (p : Program.t) : list OpRef :=
  tb ← tbs_of p; Threadblock.ops tb.

(** The passes that simplify dependencies only take dependencies away:
    in the later store every op lists a sublist of what it listed. *)
Definition deps_shrink (h h' : Heap) : Prop :=
  ∀ r, depends_of h' r `sublist_of` depends_of h r.

(** The chunks of an op that the buffer-size scan looks at: the primary
    source and the source list of an op that reads locally, the primary
    destination and (unless the destinations are remote) the destination
    list of an op that writes locally *)
Definition local_chunks (local_src local_dst : list Instruction.t)
    (op : Op.t) : list ChunkRef.t :=
  (if bool_decide (Op.inst op ∈ local_src)
   then option_list (Op.src op) ++ Op.srcs op else [])
  ++
  (if bool_decide (Op.inst op ∈ local_dst)
   then option_list (Op.dst op)
        ++ (if remote_dsts (Op.inst op) then [] else Op.dsts op)
   else []).

(** [index + size] of those chunks that lie in buffer [buf] *)
Definition op_extents (local_src local_dst : list Instruction.t)
    (buf : Buffer.t) (op : Op.t) : list Z :=
  (λ c, ChunkRef.index c + ChunkRef.size c)
    <$> filter (λ c, ChunkRef.buffer c = buf)
          (local_chunks local_src local_dst op).

Definition ops_of_refs (h : Heap) (rs : list OpRef) : list Op.t :=
  r ← rs; option_list (h !! r).

Definition gpu_ops (h : Heap) (g : Gpu.t) : list Op.t :=
  tb ← Gpu.threadblocks g; ops_of_refs h (Threadblock.ops tb).

(** The extents in buffer [buf] of all ops of the devices of rank [rank] *)
Definition extents (local_src local_dst : list Instruction.t) (h : Heap)
    (p : Program.t) (rank : Z) (buf : Buffer.t) : list Z :=
  g ← filter (λ g, Gpu.rank g = rank) (Program.gpus p);
  op ← gpu_ops h g;
  op_extents local_src local_dst buf op.

(** The largest extent, and 0 when there is none *)
Definition required (local_src local_dst : list Instruction.t) (h : Heap)
    (p : Program.t) (rank : Z) (buf : Buffer.t) : Z :=
  foldl Z.max 0 (extents local_src local_dst h p rank buf).

(** Every op that the scan dereferences has the chunk it needs. *)
Definition op_chunks_present (local_src local_dst : list Instruction.t)
    (op : Op.t) : bool :=
  implb (bool_decide (Op.inst op ∈ local_src))
        (bool_decide (is_Some (Op.src op)))
  && implb (bool_decide (Op.inst op ∈ local_dst))
           (bool_decide (is_Some (Op.dst op))).

Definition chunks_present (local_src local_dst : list Instruction.t)
    (h : Heap) (p : Program.t) : bool :=
  forallb (λ r, from_option (op_chunks_present local_src local_dst) true
                  (h !! r))
          (all_ops p).

(** The field [k] of every entry of the list ["gpus"] of a document *)
Definition gpu_field (k : string) (doc : json) : list (option json) :=
  json_get k <$> json_items (default JNull (json_get "gpus" doc)).

(** The order that [sorted] puts the entries of a channel list in: by
    threadblock id, then by connection target (ranks by [<=], lists of
    ranks lexicographically; a rank and a list are unrelated) *)
Definition conn_le (a b : ConnectedTo) : Prop :=
  match a, b with
  | ToRank x, ToRank y => x ≤ y
  | ToRanks xs, ToRanks ys => xs = ys ∨ list_lt xs ys = true
  | _, _ => False
  end.

Definition entry_le (a b : Z * ConnectedTo) : Prop :=
  a.1 < b.1 ∨ (a.1 = b.1 ∧ conn_le a.2 b.2).

(** The channel declarations of a device, each with the id of the
    threadblock that declares it, in the order of the device's lists *)
Definition decls_of (tbs : list Threadblock.t) : list (Z * Channel.t) :=
  tb ← tbs; ch ← Threadblock.channels tb; [(Threadblock.id tb, ch)].

Definition decls (g : Gpu.t) : list (Z * Channel.t) :=
  decls_of (Gpu.threadblocks g).

(** The entries that the declarations with key [k] give *)
Definition entries_for (k : ChanKey) (ds : list (Z * Channel.t))
    : list ChanEntry :=
  (λ d, (d.1, Channel.connected_to d.2))
    <$> filter (λ d, chan_key d.2 = k) ds.

(** Two connection targets compare when both are ranks or both are lists
    of ranks. *)
Definition same_kind (a b : ConnectedTo) : bool :=
  match a, b with
  | ToRank _, ToRank _ | ToRanks _, ToRanks _ => true
  | _, _ => false
  end.

(** No comparison within the list raises. *)
Definition comparable (l : list (Z * ConnectedTo)) : Prop :=
  ∀ a b, a ∈ l → b ∈ l → a.1 = b.1 → same_kind a.2 b.2 = true.

(** The channel-id lookups that [dump_to_json] of [mscclpp/ir.py] makes
    for an op: the chunk list and the key of each call of
    [get_channel_ids] (none when the op lacks a chunk that the key is
    read from) *)
Definition channel_lookups (op : Op.t)
    : list (list ChunkRef.t * ChanKey) :=
  match Op.src op, Op.dst op with
  | Some s, Some t =>
      let key := (ChunkRef.buffer s, ChunkRef.buffer t, Op.channel_type op) in
      match Op.inst op with
      | Instruction.signal | Instruction.flush | Instruction.put
      | Instruction.put_packet | Instruction.put_with_signal
      | Instruction.put_with_signal_and_flush => [(Op.dsts op, key)]
      | Instruction.wait | Instruction.read_reduce_copy
      | Instruction.get => [(Op.srcs op, key)]
      | Instruction.group_load_reduce_store =>
          [(Op.srcs op, key); (Op.dsts op, key)]
      | Instruction.read_reduce_copy_send =>
          (Op.srcs op, key)
          :: match head (Op.dsts op) with
             | Some d0 => [(Op.dsts op,
                            (ChunkRef.buffer t, ChunkRef.buffer d0,
                             Op.channel_type op))]
             | None => []
             end
      | Instruction.reduce_send | Instruction.reduce_send_packet =>
          match head (Op.dsts op) with
          | Some d0 => [(Op.dsts op,
                         (ChunkRef.buffer t, ChunkRef.buffer d0,
                          ChannelType.sm))]
          | None => []
          end
      | _ => []
      end
  | None, Some t =>
      match Op.inst op, head (Op.dsts op) with
      | Instruction.reduce_send, Some d0
      | Instruction.reduce_send_packet, Some d0 =>
          [(Op.dsts op,
            (ChunkRef.buffer t, ChunkRef.buffer d0, ChannelType.sm))]
      | _, _ => []
      end
  | _, _ => []
  end.

(** The capacity of a device for a buffer *)
Definition capacity (g : Gpu.t) (b : Buffer.t) : Z :=
  match b with
  | Buffer.input => Gpu.input_chunks g
  | Buffer.output => Gpu.output_chunks g
  | Buffer.scratch => Gpu.scratch_chunks g
  end.

(** The entries of the list ["threadblocks"] of the [i]-th device of a
    document, and the channel ids (["cids"]) that the [n]-th of them
    lists for its channels *)
Definition doc_threadblocks (i : nat) (doc : json) : list json :=
  json_items (default JNull
    (json_get "threadblocks"
       (default JNull (json_items (default JNull (json_get "gpus" doc))
                         !! i)))).

Definition doc_cids (i n : nat) (doc : json) : list (option json) :=
  json_get "cids"
    <$> json_items (default JNull
          (json_get "channels" (default JNull (doc_threadblocks i doc !! n)))).

(** How the store evolves while the no-ops are inserted: ops stay where
    they are and keep their instruction, dependency lists only grow, and
    what is allocated is a no-op. *)
Definition heap_ext (h h' : Heap) : Prop :=
  (length h ≤ length h')%nat ∧
  (∀ r op, h !! r = Some op →
     ∃ op', h' !! r = Some op' ∧ Op.inst op' = Op.inst op ∧
       Op.depends op ⊆ Op.depends op') ∧
  (∀ r, (length h ≤ r)%nat →
     inst_of h' r = Some Instruction.nop ∨ inst_of h' r = None).

(** The pass of [lower_sync] over one threadblock *)
Definition lower_tb (h : Heap) (tb : Threadblock.t) : Heap * Threadblock.t :=
  ((Ir.lower_ops h (Threadblock.ops tb)).1,
   Threadblock.with_ops (Ir.lower_ops h (Threadblock.ops tb)).2 tb).

(** What the passes after the channel allocation keep of a device: its
    rank, its capacities, its channel table, and the ids and channels of
    its threadblocks in their order *)
Definition same_layout (g g' : Gpu.t) : Prop :=
  Gpu.rank g' = Gpu.rank g ∧
  Gpu.input_chunks g' = Gpu.input_chunks g ∧
  Gpu.output_chunks g' = Gpu.output_chunks g ∧
  Gpu.scratch_chunks g' = Gpu.scratch_chunks g ∧
  Gpu.channels g' = Gpu.channels g ∧
  Threadblock.id <$> Gpu.threadblocks g' =
    Threadblock.id <$> Gpu.threadblocks g ∧
  Threadblock.channels <$> Gpu.threadblocks g' =
    Threadblock.channels <$> Gpu.threadblocks g.

(** The capacity that the first pass of [ir_to_json] gives a device for
    a buffer: what the device declares, or what its ops need if that is
    more *)
Definition inferred (local_src local_dst : list Instruction.t) (h : Heap)
    (p : Program.t) (b : Buffer.t) (g : Gpu.t) : Z :=
  Z.max (capacity g b) (required local_src local_dst h p (Gpu.rank g) b).

(** The order of [sorted] with the key [(x["srcbuff"], x["dstbuff"])]:
    strings compare character by character, pairs by their first
    components and, when these are equal, by their second *)
Definition str_le (a b : string) : Prop := a = b ∨ String.ltb a b = true.

Definition str2_le (a b : string * string) : Prop :=
  (a.1 ≠ b.1 ∧ String.ltb a.1 b.1 = true) ∨ (a.1 = b.1 ∧ str_le a.2 b.2).

(** The pass of [expand_nops] over one threadblock *)
Definition expand_tb (h : Heap) (tb : Threadblock.t)
    : Heap * Threadblock.t :=
  ((IrMscclpp.expand_ops h (Threadblock.ops tb)).1,
   Threadblock.with_ops (IrMscclpp.expand_ops h (Threadblock.ops tb)).2 tb).

(** ** Sample programs *)

(** An instance of the parameters of the serializer *)
#[global] Instance sample_types : Types := {|
  Buffer_value b :=
    match b with
    | Buffer.input => "i" | Buffer.output => "o" | Buffer.scratch => "s"
    end;
  ChannelType_value c :=
    match c with
    | ChannelType.proxy => "proxy" | ChannelType.sm => "sm"
    | ChannelType.none => "none" | ChannelType.nvls => "nvls"
    end;
  Instruction_value i :=
    match i with
    | Instruction.nop => "nop" | Instruction.read_reduce_copy => "rrc"
    | Instruction.read_reduce_copy_send => "rrcs"
    | Instruction.reduce_send => "rs" | Instruction.copy => "copy"
    | Instruction.reduce => "reduce" | Instruction.copy_packet => "cpkt"
    | Instruction.transform_to_packet => "tpkt"
    | Instruction.reduce_send_packet => "rspkt"
    | Instruction.reduce_packet => "rpkt" | Instruction.put => "put"
    | Instruction.put_packet => "ppkt" | Instruction.put_with_signal => "pws"
    | Instruction.put_with_signal_and_flush => "pwsf"
    | Instruction.get => "get" | Instruction.wait => "wait"
    | Instruction.signal => "signal" | Instruction.flush => "flush"
    | Instruction.barrier => "barrier" | Instruction.group_store => "gstore"
    | Instruction.group_load_reduce => "glre"
    | Instruction.group_load_reduce_store => "glres"
    end;
  Op_cnt op :=
    match Op.src op, Op.dst op with
    | Some s, _ => Some (ChunkRef.size s)
    | None, Some d => Some (ChunkRef.size d)
    | None, None => Some 0
    end |}.

(** An op as the authoring layer leaves it: no step, no threadblock *)
Definition sample_op (i : Instruction.t) (rank : Z)
    (src dst : option ChunkRef.t) (deps : list OpRef) (ct : ChannelType.t)
    (srcs dsts : list ChunkRef.t) : Op.t :=
  Op.mk i rank src dst deps (-1) (-1) ct srcs dsts None None.

Definition sample_program (protocol : string) (gs : list Gpu.t)
    : Program.t :=
  Program.mk "sample" "allreduce" false protocol gs 1 1024 false 0 1048576.

(** Two devices.  Device 0 puts one chunk of its input buffer (offset 0,
    length 1) into the scratch buffer of device 1 and signals; device 1
    waits.  The signal depends on the put, the wait on the signal. *)
Definition ex_in : ChunkRef.t := ChunkRef.mk 0 Buffer.input 0 1.
Definition ex_scr : ChunkRef.t := ChunkRef.mk 1 Buffer.scratch 0 1.

Definition ex_heap : Heap :=
  [ sample_op Instruction.put 0 (Some ex_in) (Some ex_scr) []
      ChannelType.sm [ex_in] [ex_scr];
    sample_op Instruction.signal 0 (Some ex_in) (Some ex_scr) [0%nat]
      ChannelType.sm [ex_in] [ex_scr];
    sample_op Instruction.wait 1 (Some ex_in) (Some ex_scr) [1%nat]
      ChannelType.sm [ex_in] [ex_scr] ].

Definition ex_prog : Program.t :=
  sample_program "Simple"
    [ Gpu.mk 0
        [Threadblock.mk 0 [0%nat; 1%nat]
           [Channel.mk Buffer.input Buffer.scratch ChannelType.sm (ToRank 1)]
           0]
        0 0 0 [];
      Gpu.mk 1
        [Threadblock.mk 0 [2%nat]
           [Channel.mk Buffer.input Buffer.scratch ChannelType.sm (ToRank 0)]
           0]
        0 0 0 [] ].

(** A low-latency program.  Device 0 sends packets from the first four
    chunks of its scratch buffer; device 1 copies one chunk from its input
    to its output buffer and does not touch its scratch buffer. *)
Definition ll_scr0 : ChunkRef.t := ChunkRef.mk 0 Buffer.scratch 0 4.
Definition ll_scr1 : ChunkRef.t := ChunkRef.mk 1 Buffer.scratch 0 4.
Definition ll_in1 : ChunkRef.t := ChunkRef.mk 1 Buffer.input 0 1.
Definition ll_out1 : ChunkRef.t := ChunkRef.mk 1 Buffer.output 0 1.

Definition ll_heap : Heap :=
  [ sample_op Instruction.put_packet 0 (Some ll_scr0) (Some ll_scr1) []
      ChannelType.sm [ll_scr0] [ll_scr1];
    sample_op Instruction.copy 1 (Some ll_in1) (Some ll_out1) []
      ChannelType.none [] [] ].

Definition ll_prog : Program.t :=
  sample_program "LL"
    [ Gpu.mk 0
        [Threadblock.mk 0 [0%nat]
           [Channel.mk Buffer.scratch Buffer.scratch ChannelType.sm
              (ToRank 1)] 0]
        0 0 0 [];
      Gpu.mk 1 [Threadblock.mk 0 [1%nat] [] 0] 0 0 0 [] ].

(** Two devices that declare the same channels, threadblock by
    threadblock, in different orders *)
Definition ch_to (r : Z) : Channel.t :=
  Channel.mk Buffer.input Buffer.scratch ChannelType.sm (ToRank r).

Definition det_prog1 : Program.t :=
  sample_program "Simple"
    [ Gpu.mk 0
        [ Threadblock.mk 1 [] [ch_to 2; ch_to 1] 0;
          Threadblock.mk 0 [] [ch_to 3] 0 ]
        0 0 0 [] ].

Definition det_prog2 : Program.t :=
  sample_program "Simple"
    [ Gpu.mk 0
        [ Threadblock.mk 0 [] [ch_to 3] 0;
          Threadblock.mk 1 [] [ch_to 1; ch_to 2] 0 ]
        0 0 0 [] ].

(** A device whose threadblock declares three multicast channels under
    one key, with the rank lists [1,2], [2,1] and [1,3] *)
Definition mc_key : ChanKey := (Buffer.input, Buffer.input, ChannelType.nvls).

Definition mc_channel (rs : list Z) : Channel.t :=
  Channel.mk Buffer.input Buffer.input ChannelType.nvls (ToRanks rs).

Definition mc_gpu : Gpu.t :=
  Gpu.mk 0
    [Threadblock.mk 0 []
       [mc_channel [1; 2]; mc_channel [2; 1]; mc_channel [1; 3]] 0]
    0 0 0 [].

Definition mc_prog : Program.t := sample_program "Simple" [mc_gpu].

(** The first sample with the put aimed at rank 2, for which the
    threadblock's channel (connected to rank 1) is no match *)
Definition miss_scr : ChunkRef.t := ChunkRef.mk 2 Buffer.scratch 0 1.

Definition miss_heap : Heap :=
  [ sample_op Instruction.put 0 (Some ex_in) (Some miss_scr) []
      ChannelType.sm [ex_in] [miss_scr] ].

Definition miss_tb : Threadblock.t :=
  Threadblock.mk 0 [0%nat]
    [Channel.mk Buffer.input Buffer.scratch ChannelType.sm (ToRank 1)] 0.

Definition miss_gpu : Gpu.t := Gpu.mk 0 [miss_tb] 0 0 0 [].

Definition miss_prog : Program.t := sample_program "Simple" [miss_gpu].

(** The same program without any channel: the table has no entry for
    the key of the put *)
Definition nokey_tb : Threadblock.t := Threadblock.mk 0 [0%nat] [] 0.

Definition nokey_gpu : Gpu.t := Gpu.mk 0 [nokey_tb] 0 0 0 [].

Definition nokey_prog : Program.t := sample_program "Simple" [nokey_gpu].

(** A device with a placeholder threadblock of id -1, which has an op on
    the first eight chunks of the scratch buffer and a channel to rank 5,
    and a threadblock of id 0; and the same device without the
    placeholder *)
Definition neg_scr : ChunkRef.t := ChunkRef.mk 0 Buffer.scratch 0 8.

Definition neg_heap : Heap :=
  [ sample_op Instruction.put 0 (Some ex_in) (Some ex_scr) []
      ChannelType.sm [ex_in] [ex_scr];
    sample_op Instruction.copy 0 (Some neg_scr) (Some neg_scr) []
      ChannelType.none [] [] ].

Definition neg_tb : Threadblock.t :=
  Threadblock.mk (-1) [1%nat] [ch_to 5] 0.

Definition neg_tb0 : Threadblock.t := Threadblock.mk 0 [0%nat] [ch_to 1] 0.

Definition neg_prog : Program.t :=
  sample_program "Simple" [Gpu.mk 0 [neg_tb0; neg_tb] 0 0 0 []].

Definition neg_prog_without : Program.t :=
  sample_program "Simple" [Gpu.mk 0 [neg_tb0] 0 0 0 []].

(** A packet copy that depends on a put of another threadblock *)
Definition pkt_heap : Heap :=
  [ sample_op Instruction.put 0 (Some ex_in) (Some ex_scr) []
      ChannelType.sm [ex_in] [ex_scr];
    sample_op Instruction.copy_packet 0 (Some ex_in) (Some neg_scr) [0%nat]
      ChannelType.none [] [] ].

Definition pkt_prog : Program.t :=
  sample_program "Simple"
    [ Gpu.mk 0
        [ Threadblock.mk 0 [0%nat] [ch_to 1] 0;
          Threadblock.mk 1 [1%nat] [] 0 ]
        0 0 0 [] ].

(** An op that depends on an op of another threadblock: the put of
    threadblock 0 depends on the second copy of threadblock 1 *)
Definition cross_heap : Heap :=
  [ sample_op Instruction.put 0 (Some ex_in) (Some ex_scr) [2%nat]
      ChannelType.sm [ex_in] [ex_scr];
    sample_op Instruction.copy 0 (Some ex_in) (Some neg_scr) []
      ChannelType.none [] [];
    sample_op Instruction.copy 0 (Some neg_scr) (Some neg_scr) []
      ChannelType.none [] [] ].

Definition cross_prog : Program.t :=
  sample_program "Simple"
    [ Gpu.mk 0
        [ Threadblock.mk 0 [0%nat] [ch_to 1] 0;
          Threadblock.mk 1 [1%nat; 2%nat] [] 0 ]
        0 0 0 [] ].

(** An op that lists itself as a dependency *)
Definition self_heap : Heap :=
  [ sample_op Instruction.copy 0 (Some ex_in) (Some neg_scr) [0%nat]
      ChannelType.none [] [] ].

Definition self_prog : Program.t :=
  sample_program "Simple"
    [ Gpu.mk 0 [Threadblock.mk 0 [0%nat] [] 0] 0 0 0 [] ].

(** One threadblock whose two copies both depend on a third op, which
    belongs to a second threadblock. *)
Definition dup_heap : Heap :=
  [ sample_op Instruction.copy 0 (Some ex_in) (Some neg_scr) [2%nat]
      ChannelType.none [] [];
    sample_op Instruction.copy 0 (Some ex_in) (Some neg_scr) [2%nat]
      ChannelType.none [] [];
    sample_op Instruction.copy 0 (Some neg_scr) (Some neg_scr) []
      ChannelType.none [] [] ].

Definition dup_prog : Program.t :=
  sample_program "Simple"
    [ Gpu.mk 0
        [ Threadblock.mk 0 [0%nat; 1%nat] [] 0;
          Threadblock.mk 1 [2%nat] [] 0 ]
        0 0 0 [] ].

(** A [reduce] of threadblock 0, already numbered, whose source is chunk
    3 of the input buffer and whose destination is chunk 5 of the output
    buffer *)
Definition red_op : Op.t :=
  Op.mk Instruction.reduce 0
    (Some (ChunkRef.mk 0 Buffer.input 3 1))
    (Some (ChunkRef.mk 0 Buffer.output 5 1))
    [] 0 0 ChannelType.none [ChunkRef.mk 0 Buffer.input 3 1] [] None None.

(** * Properties *)

(** ** The store *)

Lemma depends_of_set_depends h r ds r' :
  depends_of (set_depends h r ds) r' =
    if decide (r' = r ∧ (r < length h)%nat) then ds else depends_of h r'.
Proof.
  unfold depends_of, set_depends.
  destruct (decide (r' = r)) as [->|Hne].
  - rewrite list_lookup_alter_eq.
    destruct (h !! r) as [op|] eqn:Hr; simpl.
    + apply lookup_lt_Some in Hr. rewrite decide_True; [done | split; done].
    + apply lookup_ge_None in Hr. rewrite decide_False; [done | lia].
  - rewrite list_lookup_alter_ne by done.
    rewrite decide_False; [done | tauto].
Qed.

Lemma inst_of_set_depends h r ds r' :
  inst_of (set_depends h r ds) r' = inst_of h r'.
Proof.
  unfold inst_of, set_depends.
  destruct (decide (r' = r)) as [->|Hne].
  - rewrite list_lookup_alter_eq. by destruct (h !! r).
  - by rewrite list_lookup_alter_ne.
Qed.

Lemma length_set_depends h r ds : length (set_depends h r ds) = length h.
Proof. apply length_alter. Qed.

Lemma depends_of_ge h r : (length h ≤ r)%nat → depends_of h r = [].
Proof.
  intros Hr. unfold depends_of. by rewrite (proj2 (lookup_ge_None h r) Hr).
Qed.

Lemma depends_of_elem_lt h r d : d ∈ depends_of h r → (r < length h)%nat.
Proof.
  intros Hd. destruct (decide (r < length h)%nat); [done|].
  rewrite depends_of_ge in Hd by lia. by apply elem_of_nil in Hd.
Qed.

(** ** Loops over the threadblocks *)

Lemma for_each_tb_flat f h p : for_each_tb f h p = foldl f h (tbs_of p).
Proof.
  unfold for_each_tb, tbs_of. destruct p as [? ? ? ? gs ? ? ? ? ?]; simpl.
  revert h. induction gs as [|g gs IH]; intros h; simpl; [done|].
  by rewrite foldl_app, IH.
Qed.

(** A property that a pass establishes for the threadblock it handles and
    that later steps preserve holds of every threadblock at the end. *)
Lemma foldl_establish {A} (R : relation (list Op.t)) (P : list Op.t → A → Prop)
    (f : list Op.t → A → list Op.t) :
  PreOrder R →
  (∀ h a, R h (f h a)) →
  (∀ h a, P (f h a) a) →
  (∀ h h' a, R h h' → P h a → P h' a) →
  ∀ l h a, a ∈ l → P (foldl f h l) a.
Proof.
  intros HR Hstep Hest Hpres l. induction l as [|x l IH]; intros h a Ha.
  - by apply elem_of_nil in Ha.
  - simpl. apply elem_of_cons in Ha as [->|Ha]; [|by apply IH].
    assert (Hmono : ∀ l' h', R h' (foldl f h' l')).
    { clear -HR Hstep. induction l' as [|y l' IH']; intros h'; simpl.
      - reflexivity.
      - etrans; [apply Hstep | apply IH']. }
    eapply Hpres; [apply Hmono | apply Hest].
Qed.

Lemma foldl_preorder {A} (R : relation (list Op.t))
    (f : list Op.t → A → list Op.t) :
  PreOrder R → (∀ h a, R h (f h a)) → ∀ l h, R h (foldl f h l).
Proof.
  intros HR Hstep l. induction l as [|y l IH]; intros h; simpl.
  - reflexivity.
  - etrans; [apply Hstep | apply IH].
Qed.

(** ** Redundant dependencies *)

Lemma deps_shrink_preorder : PreOrder deps_shrink.
Proof.
  split.
  - intros h r. reflexivity.
  - intros h1 h2 h3 H12 H23 r. etrans; [apply H23 | apply H12].
Qed.

Lemma deps_shrink_elem h h' r d :
  deps_shrink h h' → d ∈ depends_of h' r → d ∈ depends_of h r.
Proof. intros Hs Hd. eapply elem_of_sublist; [done | apply Hs]. Qed.

Lemma filter_redundant_op_deps h run r :
  depends_of (filter_redundant_op (h, run) r).1 r =
    filter (λ dep, dep ∉ run) (depends_of h r).
Proof.
  unfold filter_redundant_op; simpl. rewrite depends_of_set_depends.
  case_decide as Hc; [done|].
  rewrite depends_of_ge; [done|]. lia.
Qed.

Lemma filter_redundant_op_shrink st r :
  deps_shrink st.1 (filter_redundant_op st r).1.
Proof.
  intros r'. unfold filter_redundant_op; simpl.
  rewrite depends_of_set_depends. case_decide as Hc; [|reflexivity].
  destruct Hc as [-> _]. apply sublist_filter.
Qed.

Lemma filter_redundant_fold_shrink rs st :
  deps_shrink st.1 (foldl filter_redundant_op st rs).1.
Proof.
  revert st. induction rs as [|r rs IH]; intros st; simpl.
  - apply deps_shrink_preorder.
  - eapply (@transitivity _ _ (@PreOrder_Transitive _ _ deps_shrink_preorder));
      [apply filter_redundant_op_shrink | apply IH].
Qed.

(** After the loop no op lists a dependency that was in the running list
    at the start or that an earlier op of the list still lists. *)
Lemma filter_redundant_fold_disjoint rs h run j b d :
  rs !! j = Some b →
  d ∈ depends_of (foldl filter_redundant_op (h, run) rs).1 b →
  (d ∉ run) ∧
  (∀ i a, (i < j)%nat → rs !! i = Some a →
     d ∉ depends_of (foldl filter_redundant_op (h, run) rs).1 a).
Proof.
  revert h run j. induction rs as [|r rs IH]; intros h run j Hj Hd; [done|].
  simpl in Hd |- *.
  pose proof (filter_redundant_fold_shrink rs (filter_redundant_op (h, run) r))
    as Hsh.
  pose proof (filter_redundant_op_deps h run r) as Hr.
  set (st1 := filter_redundant_op (h, run) r) in *.
  assert (Hst1 : st1 = (st1.1, run ++ filter (λ dep, dep ∉ run) (depends_of h r)))
    by done.
  rewrite Hst1 in Hd |- *.
  destruct j as [|j]; simpl in Hj.
  - injection Hj as <-. split; [|intros; lia].
    rewrite <- Hst1 in Hd. apply (deps_shrink_elem _ _ _ _ Hsh) in Hd.
    rewrite Hr in Hd. by apply list_elem_of_filter in Hd as [? _].
  - destruct (IH _ _ _ Hj Hd) as [Hrun Hearlier]. split.
    + intros Hin. apply Hrun. apply elem_of_app. by left.
    + intros [|i] a Hi Ha; simpl in Ha.
      * injection Ha as <-. intros Hda.
        rewrite <- Hst1 in Hda. apply (deps_shrink_elem _ _ _ _ Hsh) in Hda.
        rewrite Hr in Hda. apply Hrun. apply elem_of_app. by right.
      * apply Hearlier with i; [lia | done].
Qed.

Lemma filter_redundant_fold_frame rs st r :
  r ∉ rs → depends_of (foldl filter_redundant_op st rs).1 r = depends_of st.1 r.
Proof.
  revert st. induction rs as [|x rs IH]; intros st Hr; simpl; [done|].
  apply not_elem_of_cons in Hr as [Hne Hr]. rewrite IH by done.
  unfold filter_redundant_op; simpl. rewrite depends_of_set_depends.
  rewrite decide_False; [done | tauto].
Qed.

(** When the ops of the list are distinct, a dependency is dropped only
    if it was in the running list or an earlier op still lists it. *)
Lemma filter_redundant_fold_complete rs h run j b d :
  NoDup rs → rs !! j = Some b →
  d ∈ depends_of h b →
  d ∉ depends_of (foldl filter_redundant_op (h, run) rs).1 b →
  d ∈ run ∨
  ∃ i a, (i < j)%nat ∧ rs !! i = Some a ∧
    d ∈ depends_of (foldl filter_redundant_op (h, run) rs).1 a.
Proof.
  revert h run j. induction rs as [|r rs IH]; intros h run j Hnd Hj Hd Hnot;
    [done|].
  apply NoDup_cons in Hnd as [Hr Hnd]. simpl in Hnot |- *.
  pose proof (filter_redundant_op_deps h run r) as Hdr.
  pose proof (filter_redundant_fold_frame rs (filter_redundant_op (h, run) r)
                r Hr) as Hfr.
  set (st1 := filter_redundant_op (h, run) r) in *.
  assert (Hst1 : st1 = (st1.1, run ++ filter (λ dep, dep ∉ run) (depends_of h r)))
    by done.
  destruct j as [|j]; simpl in Hj.
  - injection Hj as <-. left.
    rewrite Hfr, Hdr in Hnot.
    destruct (decide (d ∈ run)) as [|Hn]; [done|].
    exfalso. apply Hnot. by apply list_elem_of_filter.
  - assert (b ≠ r) as Hne.
    { intros ->. apply Hr. eapply list_elem_of_lookup_2. exact Hj. }
    assert (Hd1 : d ∈ depends_of st1.1 b).
    { subst st1. unfold filter_redundant_op; simpl.
      rewrite depends_of_set_depends, decide_False; [done | tauto]. }
    rewrite Hst1 in Hnot |- *.
    destruct (IH _ _ _ Hnd Hj Hd1 Hnot) as [Hin | (i & a & Hi & Ha & Hda)].
    + apply elem_of_app in Hin as [Hin|Hin]; [by left|]. right.
      exists 0%nat, r. split_and!; [lia | done |].
      rewrite <- Hst1. by rewrite Hfr, Hdr.
    + right. exists (S i), a. split_and!; [lia | done | done].
Qed.

Lemma filter_redundant_tb_shrink h tb :
  deps_shrink h (filter_redundant_tb h tb).
Proof. apply (filter_redundant_fold_shrink _ (h, [])). Qed.

Lemma filter_redundant_tb_frame h tb r :
  r ∉ Threadblock.ops tb →
  depends_of (filter_redundant_tb h tb) r = depends_of h r.
Proof. intros Hr. by apply (filter_redundant_fold_frame _ (h, [])). Qed.

Lemma filter_redundant_tbs_frame tbs h r :
  r ∉ (tbs ≫= Threadblock.ops) →
  depends_of (foldl filter_redundant_tb h tbs) r = depends_of h r.
Proof.
  revert h. induction tbs as [|tb tbs IH]; intros h Hr; simpl; [done|].
  simpl in Hr. apply not_elem_of_app in Hr as [Hr1 Hr2].
  rewrite IH by done. by apply filter_redundant_tb_frame.
Qed.

Lemma filter_redundant_shrink (h : list Op.t) (p : Program.t) :
  deps_shrink h (filter_redundant h p).
Proof.
  unfold filter_redundant. rewrite for_each_tb_flat.
  apply foldl_preorder; [apply deps_shrink_preorder |].
  apply filter_redundant_tb_shrink.
Qed.

Lemma filter_redundant_disjoint (h : list Op.t) (p : Program.t) tb i j a b d :
  tb ∈ tbs_of p → (i < j)%nat →
  Threadblock.ops tb !! i = Some a → Threadblock.ops tb !! j = Some b →
  d ∈ depends_of (filter_redundant h p) b →
  d ∉ depends_of (filter_redundant h p) a.
Proof.
  unfold filter_redundant. rewrite for_each_tb_flat.
  intros Htb Hij Ha Hb.
  revert i j a b d Hij Ha Hb.
  eapply (foldl_establish deps_shrink
            (λ h' tb, ∀ i j a b d, (i < j)%nat →
               Threadblock.ops tb !! i = Some a →
               Threadblock.ops tb !! j = Some b →
               d ∈ depends_of h' b → d ∉ depends_of h' a));
    [apply deps_shrink_preorder | apply filter_redundant_tb_shrink
    | | | exact Htb].
  + intros h0 tb0 i j a b d Hij Ha Hb Hd.
    unfold filter_redundant_tb, filter_redundant_ops in *.
    destruct (filter_redundant_fold_disjoint _ _ _ _ _ _ Hb Hd) as [_ He].
    by apply He with i.
  + intros h0 h1 tb0 Hsh HP i j a b d Hij Ha Hb Hd Hda.
    eapply HP; [exact Hij | exact Ha | exact Hb | |].
    * by eapply deps_shrink_elem.
    * by eapply deps_shrink_elem.
Qed.

Lemma filter_redundant_complete (h : list Op.t) (p : Program.t) tb j b d :
  NoDup (all_ops p) →
  tb ∈ tbs_of p → Threadblock.ops tb !! j = Some b →
  d ∈ depends_of h b → d ∉ depends_of (filter_redundant h p) b →
  ∃ i a, (i < j)%nat ∧ Threadblock.ops tb !! i = Some a ∧
    d ∈ depends_of (filter_redundant h p) a.
Proof.
  unfold filter_redundant. rewrite for_each_tb_flat.
  intros Hnd Htb Hb Hd Hnot.
  unfold all_ops in Hnd.
  apply list_elem_of_split in Htb as (l1 & l2 & Hsplit).
  rewrite Hsplit in Hnd, Hnot |- *. rewrite bind_app in Hnd. simpl in Hnd.
  apply NoDup_app in Hnd as (Hnd1 & Hdisj1 & Hnd2).
  apply NoDup_app in Hnd2 as (Hndtb & Hdisj2 & Hnd3).
  rewrite foldl_app in Hnot |- *. simpl in Hnot |- *.
  set (h1 := foldl filter_redundant_tb h l1) in *.
  assert (Hin_tb : ∀ i a, Threadblock.ops tb !! i = Some a →
            a ∈ Threadblock.ops tb)
    by (intros; by eapply list_elem_of_lookup_2).
  assert (Hpre : ∀ a, a ∈ Threadblock.ops tb →
            depends_of h1 a = depends_of h a).
  { intros a Ha. apply filter_redundant_tbs_frame. intros Hin.
    apply (Hdisj1 a Hin). apply elem_of_app. by left. }
  assert (Hpost : ∀ a, a ∈ Threadblock.ops tb →
            depends_of (foldl filter_redundant_tb
                          (filter_redundant_tb h1 tb) l2) a =
            depends_of (filter_redundant_tb h1 tb) a).
  { intros a Ha. apply filter_redundant_tbs_frame. intros Hin.
    by apply (Hdisj2 a Ha). }
  rewrite Hpost in Hnot by eauto.
  rewrite <- Hpre in Hd by eauto.
  destruct (filter_redundant_fold_complete _ _ [] _ _ _ Hndtb Hb Hd Hnot)
    as [Hin | (i & a & Hi & Ha & Hda)]; [by apply elem_of_nil in Hin|].
  exists i, a. split_and!; [done | done |].
  rewrite Hpost by eauto. exact Hda.
Qed.

(** C9. The redundant-dependency filter of [ir_to_json] (the same loop in
    both source files) walks the ops of each threadblock in order and
    keeps, for each op, the listed dependencies that are not in the
    running list, which holds the kept dependencies of the ops before it.
    So: (1) every op ends with a sublist of the dependencies it listed;
    (2) after the pass no op of a threadblock lists a dependency that an
    earlier op of the same threadblock lists; (3) when no op occurs twice
    in the program, a dependency is dropped only if an earlier op of the
    same threadblock keeps it. *)
Theorem filter_redundant_streaming (h : list Op.t) (p : Program.t) :
  deps_shrink h (filter_redundant h p) ∧
  (∀ tb i j a b d,
     tb ∈ tbs_of p → (i < j)%nat →
     Threadblock.ops tb !! i = Some a → Threadblock.ops tb !! j = Some b →
     d ∈ depends_of (filter_redundant h p) b →
     d ∉ depends_of (filter_redundant h p) a) ∧
  (NoDup (all_ops p) →
   ∀ tb j b d,
     tb ∈ tbs_of p → Threadblock.ops tb !! j = Some b →
     d ∈ depends_of h b → d ∉ depends_of (filter_redundant h p) b →
     ∃ i a, (i < j)%nat ∧ Threadblock.ops tb !! i = Some a ∧
       d ∈ depends_of (filter_redundant h p) a).
Proof.
  split_and!.
  - apply filter_redundant_shrink.
  - intros tb i j a b d. apply filter_redundant_disjoint.
  - intros Hnd tb j b d. by apply filter_redundant_complete.
Qed.

(** A dependency listed twice in a threadblock: the second op of the
    threadblock loses it, the first keeps it. *)
Lemma filter_redundant_streaming_witness :
  NoDup (all_ops dup_prog) ∧
  ∃ i a, (i < 1)%nat ∧ [0%nat; 1%nat] !! i = Some a ∧
    2%nat ∈ depends_of (filter_redundant dup_heap dup_prog) a.
Proof.
  assert (Hnd : NoDup (all_ops dup_prog))
    by (apply (bool_decide_unpack _); by vm_compute).
  split; [exact Hnd|].
  apply (proj2 (proj2 (filter_redundant_streaming dup_heap dup_prog)) Hnd
           (Threadblock.mk 0 [0%nat; 1%nat] [] 0) 1%nat 1%nat 2%nat).
  - left.
  - reflexivity.
  - vm_compute. left.
  - vm_compute. intros H. by apply elem_of_nil in H.
Defined.

(** ** Buffer sizes *)

Section buffer_size_facts.
Variables local_src local_dst : list Instruction.t.

Lemma sizes_get_bump rank m c k :
sizes_get (bump rank m c) k =
  if decide (k = (rank, ChunkRef.buffer c))
  then Z.max (sizes_get m k) (ChunkRef.index c + ChunkRef.size c)
  else sizes_get m k.
Proof.
unfold bump, sizes_get. case_decide as Hk.
- subst k. by rewrite lookup_insert_eq.
- by rewrite lookup_insert_ne.
Qed.

(** The extents that a list of chunks contributes to the key
  [(rank', buf)] when scanned for a device of rank [rank] *)
Lemma sizes_get_bumps rank cs m rank' buf :
sizes_get (foldl (bump rank) m cs) (rank', buf) =
  foldl Z.max (sizes_get m (rank', buf))
    (if decide (rank' = rank) then
       (λ c, ChunkRef.index c + ChunkRef.size c)
         <$> filter (λ c, ChunkRef.buffer c = buf) cs
     else []).
Proof.
revert m. induction cs as [|c cs IH]; intros m; simpl.
- by case_decide.
- rewrite IH, sizes_get_bump.
  destruct (decide (rank' = rank)) as [->|Hr].
  + rewrite filter_cons.
    destruct (decide (ChunkRef.buffer c = buf)) as [<-|Hb].
    * by rewrite decide_True.
    * rewrite decide_False by congruence. done.
  + rewrite decide_False by congruence. done.
Qed.

Lemma scan_op_chunks rank m op m' :
scan_op local_src local_dst rank m op = Some m' →
m' = foldl (bump rank) m (local_chunks local_src local_dst op).
Proof.
unfold scan_op, local_chunks. intros Hs.
destruct (bool_decide (Op.inst op ∈ local_src));
  destruct (bool_decide (Op.inst op ∈ local_dst)); simpl in Hs;
  repeat match type of Hs with
  | context [Op.src op] => destruct (Op.src op); simpl in Hs
  | context [Op.dst op] => destruct (Op.dst op); simpl in Hs
  | context [remote_dsts ?i] => destruct (remote_dsts i); simpl in Hs
  end;
  try discriminate; injection Hs as <-;
  rewrite ?foldl_app; simpl; rewrite ?foldl_app; done.
Qed.

Lemma scan_op_extents rank m op m' rank' buf :
scan_op local_src local_dst rank m op = Some m' →
sizes_get m' (rank', buf) =
  foldl Z.max (sizes_get m (rank', buf))
    (if decide (rank' = rank)
     then op_extents local_src local_dst buf op else []).
Proof.
intros ->%scan_op_chunks. apply sizes_get_bumps.
Qed.

Lemma scan_ops_extents h rank rs m m' rank' buf :
scan_ops local_src local_dst h rank m rs = Some m' →
sizes_get m' (rank', buf) =
  foldl Z.max (sizes_get m (rank', buf))
    (if decide (rank' = rank)
     then op ← ops_of_refs h rs; op_extents local_src local_dst buf op
     else []).
Proof.
revert m. induction rs as [|r rs IH]; intros m Hs; simpl in Hs.
- injection Hs as <-. by case_decide.
- destruct (scan_ref local_src local_dst h rank m r) as [m1|] eqn:Hr;
    [simpl in Hs|done].
  rewrite (IH _ Hs). unfold scan_ref in Hr. unfold ops_of_refs. simpl.
  destruct (h !! r) as [op|]; simpl.
  + rewrite (scan_op_extents _ _ _ _ rank' buf Hr).
    case_decide; [|done]. by rewrite foldl_app.
  + by injection Hr as <-.
Qed.

Lemma scan_tbs_extents h rank tbs m m' rank' buf :
scan_tbs local_src local_dst h rank m tbs = Some m' →
sizes_get m' (rank', buf) =
  foldl Z.max (sizes_get m (rank', buf))
    (if decide (rank' = rank)
     then op ← (tb ← tbs; ops_of_refs h (Threadblock.ops tb));
          op_extents local_src local_dst buf op
     else []).
Proof.
revert m. induction tbs as [|tb tbs IH]; intros m Hs; simpl in Hs.
- injection Hs as <-. by case_decide.
- destruct (scan_ops local_src local_dst h rank m (Threadblock.ops tb))
    as [m1|] eqn:Hr; [simpl in Hs|done].
  rewrite (IH _ Hs), (scan_ops_extents _ _ _ _ _ rank' buf Hr). simpl.
  case_decide; [|done]. by rewrite bind_app, foldl_app.
Qed.

Lemma scan_gpus_extents h gs m m' rank' buf :
scan_gpus local_src local_dst h m gs = Some m' →
sizes_get m' (rank', buf) =
  foldl Z.max (sizes_get m (rank', buf))
    (g ← filter (λ g, Gpu.rank g = rank') gs;
     op ← gpu_ops h g;
     op_extents local_src local_dst buf op).
Proof.
revert m. induction gs as [|g gs IH]; intros m Hs; simpl in Hs.
- by injection Hs as <-.
- destruct (scan_tbs local_src local_dst h (Gpu.rank g) m
              (Gpu.threadblocks g)) as [m1|] eqn:Hr; [simpl in Hs|done].
  rewrite (IH _ Hs), (scan_tbs_extents _ _ _ _ _ rank' buf Hr).
  rewrite filter_cons.
  destruct (decide (rank' = Gpu.rank g)) as [->|Hne].
  + rewrite decide_True by done. simpl. by rewrite foldl_app.
  + rewrite decide_False by congruence. done.
Qed.

(** The scan succeeds when no op lacks a chunk that it dereferences. *)
Lemma scan_op_is_Some rank m op :
(Op.inst op ∈ local_src → is_Some (Op.src op)) →
(Op.inst op ∈ local_dst → is_Some (Op.dst op)) →
is_Some (scan_op local_src local_dst rank m op).
Proof.
intros Hsrc Hdst. unfold scan_op.
destruct (bool_decide (Op.inst op ∈ local_src)) eqn:Es.
- apply bool_decide_eq_true in Es. destruct (Hsrc Es) as [s ->]. simpl.
  destruct (bool_decide (Op.inst op ∈ local_dst)) eqn:Ed; [|done].
  apply bool_decide_eq_true in Ed. destruct (Hdst Ed) as [d ->]. simpl.
  by destruct (negb _).
- simpl. destruct (bool_decide (Op.inst op ∈ local_dst)) eqn:Ed; [|done].
  apply bool_decide_eq_true in Ed. destruct (Hdst Ed) as [d ->]. simpl.
  by destruct (negb _).
Qed.

Lemma scan_ops_is_Some h rank rs m :
(∀ r op, r ∈ rs → h !! r = Some op →
   (Op.inst op ∈ local_src → is_Some (Op.src op)) ∧
   (Op.inst op ∈ local_dst → is_Some (Op.dst op))) →
is_Some (scan_ops local_src local_dst h rank m rs).
Proof.
revert m. induction rs as [|r rs IH]; intros m Hok; simpl; [done|].
assert (is_Some (scan_ref local_src local_dst h rank m r)) as [m1 ->].
{ unfold scan_ref. destruct (h !! r) as [op|] eqn:Hr; [|done].
  destruct (Hok r op) as [? ?]; [left | done |].
  by apply scan_op_is_Some. }
simpl. apply IH. intros r' op Hr'. apply Hok. by right.
Qed.

Lemma scan_tbs_is_Some h rank tbs m :
(∀ r op, r ∈ (tbs ≫= Threadblock.ops) → h !! r = Some op →
   (Op.inst op ∈ local_src → is_Some (Op.src op)) ∧
   (Op.inst op ∈ local_dst → is_Some (Op.dst op))) →
is_Some (scan_tbs local_src local_dst h rank m tbs).
Proof.
revert m. induction tbs as [|tb tbs IH]; intros m Hok; simpl; [done|].
destruct (scan_ops_is_Some h rank (Threadblock.ops tb) m) as [m1 ->].
{ intros r op Hr. apply Hok. simpl. apply elem_of_app. by left. }
simpl. apply IH. intros r op Hr. apply Hok. simpl.
apply elem_of_app. by right.
Qed.

Lemma scan_gpus_is_Some h gs m :
(∀ r op, r ∈ ((gs ≫= Gpu.threadblocks) ≫= Threadblock.ops) →
   h !! r = Some op →
   (Op.inst op ∈ local_src → is_Some (Op.src op)) ∧
   (Op.inst op ∈ local_dst → is_Some (Op.dst op))) →
is_Some (scan_gpus local_src local_dst h m gs).
Proof.
revert m. induction gs as [|g gs IH]; intros m Hok; simpl; [done|].
destruct (scan_tbs_is_Some h (Gpu.rank g) (Gpu.threadblocks g) m)
  as [m1 ->].
{ intros r op Hr. apply Hok. simpl. rewrite bind_app.
  apply elem_of_app. by left. }
simpl. apply IH. intros r op Hr. apply Hok. simpl. rewrite bind_app.
apply elem_of_app. by right.
Qed.

(** The pass as a whole: it succeeds when the chunks are present, and
  then every device keeps its place and its other attributes and gets
  as capacities the larger of the declared capacity and the largest
  extent. *)
Lemma infer_buffer_sizes_spec h p :
(chunks_present local_src local_dst h p = true →
 is_Some (infer_buffer_sizes local_src local_dst h p)) ∧
(∀ p', infer_buffer_sizes local_src local_dst h p = Some p' →
 ∀ i g, Program.gpus p !! i = Some g →
 ∃ g', Program.gpus p' !! i = Some g' ∧
   Gpu.rank g' = Gpu.rank g ∧
   Gpu.threadblocks g' = Gpu.threadblocks g ∧
   Gpu.input_chunks g' =
     Z.max (Gpu.input_chunks g)
       (required local_src local_dst h p (Gpu.rank g) Buffer.input) ∧
   Gpu.output_chunks g' =
     Z.max (Gpu.output_chunks g)
       (required local_src local_dst h p (Gpu.rank g) Buffer.output) ∧
   Gpu.scratch_chunks g' =
     Z.max (Gpu.scratch_chunks g)
       (required local_src local_dst h p (Gpu.rank g) Buffer.scratch)).
Proof.
unfold infer_buffer_sizes. split.
- intros Hok.
  destruct (scan_gpus_is_Some h (Program.gpus p) ∅) as [m ->]; [|done].
  intros r op Hr Hop. unfold chunks_present in Hok.
  rewrite forallb_forall in Hok.
  specialize (Hok r (proj1 (list_elem_of_In _ _) Hr)).
  rewrite Hop in Hok. simpl in Hok. unfold op_chunks_present in Hok.
  apply andb_prop in Hok as [H1 H2]. split; intros Hin.
  + rewrite (bool_decide_eq_true_2 _ Hin) in H1. simpl in H1.
    by apply bool_decide_eq_true in H1.
  + rewrite (bool_decide_eq_true_2 _ Hin) in H2. simpl in H2.
    by apply bool_decide_eq_true in H2.
- intros p' Hp' i g Hg.
  destruct (scan_gpus local_src local_dst h ∅ (Program.gpus p))
    as [m|] eqn:Hm; [simpl in Hp'|done].
  injection Hp' as <-. exists (apply_sizes m g). simpl.
  rewrite list_lookup_fmap, Hg. split; [done|].
  unfold required, extents. simpl.
  rewrite !(Z.max_comm (_ g)).
  by rewrite <- !(scan_gpus_extents _ _ _ _ _ _ Hm).
Qed.
End buffer_size_facts.

(** C4. After the buffer-size scan of [ir_to_json] (the loops are the same
    in both source files, with each file's two instruction sets), every
    device has, for each of the three buffers, the larger of its declared
    capacity and the largest [index + size] among the chunks that the scan
    looks at in the ops of the devices of its rank (at least 0): the
    primary source and the source list of the ops that read locally, the
    primary destination and, unless the destinations are remote, the
    destination list of the ops that write locally.  The scan returns
    when every op it dereferences has the chunk it needs. *)
Theorem buffer_capacities (h : list Op.t) (p : Program.t) :
  ((chunks_present Ir._local_src_insts_mscclpp Ir._local_dst_insts_mscclpp
      h p = true →
    is_Some (infer_buffer_sizes Ir._local_src_insts_mscclpp
               Ir._local_dst_insts_mscclpp h p)) ∧
   (∀ p',
      infer_buffer_sizes Ir._local_src_insts_mscclpp
        Ir._local_dst_insts_mscclpp h p = Some p' →
      ∀ i g, Program.gpus p !! i = Some g →
      ∃ g', Program.gpus p' !! i = Some g' ∧
        Gpu.rank g' = Gpu.rank g ∧
        Gpu.threadblocks g' = Gpu.threadblocks g ∧
        Gpu.input_chunks g' =
          Z.max (Gpu.input_chunks g)
            (required Ir._local_src_insts_mscclpp
               Ir._local_dst_insts_mscclpp h p (Gpu.rank g) Buffer.input) ∧
        Gpu.output_chunks g' =
          Z.max (Gpu.output_chunks g)
            (required Ir._local_src_insts_mscclpp
               Ir._local_dst_insts_mscclpp h p (Gpu.rank g) Buffer.output) ∧
        Gpu.scratch_chunks g' =
          Z.max (Gpu.scratch_chunks g)
            (required Ir._local_src_insts_mscclpp
               Ir._local_dst_insts_mscclpp h p (Gpu.rank g)
               Buffer.scratch))) ∧
  ((chunks_present IrMscclpp._local_src_insts_mscclpp
      IrMscclpp._local_dst_insts_mscclpp h p = true →
    is_Some (infer_buffer_sizes IrMscclpp._local_src_insts_mscclpp
               IrMscclpp._local_dst_insts_mscclpp h p)) ∧
   (∀ p',
      infer_buffer_sizes IrMscclpp._local_src_insts_mscclpp
        IrMscclpp._local_dst_insts_mscclpp h p = Some p' →
      ∀ i g, Program.gpus p !! i = Some g →
      ∃ g', Program.gpus p' !! i = Some g' ∧
        Gpu.rank g' = Gpu.rank g ∧
        Gpu.threadblocks g' = Gpu.threadblocks g ∧
        Gpu.input_chunks g' =
          Z.max (Gpu.input_chunks g)
            (required IrMscclpp._local_src_insts_mscclpp
               IrMscclpp._local_dst_insts_mscclpp h p (Gpu.rank g)
               Buffer.input) ∧
        Gpu.output_chunks g' =
          Z.max (Gpu.output_chunks g)
            (required IrMscclpp._local_src_insts_mscclpp
               IrMscclpp._local_dst_insts_mscclpp h p (Gpu.rank g)
               Buffer.output) ∧
        Gpu.scratch_chunks g' =
          Z.max (Gpu.scratch_chunks g)
            (required IrMscclpp._local_src_insts_mscclpp
               IrMscclpp._local_dst_insts_mscclpp h p (Gpu.rank g)
               Buffer.scratch))).
Proof. split; apply infer_buffer_sizes_spec. Qed.

(** The theorem at the low-latency sample: the scan returns, and device 0
    gets 4 scratch chunks, device 1 none. *)
Lemma buffer_capacities_witness :
  is_Some (infer_buffer_sizes Ir._local_src_insts_mscclpp
             Ir._local_dst_insts_mscclpp ll_heap ll_prog) ∧
  ∃ p', infer_buffer_sizes Ir._local_src_insts_mscclpp
          Ir._local_dst_insts_mscclpp ll_heap ll_prog = Some p' ∧
    Gpu.scratch_chunks <$> Program.gpus p' = [4; 0] ∧
    Gpu.input_chunks <$> Program.gpus p' = [0; 1] ∧
    Gpu.output_chunks <$> Program.gpus p' = [0; 1].
Proof.
  split.
  - apply (proj1 (proj1 (buffer_capacities ll_heap ll_prog))). reflexivity.
  - destruct (proj1 (proj1 (buffer_capacities ll_heap ll_prog)) eq_refl)
      as [p' Hp'].
    exists p'. split; [exact Hp'|].
    destruct (proj2 (proj1 (buffer_capacities ll_heap ll_prog)) p' Hp'
                0%nat _ eq_refl) as (g0 & Hg0 & _ & _ & Hi0 & Ho0 & Hs0).
    destruct (proj2 (proj1 (buffer_capacities ll_heap ll_prog)) p' Hp'
                1%nat _ eq_refl) as (g1 & Hg1 & _ & _ & Hi1 & Ho1 & Hs1).
    vm_compute in Hp'. injection Hp' as <-. vm_compute. done.
Defined.

(** ** Scratch capacity under the low-latency protocol *)

Lemma foldl_max_ge xs x : x ≤ foldl Z.max x xs.
Proof.
  revert x. induction xs as [|y xs IH]; intros x; simpl; [lia|].
  etrans; [|apply IH]. lia.
Qed.

Lemma foldl_max_elem xs x y : y ∈ xs → y ≤ foldl Z.max x xs.
Proof.
  revert x. induction xs as [|z xs IH]; intros x Hy; simpl.
  - by apply elem_of_nil in Hy.
  - apply elem_of_cons in Hy as [->|Hy]; [|by apply IH].
    etrans; [|apply foldl_max_ge]. lia.
Qed.

Lemma foldl_max_in xs x : foldl Z.max x xs = x ∨ foldl Z.max x xs ∈ xs.
Proof.
  revert x. induction xs as [|z xs IH]; intros x; simpl; [by left|].
  destruct (IH (Z.max x z)) as [->|Hin].
  - destruct (Z.max_spec x z) as [[_ ->]|[_ ->]]; [right; left | by left].
  - right. by right.
Qed.

Lemma py_max_spec xs m :
  py_max xs = Some m → m ∈ xs ∧ ∀ x, x ∈ xs → x ≤ m.
Proof.
  destruct xs as [|x xs]; [done|]. simpl. intros [= <-]. split.
  - destruct (foldl_max_in xs x) as [->|Hin]; [left | by right].
  - intros y [->|Hy]%elem_of_cons;
      [apply foldl_max_ge | by apply foldl_max_elem].
Qed.

Lemma py_max_is_Some xs : xs ≠ [] → is_Some (py_max xs).
Proof. by destruct xs. Qed.

(** In [mscclpp/ir.py] the step that follows the inference returns for
    every low-latency program with a device, and gives every device the
    largest scratch capacity of all devices. *)
Lemma unify_scratch_uniform (p : Program.t) :
  Program.protocol p = "LL" →
  (Program.gpus p ≠ [] → is_Some (Ir.unify_scratch p)) ∧
  (∀ p', Ir.unify_scratch p = Some p' →
     ∃ m, m ∈ Gpu.scratch_chunks <$> Program.gpus p ∧
       (∀ x, x ∈ Gpu.scratch_chunks <$> Program.gpus p → x ≤ m) ∧
       length (Program.gpus p') = length (Program.gpus p) ∧
       ∀ g', g' ∈ Program.gpus p' → Gpu.scratch_chunks g' = m).
Proof.
  intros HLL. unfold Ir.unify_scratch. rewrite bool_decide_eq_true_2 by done.
  split.
  - intros Hne.
    destruct (py_max_is_Some (Gpu.scratch_chunks <$> Program.gpus p))
      as [m ->]; [|done].
    by destruct (Program.gpus p).
  - intros p' Hp'.
    destruct (py_max (Gpu.scratch_chunks <$> Program.gpus p)) as [m|] eqn:Hm;
      [simpl in Hp'|done].
    injection Hp' as <-. apply py_max_spec in Hm as [Hin Hmax].
    exists m. split_and!; [done | done | simpl; by rewrite length_fmap |].
    simpl. intros g' (g & -> & _)%list_elem_of_fmap. done.
Qed.

(** C3 at the low-latency sample, on [ir_mscclpp.py]: device 0 infers 4
    scratch chunks, device 1 none, and the document of the older
    [ir_to_json] reports 4 and 0; the one of [mscclpp/ir.py] reports 4
    and 4. *)
Theorem legacy_scratch_not_unified :
  (gpu_field "scratchChunks" <$> IrMscclpp.ir_to_json ll_heap ll_prog)
    = Some [Some (JInt 4); Some (JInt 0)] ∧
  (gpu_field "scratchChunks" <$> Ir.ir_to_json ll_heap ll_prog)
    = Some [Some (JInt 4); Some (JInt 4)].
Proof. split; vm_compute; reflexivity. Qed.

(** ** Sorting *)

Lemma insert_sorted_perm {A} (lt : A → A → option bool) x l l' :
  insert_sorted lt x l = Some l' → l' ≡ₚ x :: l.
Proof.
  revert l'. induction l as [|y l IH]; intros l' Hl'; simpl in Hl'.
  - by injection Hl' as <-.
  - destruct (lt y x) as [[]|]; simpl in Hl'; [| |done].
    + destruct (insert_sorted lt x l) as [l1|]; [simpl in Hl'|done].
      injection Hl' as <-. rewrite (IH l1 eq_refl). apply Permutation_swap.
    + by injection Hl' as <-.
Qed.

Lemma py_sorted_perm {A} (lt : A → A → option bool) l s :
  py_sorted lt l = Some s → s ≡ₚ l.
Proof.
  revert s. induction l as [|x l IH]; intros s Hs; simpl in Hs.
  - by injection Hs as <-.
  - destruct (py_sorted lt l) as [s1|]; [simpl in Hs|done].
    rewrite (insert_sorted_perm _ _ _ _ Hs). by rewrite (IH s1).
Qed.

Lemma insert_sorted_total {A} (lt : A → A → option bool) x l :
  (∀ y, y ∈ l → is_Some (lt y x)) → is_Some (insert_sorted lt x l).
Proof.
  induction l as [|y l IH]; intros Hc; simpl; [done|].
  destruct (Hc y) as [b ->]; [left|]. simpl. destruct b; [|done].
  destruct IH as [l1 ->]; [|done]. intros z Hz. apply Hc. by right.
Qed.

Lemma py_sorted_total {A} (lt : A → A → option bool) l :
  (∀ x y, x ∈ l → y ∈ l → is_Some (lt x y)) → is_Some (py_sorted lt l).
Proof.
  induction l as [|x l IH]; intros Hc; simpl; [done|].
  destruct IH as [s Hs]; [intros; apply Hc; by right|]. rewrite Hs. simpl.
  apply insert_sorted_total. intros y Hy. apply Hc; [|left].
  right. by rewrite <- (py_sorted_perm _ _ _ Hs).
Qed.

Lemma py_sorted_by_key_is_Some {A K} (klt : K → K → bool) (f : A → K) l :
  is_Some (py_sorted (by_key klt f) l).
Proof. apply py_sorted_total. intros x y _ _. by eexists. Qed.

(** [<] on lists of integers is a strict total order. *)
Lemma list_lt_irrefl xs : list_lt xs xs = false.
Proof.
  induction xs as [|x xs IH]; simpl; [done|]. by rewrite bool_decide_eq_true_2.
Qed.

Lemma list_lt_asym xs ys : list_lt xs ys = true → list_lt ys xs = false.
Proof.
  revert ys. induction xs as [|x xs IH]; intros [|y ys]; simpl; try done.
  case_bool_decide as Hxy.
  - subst y. rewrite bool_decide_eq_true_2 by done. apply IH.
  - rewrite (bool_decide_eq_false_2 (y = x)) by congruence.
    intros Hlt%bool_decide_eq_true. apply bool_decide_eq_false. lia.
Qed.

Lemma list_lt_total xs ys :
  list_lt xs ys = false → xs = ys ∨ list_lt ys xs = true.
Proof.
  revert ys. induction xs as [|x xs IH]; intros [|y ys]; simpl; try done;
    try (by left); try (by right).
  case_bool_decide as Hxy.
  - subst y. rewrite bool_decide_eq_true_2 by done.
    intros [->|?]%IH; [by left | by right].
  - rewrite (bool_decide_eq_false_2 (y = x)) by congruence.
    intros Hlt%bool_decide_eq_false. right. apply bool_decide_eq_true. lia.
Qed.

Lemma list_lt_trans xs ys zs :
  list_lt xs ys = true → list_lt ys zs = true → list_lt xs zs = true.
Proof.
  revert ys zs. induction xs as [|x xs IH]; intros [|y ys] [|z zs]; simpl;
    try done.
  repeat case_bool_decide; subst; try done; try lia; eauto.
Qed.

(** ** The order of the channel entries *)

Lemma same_kind_refl a : same_kind a a = true.
Proof. by destruct a. Qed.

Lemma same_kind_sym a b : same_kind a b = same_kind b a.
Proof. by destruct a, b. Qed.

Lemma same_kind_trans a b c :
  same_kind a b = true → same_kind b c = true → same_kind a c = true.
Proof. by destruct a, b, c. Qed.

Lemma conn_lt_None a b : conn_lt a b = None ↔ same_kind a b = false.
Proof. destruct a, b; simpl; split; done. Qed.

Lemma entry_lt_None (a b : Z * ConnectedTo) :
  entry_lt a b = None ↔ a.1 = b.1 ∧ same_kind a.2 b.2 = false.
Proof.
  unfold entry_lt. case_bool_decide as H1.
  - case_bool_decide as H2.
    + rewrite H2, same_kind_refl. split; [done | by intros [_ ?]].
    + rewrite conn_lt_None. tauto.
  - split; [done | tauto].
Qed.

Lemma entry_lt_is_Some (a b : Z * ConnectedTo) :
  (a.1 = b.1 → same_kind a.2 b.2 = true) → is_Some (entry_lt a b).
Proof.
  intros Hk. destruct (entry_lt a b) eqn:E; [done|].
  apply entry_lt_None in E as [H1 H2]. rewrite Hk in H2; done.
Qed.

Lemma conn_le_refl a : conn_le a a.
Proof. destruct a; simpl; [lia | by left]. Qed.

Lemma entry_lt_true (a b : Z * ConnectedTo) :
  entry_lt a b = Some true → entry_le a b.
Proof.
  unfold entry_lt, entry_le. case_bool_decide as H1.
  - case_bool_decide as H2; [done|]. intros Hlt. right. split; [done|].
    destruct (a.2) as [x|xs], (b.2) as [y|ys]; simpl in *; try done.
    + injection Hlt as Hlt%bool_decide_eq_true. lia.
    + injection Hlt as Hlt. by right.
  - intros [= Hlt%bool_decide_eq_true]. by left.
Qed.

Lemma entry_lt_false (a b : Z * ConnectedTo) :
  entry_lt a b = Some false → entry_le b a.
Proof.
  unfold entry_lt, entry_le. case_bool_decide as H1.
  - case_bool_decide as H2.
    + intros _. right. split; [done|]. rewrite H2. apply conn_le_refl.
    + intros Hlt. right. split; [done|].
      destruct (a.2) as [x|xs], (b.2) as [y|ys]; simpl in *; try done.
      * injection Hlt as Hlt%bool_decide_eq_false. lia.
      * injection Hlt as Hlt. apply list_lt_total in Hlt as [->|?];
          [by left | by right].
  - intros [= Hlt%bool_decide_eq_false]. left. lia.
Qed.

Lemma conn_le_antisymm a b : conn_le a b → conn_le b a → a = b.
Proof.
  destruct a as [x|xs], b as [y|ys]; simpl; try done.
  - intros. f_equal. lia.
  - intros [E1|H1] [E2|H2]; subst; try done.
    apply list_lt_asym in H1. congruence.
Qed.

Lemma conn_le_trans a b c : conn_le a b → conn_le b c → conn_le a c.
Proof.
  destruct a as [x|xs], b as [y|ys], c as [z|zs]; simpl; try done.
  - lia.
  - intros [E1|H1] [E2|H2]; subst; [by left | by right | by right |].
    right. by eapply list_lt_trans.
Qed.

Lemma entry_le_antisymm : AntiSymm (=) entry_le.
Proof.
  intros [i a] [j b]. unfold entry_le; simpl.
  intros [?|[-> Hab]] [?|[? Hba]]; try lia.
  f_equal. by apply conn_le_antisymm.
Qed.

Lemma entry_le_trans : Transitive entry_le.
Proof.
  intros [i a] [j b] [k c]. unfold entry_le; simpl.
  intros [?|[-> Hab]] [?|[-> Hbc]]; try (left; lia).
  right. split; [done|]. by eapply conn_le_trans.
Qed.

Lemma entry_le_id (a b : Z * ConnectedTo) : entry_le a b → a.1 ≤ b.1.
Proof. unfold entry_le. lia. Qed.

Lemma insert_entry_sorted x s s' :
  insert_sorted entry_lt x s = Some s' →
  StronglySorted entry_le s → StronglySorted entry_le s'.
Proof.
  revert s'. induction s as [|y s IH]; intros s' Hs' Hsorted; simpl in Hs'.
  - injection Hs' as <-. repeat constructor.
  - apply StronglySorted_cons in Hsorted as [Hy Hsorted].
    destruct (entry_lt y x) as [[]|] eqn:Hlt; simpl in Hs'; [| |done].
    + destruct (insert_sorted entry_lt x s) as [s1|] eqn:Hins;
        [simpl in Hs'|done].
      injection Hs' as <-. apply StronglySorted_cons. split; [|by apply IH].
      rewrite (insert_sorted_perm _ _ _ _ Hins). constructor; [|done].
      by apply entry_lt_true.
    + injection Hs' as <-. apply StronglySorted_cons. split.
      * apply entry_lt_false in Hlt. constructor; [done|].
        eapply Forall_impl; [exact Hy|]. intros z Hz.
        by eapply entry_le_trans.
      * by apply StronglySorted_cons.
Qed.

Lemma py_sorted_entries_sorted l s :
  py_sorted entry_lt l = Some s → StronglySorted entry_le s.
Proof.
  revert s. induction l as [|x l IH]; intros s Hs; simpl in Hs.
  - injection Hs as <-. constructor.
  - destruct (py_sorted entry_lt l) as [s1|]; [simpl in Hs|done].
    eapply insert_entry_sorted; [exact Hs | by apply IH].
Qed.

(** The sorted list is determined by the entries, whatever their order. *)
Lemma py_sorted_entries_unique l1 l2 s1 s2 :
  l1 ≡ₚ l2 →
  py_sorted entry_lt l1 = Some s1 → py_sorted entry_lt l2 = Some s2 →
  s1 = s2.
Proof.
  intros Hp H1 H2.
  apply (@StronglySorted_unique _ entry_le entry_le_antisymm).
  - by eapply py_sorted_entries_sorted.
  - by eapply py_sorted_entries_sorted.
  - rewrite (py_sorted_perm _ _ _ H1), (py_sorted_perm _ _ _ H2). done.
Qed.

Lemma comparable_perm l1 l2 : l1 ≡ₚ l2 → comparable l1 → comparable l2.
Proof.
  intros Hp Hc a b Ha Hb. apply Hc; by rewrite Hp.
Qed.

Lemma comparable_is_Some l : comparable l → is_Some (py_sorted entry_lt l).
Proof.
  intros Hc. apply py_sorted_total. intros a b Ha Hb.
  apply entry_lt_is_Some. by apply Hc.
Qed.

(** An insertion that returns has compared the new entry, directly or
    through an equal or smaller entry of its threadblock, with all. *)
Lemma insert_entry_comparable x s s' :
  insert_sorted entry_lt x s = Some s' →
  StronglySorted entry_le s → comparable s →
  ∀ z, z ∈ s → z.1 = x.1 → same_kind z.2 x.2 = true.
Proof.
  revert s'. induction s as [|y s IH]; intros s' Hs' Hsorted Hc z Hz Hid.
  - by apply elem_of_nil in Hz.
  - simpl in Hs'. apply StronglySorted_cons in Hsorted as [Hy Hsorted].
    destruct (entry_lt y x) as [b|] eqn:Hlt; [simpl in Hs'|done].
    assert (Hyx : y.1 = x.1 → same_kind y.2 x.2 = true).
    { intros Hyid. destruct (same_kind y.2 x.2) eqn:E; [done|].
      assert (entry_lt y x = None) by (by apply entry_lt_None). congruence. }
    apply elem_of_cons in Hz as [->|Hz]; [by apply Hyx|].
    destruct b.
    + destruct (insert_sorted entry_lt x s) as [s1|] eqn:Hins; [|done].
      eapply IH; [done | done | | done | done].
      intros a b Ha Hb. apply Hc; by right.
    + apply entry_lt_false in Hlt.
      rewrite Forall_forall in Hy. specialize (Hy z Hz).
      assert (y.1 = x.1) as Hyid.
      { apply entry_le_id in Hlt, Hy. lia. }
      eapply same_kind_trans; [|by apply Hyx].
      apply Hc; [by right | by left | congruence].
Qed.

Lemma py_sorted_entries_comparable l s :
  py_sorted entry_lt l = Some s → comparable l.
Proof.
  revert s. induction l as [|x l IH]; intros s Hs; simpl in Hs.
  - intros a b Ha. by apply elem_of_nil in Ha.
  - destruct (py_sorted entry_lt l) as [s1|] eqn:Hs1; [simpl in Hs|done].
    pose proof (IH _ eq_refl) as Hc.
    pose proof (py_sorted_perm _ _ _ Hs1) as Hp.
    pose proof (insert_entry_comparable _ _ _ Hs
                  (py_sorted_entries_sorted _ _ Hs1)
                  (comparable_perm _ _ (symmetry Hp) Hc)) as Hx.
    intros a b [->|Ha]%elem_of_cons [->|Hb]%elem_of_cons Hid.
    + apply same_kind_refl.
    + rewrite same_kind_sym. apply Hx; [by rewrite Hp | done].
    + apply Hx; [by rewrite Hp | done].
    + by apply Hc.
Qed.

(** [sorted] returns exactly on the lists without a rank and a list of
    ranks under one threadblock id. *)
Lemma py_sorted_entries_is_Some l :
  is_Some (py_sorted entry_lt l) ↔ comparable l.
Proof.
  split; [intros [s Hs]; by eapply py_sorted_entries_comparable|].
  apply comparable_is_Some.
Qed.

(** Sorting is insensitive to the order of the entries. *)
Lemma py_sorted_entries_perm l1 l2 :
  l1 ≡ₚ l2 → py_sorted entry_lt l1 = py_sorted entry_lt l2.
Proof.
  intros Hp.
  destruct (py_sorted entry_lt l1) as [s1|] eqn:H1,
           (py_sorted entry_lt l2) as [s2|] eqn:H2; [| | |done].
  - f_equal. by eapply py_sorted_entries_unique.
  - assert (is_Some (py_sorted entry_lt l2)) as [? ?]; [|congruence].
    apply py_sorted_entries_is_Some. eapply comparable_perm; [exact Hp|].
    by eapply py_sorted_entries_comparable.
  - assert (is_Some (py_sorted entry_lt l1)) as [? ?]; [|congruence].
    apply py_sorted_entries_is_Some.
    eapply comparable_perm; [symmetry; exact Hp|].
    by eapply py_sorted_entries_comparable.
Qed.

(** ** Channel tables *)

Lemma dict_get_set {K V} `{EqDecision K} (k k' : K) (v : V) d :
  dict_get k' (dict_set k v d) =
    if decide (k = k') then Some v else dict_get k' d.
Proof.
  induction d as [|[k0 v0] d IH]; simpl.
  - by destruct (decide (k = k')).
  - destruct (decide (k0 = k)) as [->|Hne]; simpl.
    + by destruct (decide (k = k')).
    + destruct (decide (k0 = k')) as [->|Hne'].
      * by rewrite decide_False.
      * exact IH.
Qed.

Lemma dict_set_keys {K V} `{EqDecision K} (k : K) (v : V) d :
  (dict_set k v d).*1 = if decide (k ∈ d.*1) then d.*1 else d.*1 ++ [k].
Proof.
  induction d as [|[k0 v0] d IH]; csimpl; [done|].
  destruct (decide (k0 = k)) as [->|Hne]; csimpl.
  - rewrite decide_True; [done | left].
  - rewrite IH. destruct (decide (k ∈ d.*1)) as [Hin|Hnin].
    + rewrite decide_True; [done | by right].
    + rewrite decide_False; [done|].
      intros [?|?]%elem_of_cons; congruence.
Qed.

Lemma dict_set_NoDup {K V} `{EqDecision K} (k : K) (v : V) d :
  NoDup d.*1 → NoDup (dict_set k v d).*1.
Proof.
  intros Hnd. rewrite dict_set_keys. case_decide as Hin; [done|].
  apply NoDup_app. split_and!; [done | | apply NoDup_singleton].
  intros x Hx ->%list_elem_of_singleton. done.
Qed.

Lemma dict_get_Some_elem {K V} `{EqDecision K} (k : K) (v : V) d :
  dict_get k d = Some v → (k, v) ∈ d.
Proof.
  induction d as [|[k0 v0] d IH]; simpl; [done|].
  destruct (decide (k0 = k)) as [->|Hne].
  - intros [= ->]. left.
  - intros Hd. right. by apply IH.
Qed.

Lemma dict_elem_get {K V} `{EqDecision K} (k : K) (v : V) d :
  NoDup d.*1 → (k, v) ∈ d → dict_get k d = Some v.
Proof.
  induction d as [|[k0 v0] d IH]; simpl; intros Hnd Hin.
  - by apply elem_of_nil in Hin.
  - apply NoDup_cons in Hnd as [Hk0 Hnd].
    apply elem_of_cons in Hin as [[= -> ->]|Hin].
    + by rewrite decide_True.
    + rewrite decide_False; [by apply IH|].
      intros ->. apply Hk0. apply list_elem_of_fmap. by exists (k, v).
Qed.

Lemma chan_dict_add_get id d ch k :
  dict_get k (chan_dict_add id d ch) =
    if decide (chan_key ch = k)
    then Some (default [] (dict_get k d) ++ [(id, Channel.connected_to ch)])
    else dict_get k d.
Proof.
  unfold chan_dict_add.
  destruct (dict_get (chan_key ch) d) as [es|] eqn:Hes;
    rewrite dict_get_set; case_decide as Hk; try done; subst k;
    by rewrite Hes.
Qed.

Lemma chan_dict_add_NoDup id d ch :
  NoDup d.*1 → NoDup (chan_dict_add id d ch).*1.
Proof.
  unfold chan_dict_add. destruct (dict_get (chan_key ch) d);
    apply dict_set_NoDup.
Qed.

(** The table is built declaration by declaration. *)
Lemma chan_dict_tbs_decls tbs d :
  foldl chan_dict_tb d tbs =
    foldl (λ d (x : Z * Channel.t), chan_dict_add x.1 d x.2) d (decls_of tbs).
Proof.
  revert d. induction tbs as [|tb tbs IH]; intros d; simpl; [done|].
  unfold decls_of in *. simpl. rewrite foldl_app, <- IH. f_equal.
  unfold chan_dict_tb. generalize (Threadblock.channels tb) as cs.
  intros cs. revert d. induction cs as [|c cs IHc]; intros d; simpl; [done|].
  apply IHc.
Qed.

Lemma chan_dict_decls_get ds d k :
  dict_get k
    (foldl (λ d (x : Z * Channel.t), chan_dict_add x.1 d x.2) d ds) =
    match entries_for k ds with
    | [] => dict_get k d
    | es => Some (default [] (dict_get k d) ++ es)
    end.
Proof.
  revert d. induction ds as [|[id ch] ds IH]; intros d; [done|].
  simpl. rewrite IH, chan_dict_add_get. unfold entries_for.
  rewrite filter_cons. simpl.
  destruct (decide (chan_key ch = k)) as [Hk|Hk]; csimpl.
  - destruct (_ <$> filter _ ds); simpl; [done|].
    by rewrite <- app_assoc.
  - done.
Qed.

Lemma chan_dict_decls_NoDup ds d :
  NoDup d.*1 →
  NoDup (foldl (λ d (x : Z * Channel.t), chan_dict_add x.1 d x.2) d ds).*1.
Proof.
  revert d. induction ds as [|[id ch] ds IH]; intros d Hnd; [done|].
  simpl. apply IH. by apply chan_dict_add_NoDup.
Qed.

Lemma sort_values_get d d' k :
  sort_values d = Some d' →
  dict_get k d' = dict_get k d ≫= py_sorted entry_lt.
Proof.
  revert d'. induction d as [|[k0 es] d IH]; intros d' Hs.
  - by injection Hs as <-.
  - unfold sort_values in Hs. simpl in Hs.
    destruct (py_sorted entry_lt es) as [s|] eqn:Hes; [simpl in Hs|done].
    destruct (mapM _ d) as [d1|] eqn:Hd1; [simpl in Hs|done].
    injection Hs as <-. simpl. destruct (decide (k0 = k)) as [->|Hne].
    + simpl. by rewrite Hes.
    + by apply IH.
Qed.

Lemma sort_values_is_Some d :
  is_Some (sort_values d) ↔
  ∀ k es, (k, es) ∈ d → is_Some (py_sorted entry_lt es).
Proof.
  unfold sort_values. rewrite mapM_is_Some, Forall_forall. split.
  - intros Hall k es Hin. specialize (Hall _ Hin). simpl in Hall.
    destruct (py_sorted entry_lt es); [done|]. by destruct Hall.
  - intros Hall [k es] Hin. simpl. destruct (Hall _ _ Hin) as [s ->]. done.
Qed.

Lemma entries_for_perm k ds1 ds2 :
  ds1 ≡ₚ ds2 → entries_for k ds1 ≡ₚ entries_for k ds2.
Proof. intros Hp. unfold entries_for. by rewrite Hp. Qed.

Lemma decls_of_perm tbs1 tbs2 : tbs1 ≡ₚ tbs2 → decls_of tbs1 ≡ₚ decls_of tbs2.
Proof. intros Hp. unfold decls_of. by rewrite Hp. Qed.

(** What the allocator leaves under a key: nothing when no declaration
    has the key, else the sorted list of the entries of the declarations
    with that key; it fails when one of the lists does not sort. *)
Lemma alloc_channels_gpu_spec g :
  (is_Some (alloc_channels_gpu g) ↔
   ∀ k, is_Some (py_sorted entry_lt (entries_for k (decls g)))) ∧
  (∀ g', alloc_channels_gpu g = Some g' →
     Gpu.threadblocks g' ≡ₚ Gpu.threadblocks g ∧
     ∀ k, dict_get k (Gpu.channels g') =
          match entries_for k (decls g) with
          | [] => None
          | es => py_sorted entry_lt es
          end).
Proof.
  unfold alloc_channels_gpu, decls.
  destruct (py_sorted_by_key_is_Some Z_lt Threadblock.id (Gpu.threadblocks g))
    as [tbs Htbs].
  rewrite Htbs. simpl.
  pose proof (py_sorted_perm _ _ _ Htbs) as Hperm.
  rewrite chan_dict_tbs_decls.
  set (ds := decls_of tbs).
  set (d := foldl _ [] ds).
  assert (Hget : ∀ k, dict_get k d =
            match entries_for k ds with [] => None | es => Some es end).
  { intros k. subst d. rewrite chan_dict_decls_get. simpl.
    by destruct (entries_for k ds). }
  assert (Hnd : NoDup d.*1).
  { subst d. apply chan_dict_decls_NoDup. constructor. }
  assert (Hds : ∀ k, py_sorted entry_lt (entries_for k ds) =
            py_sorted entry_lt (entries_for k (decls_of (Gpu.threadblocks g)))).
  { intros k. apply py_sorted_entries_perm, entries_for_perm, decls_of_perm.
    exact Hperm. }
  assert (Hnil : ∀ k, entries_for k ds = [] ↔
            entries_for k (decls_of (Gpu.threadblocks g)) = []).
  { intros k.
    pose proof (entries_for_perm k _ _ (decls_of_perm _ _ Hperm)) as Hp.
    fold ds in Hp. split; intros E; rewrite E in Hp.
    - by apply Permutation_nil_l in Hp.
    - by apply Permutation_nil_r in Hp. }
  split.
  - split.
    + intros [g' Hg'] k.
      destruct (sort_values d) as [d'|] eqn:Hd'; [|done].
      rewrite <- Hds.
      destruct (entries_for k ds) as [|e es] eqn:Hes; [done|].
      assert (is_Some (sort_values d)) as Hsome by (by rewrite Hd').
      rewrite sort_values_is_Some in Hsome.
      apply (Hsome k). apply dict_get_Some_elem. by rewrite Hget, Hes.
    + intros Hall.
      assert (is_Some (sort_values d)) as [d' ->]; [|done].
      apply sort_values_is_Some. intros k es Hin.
      apply (dict_elem_get _ _ _ Hnd) in Hin. rewrite Hget in Hin.
      specialize (Hall k). rewrite <- Hds in Hall.
      destruct (entries_for k ds); [done|]. by injection Hin as <-.
  - intros g' Hg'.
    destruct (sort_values d) as [d'|] eqn:Hd'; [simpl in Hg'|done].
    injection Hg' as <-. simpl. split; [done|]. intros k.
    rewrite (sort_values_get _ _ k Hd'), Hget.
    specialize (Hds k). specialize (Hnil k).
    destruct (entries_for k ds) as [|e es] eqn:Hes.
    + rewrite (proj1 Hnil eq_refl). done.
    + cbn [mbind option_bind]. rewrite Hds.
      destruct (entries_for k (decls_of (Gpu.threadblocks g))) eqn:E2;
        [|done].
      by pose proof (proj2 Hnil eq_refl).
Qed.

Lemma alloc_channels_gpu_deterministic g1 g2 :
  decls g1 ≡ₚ decls g2 →
  (is_Some (alloc_channels_gpu g1) ↔ is_Some (alloc_channels_gpu g2)) ∧
  (∀ g1' g2',
     alloc_channels_gpu g1 = Some g1' → alloc_channels_gpu g2 = Some g2' →
     ∀ k, dict_get k (Gpu.channels g1') = dict_get k (Gpu.channels g2') ∧
          ∀ es, dict_get k (Gpu.channels g1') = Some es →
                StronglySorted entry_le es ∧ es ≡ₚ entries_for k (decls g1)).
Proof.
  intros Hp.
  destruct (alloc_channels_gpu_spec g1) as [Hsome1 Hres1].
  destruct (alloc_channels_gpu_spec g2) as [Hsome2 Hres2].
  assert (Heq : ∀ k, py_sorted entry_lt (entries_for k (decls g1)) =
                     py_sorted entry_lt (entries_for k (decls g2))).
  { intros k. by apply py_sorted_entries_perm, entries_for_perm. }
  split.
  - rewrite Hsome1, Hsome2. split; intros Hall k; specialize (Hall k);
      by rewrite ?Heq in *.
  - intros g1' g2' Hg1 Hg2 k.
    destruct (Hres1 _ Hg1) as [_ Hk1]. destruct (Hres2 _ Hg2) as [_ Hk2].
    rewrite Hk1, Hk2. split.
    + pose proof (entries_for_perm k _ _ Hp) as Hpk. specialize (Heq k).
      destruct (entries_for k (decls g1)) as [|e1 es1],
               (entries_for k (decls g2)) as [|e2 es2]; try done.
      * by apply Permutation_nil_l in Hpk.
      * by apply Permutation_nil_r in Hpk.
    + intros es Hes.
      destruct (entries_for k (decls g1)) as [|e1 es1]; [done|].
      split; [by eapply py_sorted_entries_sorted
             | by eapply py_sorted_perm].
Qed.

(** C6. The channel allocator of [ir_to_json] (the same loops in both
    source files) depends only on which channels each threadblock id
    declares on each device, not on the order of the declarations: for two
    programs whose devices declare, one by one, the same channels up to
    order, the allocator fails on both or on neither, and the tables it
    leaves hold the same list under every key.  Each list is sorted by
    threadblock id, then connection target, and holds the entries of the
    declarations with that key; the channel id of an entry is its
    position in it. *)
Theorem channel_ids_deterministic (p1 p2 : Program.t) :
  Forall2 (λ g1 g2, decls g1 ≡ₚ decls g2) (Program.gpus p1) (Program.gpus p2) →
  (is_Some (alloc_channels p1) ↔ is_Some (alloc_channels p2)) ∧
  (∀ p1' p2',
     alloc_channels p1 = Some p1' → alloc_channels p2 = Some p2' →
     Forall2 (λ g1' g2', ∀ k,
        dict_get k (Gpu.channels g1') = dict_get k (Gpu.channels g2') ∧
        ∀ es, dict_get k (Gpu.channels g1') = Some es →
              StronglySorted entry_le es)
       (Program.gpus p1') (Program.gpus p2')).
Proof.
  intros Hgs. unfold alloc_channels. split.
  - assert (Hiff : is_Some (mapM alloc_channels_gpu (Program.gpus p1)) ↔
                   is_Some (mapM alloc_channels_gpu (Program.gpus p2))).
    { rewrite !mapM_is_Some.
      induction Hgs as [|g1 g2 gs1 gs2 Hg _ IH]; [done|].
      rewrite !Forall_cons, IH.
      destruct (alloc_channels_gpu_deterministic _ _ Hg) as [Hs _].
      simpl. by rewrite Hs. }
    destruct (mapM alloc_channels_gpu (Program.gpus p1)),
             (mapM alloc_channels_gpu (Program.gpus p2)); simpl;
      try done; destruct Hiff as [H1 H2].
    + split; intros _; [by destruct H1 | done].
    + split; intros _; [done | by destruct H2].
  - intros p1' p2' H1 H2.
    destruct (mapM alloc_channels_gpu (Program.gpus p1)) as [gs1'|] eqn:E1;
      [simpl in H1|done].
    destruct (mapM alloc_channels_gpu (Program.gpus p2)) as [gs2'|] eqn:E2;
      [simpl in H2|done].
    injection H1 as <-. injection H2 as <-. simpl.
    apply mapM_Some in E1, E2.
    revert gs1' gs2' E1 E2.
    induction Hgs as [|g1 g2 gs1 gs2 Hg _ IH]; intros gs1' gs2' E1 E2.
    + inversion E1; inversion E2; subst. constructor.
    + inversion E1 as [|? g1' ? gs1'' Hg1 E1']; subst.
      inversion E2 as [|? g2' ? gs2'' Hg2 E2']; subst.
      constructor; [|by apply IH].
      intros k.
      destruct (alloc_channels_gpu_deterministic _ _ Hg) as [_ Hres].
      destruct (Hres _ _ Hg1 Hg2 k) as [Heq Hsorted].
      split; [done|]. intros es Hes. by apply Hsorted.
Qed.

(** The theorem at two sample programs whose declarations differ in
    order: both allocations return. *)
Lemma channel_ids_deterministic_witness :
  Forall2 (λ g1 g2, decls g1 ≡ₚ decls g2)
    (Program.gpus det_prog1) (Program.gpus det_prog2) ∧
  is_Some (alloc_channels det_prog2) ∧
  ∃ p1' p2',
    alloc_channels det_prog1 = Some p1' ∧
    alloc_channels det_prog2 = Some p2' ∧
    Forall2 (λ g1' g2', ∀ k,
       dict_get k (Gpu.channels g1') = dict_get k (Gpu.channels g2') ∧
       ∀ es, dict_get k (Gpu.channels g1') = Some es →
             StronglySorted entry_le es)
      (Program.gpus p1') (Program.gpus p2').
Proof.
  assert (Hperm : Forall2 (λ g1 g2, decls g1 ≡ₚ decls g2)
            (Program.gpus det_prog1) (Program.gpus det_prog2)).
  { constructor; [|constructor].
    exact (Permutation_rev [(1, ch_to 2); (1, ch_to 1); (0, ch_to 3)]). }
  split; [exact Hperm|]. split.
  - apply (proj1 (channel_ids_deterministic _ _ Hperm)). by eexists.
  - eexists _, _. split; [reflexivity|]. split; [reflexivity|].
    by apply (proj2 (channel_ids_deterministic _ _ Hperm)).
Defined.

(** ** Multicast channels *)

Lemma same_set_spec a b : same_set a b = true ↔ ∀ x, x ∈ a ↔ x ∈ b.
Proof.
  unfold same_set. rewrite andb_true_iff, !forallb_forall. split.
  - intros [Hab Hba] x. split; intros Hx.
    + apply list_elem_of_In in Hx. by apply Hab, bool_decide_eq_true in Hx.
    + apply list_elem_of_In in Hx. by apply Hba, bool_decide_eq_true in Hx.
  - intros Heq. split; intros x Hx%list_elem_of_In;
      apply bool_decide_eq_true; by apply Heq.
Qed.

(** C7 as stated fails: for the device whose threadblock declares the
    three multicast channels [1,2], [2,1], [1,3] under one key, the
    allocator leaves three entries under that key, not two, and the
    document lists three rank groups. *)
Lemma multicast_not_grouped :
  (∃ g', alloc_channels_gpu mc_gpu = Some g' ∧
     dict_get mc_key (Gpu.channels g') =
       Some [(0, ToRanks [1; 2]); (0, ToRanks [1; 3]); (0, ToRanks [2; 1])]) ∧
  (gpu_field "channels" <$> Ir.ir_to_json [] mc_prog) =
    Some [Some (JList
      [JDict [("buff", JStr "i"); ("type", JStr "nvls");
              ("rankGroups",
               JList [JDict [("size", JInt 0);
                             ("ranks", JList [JInt 1; JInt 2])];
                      JDict [("size", JInt 0);
                             ("ranks", JList [JInt 1; JInt 3])];
                      JDict [("size", JInt 0);
                             ("ranks", JList [JInt 1; JInt 2])]])]])] ∧
  ¬ (∃ g' es, alloc_channels_gpu mc_gpu = Some g' ∧
       dict_get mc_key (Gpu.channels g') = Some es ∧ length es = 2%nat).
Proof.
  split_and!.
  - eexists. split; reflexivity.
  - vm_compute. reflexivity.
  - intros (g' & es & Hg' & Hes & Hlen).
    vm_compute in Hg'. injection Hg' as <-.
    vm_compute in Hes. injection Hes as <-. discriminate.
Qed.

(** C7, amended.  The allocator does not group: under every key it keeps
    one entry per declaration with that key (the sorted list is a
    permutation of the declared entries), so three declarations give
    three channel ids.  Equality of rank sets whatever the order of the
    ranks is what the channel-id lookup [get_channel_ids] tests. *)
Theorem multicast_entries_kept (g g' : Gpu.t) (k : Buffer.t * Buffer.t * ChannelType.t)
    (es : list (Z * ConnectedTo)) :
  alloc_channels_gpu g = Some g' →
  dict_get k (Gpu.channels g') = Some es →
  es ≡ₚ entries_for k (decls g) ∧
  length es = length (filter (λ d, chan_key d.2 = k) (decls g)) ∧
  ∀ a b, same_set a b = true ↔ (∀ x, x ∈ a ↔ x ∈ b).
Proof.
  intros Hg' Hes.
  destruct (alloc_channels_gpu_spec g) as [_ Hres].
  destruct (Hres _ Hg') as [_ Hk]. rewrite Hk in Hes.
  assert (Hp : es ≡ₚ entries_for k (decls g)).
  { destruct (entries_for k (decls g)); [done|]. by eapply py_sorted_perm. }
  split_and!; [done | | apply same_set_spec].
  rewrite Hp. unfold entries_for. by rewrite length_fmap.
Qed.

(** The amended statement at the sample device: three entries. *)
Lemma multicast_entries_kept_witness :
  ∃ g' es,
    alloc_channels_gpu mc_gpu = Some g' ∧
    dict_get mc_key (Gpu.channels g') = Some es ∧
    es ≡ₚ entries_for mc_key (decls mc_gpu) ∧
    length es = 3%nat.
Proof.
  eexists _, _. split; [reflexivity|]. split; [reflexivity|].
  destruct (multicast_entries_kept mc_gpu _ mc_key _ eq_refl eq_refl)
    as (Hp & Hlen & _).
  split; [exact Hp | exact Hlen].
Defined.

(** ** The top level of the document *)

Lemma enumerate_lookup {A} (l : list A) i :
  enumerate l !! i = pair i <$> l !! i.
Proof. unfold enumerate. by rewrite list_lookup_imap. Qed.

Lemma Ir_dump_gpu_id `{Types} h p mi mo ms ig j :
  Ir.dump_gpu h p mi mo ms ig = Some j →
  json_get "id" j = Some (JInt (Z.of_nat ig.1)).
Proof.
  unfold Ir.dump_gpu. intros Hj.
  destruct (mapM Ir.gpu_channel_obj (Gpu.channels ig.2)) as [objs|];
    [simpl in Hj|done].
  destruct (py_sorted (by_key str2_lt gpu_channel_key)
              (filter (λ x, GpuChannel.type x ≠ "none") objs));
    [simpl in Hj|done].
  destruct (mapM (Ir.dump_tb h ig.2) (Gpu.threadblocks ig.2));
    [simpl in Hj|done].
  by injection Hj as <-.
Qed.

Lemma IrMscclpp_dump_gpu_id `{Types} h ig j :
  IrMscclpp.dump_gpu h ig = Some j →
  json_get "id" j = Some (JInt (Z.of_nat ig.1)).
Proof.
  unfold IrMscclpp.dump_gpu. intros Hj.
  destruct (py_sorted (by_key str2_lt gpu_channel_key)
              (filter (λ x, GpuChannel.type x ≠ "none")
                 (IrMscclpp.gpu_channel_obj <$> Gpu.channels ig.2)));
    [simpl in Hj|done].
  destruct (mapM (IrMscclpp.dump_tb h ig.2) (Gpu.threadblocks ig.2));
    [simpl in Hj|done].
  by injection Hj as <-.
Qed.

Lemma mapM_enumerate_ids {A} (f : nat * A → option json) (l : list A) gs :
  (∀ ig j, f ig = Some j → json_get "id" j = Some (JInt (Z.of_nat ig.1))) →
  mapM f (enumerate l) = Some gs →
  length gs = length l ∧
  ∀ i j, gs !! i = Some j → json_get "id" j = Some (JInt (Z.of_nat i)).
Proof.
  intros Hid Hgs. apply mapM_Some in Hgs. split.
  - rewrite <- (Forall2_length _ _ _ Hgs). unfold enumerate.
    by rewrite length_imap.
  - intros i j Hj.
    destruct (Forall2_lookup_r _ _ _ _ _ Hgs Hj) as (ig & Hig & Hf).
    rewrite enumerate_lookup in Hig.
    destruct (l !! i) as [g|]; [simpl in Hig|done].
    injection Hig as <-. by apply Hid in Hf.
Qed.

(** C2 as stated fails on [ir_mscclpp.py]: the document that its
    [dump_to_json] returns for the sample program has five top-level
    fields, and ["collective"] and ["num_threads_per_block"] are not
    among them. *)
Lemma legacy_top_level_fields :
  json_keys <$> IrMscclpp.dump_to_json ex_heap ex_prog =
    Some ["name"; "colletive"; "protocol"; "inplace"; "gpus"] ∧
  ¬ (∃ doc, IrMscclpp.dump_to_json ex_heap ex_prog = Some doc ∧
       json_keys doc ≡ₚ
         ["name"; "collective"; "protocol"; "inplace";
          "num_threads_per_block"; "use_double_scratch_buffer";
          "min_message_size"; "max_message_size"; "gpus"]).
Proof.
  split; [vm_compute; reflexivity|].
  intros (doc & Hdoc & Hkeys).
  vm_compute in Hdoc. injection Hdoc as <-.
  apply Permutation_length in Hkeys. discriminate.
Qed.

(** C2, amended.  Every document that [dump_to_json] of [mscclpp/ir.py]
    returns has exactly the top-level fields [name], [collective],
    [protocol], [inplace], [gpus], [num_threads_per_block],
    [use_double_scratch_buffer], [min_message_size], [max_message_size];
    every document that [dump_to_json] of [ir_mscclpp.py] returns has
    five top-level fields, among them [name], [protocol], [inplace] and
    [gpus] and none of the last four of the other list.  In both, [gpus]
    is a list with one entry per device, in the order of the devices. *)
Theorem top_level_fields `{Types} (h : list Op.t) (p : Program.t) :
  (∀ doc, Ir.dump_to_json h p = Some doc →
     json_keys doc =
       ["name"; "collective"; "protocol"; "inplace"; "gpus";
        "num_threads_per_block"; "use_double_scratch_buffer";
        "min_message_size"; "max_message_size"] ∧
     ∃ gs, json_get "gpus" doc = Some (JList gs) ∧
       length gs = length (Program.gpus p) ∧
       ∀ i j, gs !! i = Some j →
         json_get "id" j = Some (JInt (Z.of_nat i))) ∧
  (∀ doc, IrMscclpp.dump_to_json h p = Some doc →
     length (json_keys doc) = 5%nat ∧
     (∀ k, k ∈ ["name"; "protocol"; "inplace"; "gpus"] → k ∈ json_keys doc) ∧
     (∀ k, k ∈ ["num_threads_per_block"; "use_double_scratch_buffer";
                "min_message_size"; "max_message_size"] →
           k ∉ json_keys doc) ∧
     ∃ gs, json_get "gpus" doc = Some (JList gs) ∧
       length gs = length (Program.gpus p) ∧
       ∀ i j, gs !! i = Some j →
         json_get "id" j = Some (JInt (Z.of_nat i))).
Proof.
  split.
  - intros doc Hdoc. unfold Ir.dump_to_json in Hdoc.
    destruct (py_max (Gpu.scratch_chunks <$> Program.gpus p)) as [ms|];
      [simpl in Hdoc|done].
    destruct (py_max (Gpu.input_chunks <$> Program.gpus p)) as [mi|];
      [simpl in Hdoc|done].
    destruct (py_max (Gpu.output_chunks <$> Program.gpus p)) as [mo|];
      [simpl in Hdoc|done].
    destruct (mapM (Ir.dump_gpu h p mi mo ms) (enumerate (Program.gpus p)))
      as [gs|] eqn:Hgs; [simpl in Hdoc|done].
    injection Hdoc as <-. split; [done|].
    exists gs. split; [done|].
    eapply mapM_enumerate_ids; [|exact Hgs].
    intros ig j. apply Ir_dump_gpu_id.
  - intros doc Hdoc. unfold IrMscclpp.dump_to_json in Hdoc.
    destruct (mapM (IrMscclpp.dump_gpu h) (enumerate (Program.gpus p)))
      as [gs|] eqn:Hgs; [simpl in Hdoc|done].
    injection Hdoc as <-. split_and!; [done | | |].
    + intros k Hk. simpl.
      repeat (apply elem_of_cons in Hk as [->|Hk]; [repeat constructor|]).
      by apply elem_of_nil in Hk.
    + intros k Hk. simpl.
      repeat (apply elem_of_cons in Hk as [->|Hk];
              [by apply (bool_decide_unpack _)|]).
      by apply elem_of_nil in Hk.
    + exists gs. split; [done|].
      eapply mapM_enumerate_ids; [|exact Hgs].
      intros ig j. apply IrMscclpp_dump_gpu_id.
Qed.

(** The amended statement at the sample program: both serializers
    return. *)
Lemma top_level_fields_witness :
  ∃ doc doc',
    Ir.dump_to_json ex_heap ex_prog = Some doc ∧
    IrMscclpp.dump_to_json ex_heap ex_prog = Some doc' ∧
    json_keys doc =
      ["name"; "collective"; "protocol"; "inplace"; "gpus";
       "num_threads_per_block"; "use_double_scratch_buffer";
       "min_message_size"; "max_message_size"] ∧
    length (json_keys doc') = 5%nat.
Proof.
  eexists _, _. split; [reflexivity|]. split; [reflexivity|]. split.
  - exact (proj1 (proj1 (top_level_fields ex_heap ex_prog) _ eq_refl)).
  - exact (proj1 (proj2 (top_level_fields ex_heap ex_prog) _ eq_refl)).
Defined.

(** ** Channel-id lookups *)

Lemma mapM_None_elem {A B} (f : A → option B) (l : list A) x :
  x ∈ l → f x = None → mapM f l = None.
Proof.
  intros Hx Hf. destruct (mapM f l) as [k|] eqn:Hk; [|done].
  assert (is_Some (mapM f l)) as Hs by (by rewrite Hk).
  rewrite mapM_is_Some, Forall_forall in Hs.
  specialize (Hs x Hx). simpl in Hs. rewrite Hf in Hs. by destruct Hs.
Qed.

Section lookup_facts.
Context `{Types}.

(** No entry for the key: the lookup raises as soon as it reads the
  table, which it does for a multicast channel and for every chunk
  of the list otherwise. *)
Lemma get_channel_ids_no_entry cs d sb db ct :
dict_get (sb, db, ct) d = None →
ct = ChannelType.nvls ∨ cs ≠ [] →
get_channel_ids cs d sb db ct = None.
Proof.
intros Hd Hc. unfold get_channel_ids. case_bool_decide as Hn.
- by rewrite Hd.
- destruct Hc as [->|Hc]; [done|].
  destruct cs as [|c cs]; [done|]. simpl. by rewrite Hd.
Qed.

Lemma mapM_total {A B} (g : A → B) (l : list A) :
mapM (λ x, Some (g x)) l = Some (g <$> l).
Proof.
induction l as [|x l IH]; [done|]. simpl. rewrite IH. done.
Qed.

(** An entry for the key, ordinary channel: the lookup returns, for
  every chunk in turn, the positions of the targets equal to the
  chunk's rank. *)
Lemma get_channel_ids_entry cs d sb db ct e :
dict_get (sb, db, ct) d = Some e →
ct ≠ ChannelType.nvls →
get_channel_ids cs d sb db ct =
  Some (concat ((λ c,
          (λ ie : nat * ConnectedTo,
             JDict [("id", JInt (Z.of_nat ie.1));
                    ("off", JInt (ChunkRef.index c))])
          <$> filter (λ ie : nat * ConnectedTo,
                        ie.2 = ToRank (ChunkRef.rank c))
                (enumerate (TbChannel.connectedTo e))) <$> cs)).
Proof.
intros Hd Hn. unfold get_channel_ids.
rewrite bool_decide_eq_false_2 by done.
rewrite Hd. simpl. by rewrite mapM_total.
Qed.

Lemma filter_none {A} (P : A → Prop) `{∀ x, Decision (P x)} (l : list A) :
(∀ x, x ∈ l → ¬ P x) → filter P l = [].
Proof.
induction l as [|x l IH]; intros Hno; [done|].
rewrite filter_cons, decide_False; [|apply Hno; left].
apply IH. intros y Hy. apply Hno. by right.
Qed.

Lemma elem_of_enumerate {A} (l : list A) i x :
(i, x) ∈ enumerate l → x ∈ l.
Proof.
unfold enumerate. intros (j & y & [= -> ->] & Hj)%elem_of_lookup_imap.
by eapply list_elem_of_lookup_2.
Qed.

Lemma concat_nil_all {A} (ls : list (list A)) :
(∀ l, l ∈ ls → l = []) → concat ls = [].
Proof.
induction ls as [|l ls IH]; intros Hall; [done|].
simpl. rewrite (Hall l); [|left]. apply IH. intros l' Hl'. apply Hall.
by right.
Qed.

(** An entry without a target for any chunk of the list: the lookup
  returns no channel id. *)
Lemma get_channel_ids_no_match cs d sb db ct e :
dict_get (sb, db, ct) d = Some e →
ct ≠ ChannelType.nvls →
(∀ c, c ∈ cs → ToRank (ChunkRef.rank c) ∉ TbChannel.connectedTo e) →
get_channel_ids cs d sb db ct = Some [].
Proof.
intros Hd Hn Hno. rewrite (get_channel_ids_entry _ _ _ _ _ _ Hd Hn).
f_equal. apply concat_nil_all.
intros l (c & -> & Hc)%list_elem_of_fmap.
rewrite filter_none; [done|]. intros [i t] Hin Heq. simpl in Heq.
subst t. apply (Hno c Hc). by eapply elem_of_enumerate.
Qed.

(** The same for a multicast channel whose targets are all lists of
  ranks, none with the rank set of the chunk list. *)
Lemma nvls_hits (L : list (nat * ConnectedTo)) ranks :
(∀ ie, ie ∈ L → ∃ rs, ie.2 = ToRanks rs ∧ same_set rs ranks = false) →
∃ hits,
  mapM (λ ie : nat * ConnectedTo,
          match ie.2 with
          | ToRanks ele => Some (ie.1, same_set ele ranks)
          | ToRank _ => None
          end) L = Some hits ∧
  filter (λ ib : nat * bool, ib.2 = true) hits = [].
Proof.
induction L as [|[i t] L IH]; intros Hall; [by exists []|].
destruct IH as (hits & Hhits & Hf); [intros; apply Hall; by right|].
destruct (Hall (i, t)) as (rs & Ht & Hrs); [left|]. simpl in Ht. subst t.
exists ((i, false) :: hits). simpl. rewrite Hhits, Hrs. simpl.
split; [done|]. rewrite filter_cons, decide_False; done.
Qed.

Lemma get_channel_ids_no_match_nvls cs d sb db e :
dict_get (sb, db, ChannelType.nvls) d = Some e →
(∀ t, t ∈ TbChannel.connectedTo e →
   ∃ rs, t = ToRanks rs ∧ same_set rs (ChunkRef.rank <$> cs) = false) →
get_channel_ids cs d sb db ChannelType.nvls = Some [].
Proof.
intros Hd Hno. unfold get_channel_ids.
rewrite bool_decide_eq_true_2 by done. rewrite Hd. simpl.
destruct (nvls_hits (enumerate (TbChannel.connectedTo e))
            (ChunkRef.rank <$> cs)) as (hits & -> & Hf).
{ intros [i t] Hin. apply Hno. by eapply elem_of_enumerate. }
simpl. by rewrite Hf.
Qed.

(** A lookup of an op that raises makes the serialization of the op,
  of its threadblock, of its device and of the program raise. *)
Lemma op_fields_lookup_None d op cs k :
(cs, k) ∈ channel_lookups op →
get_channel_ids cs d k.1.1 k.1.2 k.2 = None →
Ir.op_fields d op = None.
Proof.
unfold channel_lookups, Ir.op_fields. intros Hin Hnone.
destruct (Op.src op) as [s|], (Op.dst op) as [t|];
  destruct (Op.inst op); try (by apply elem_of_nil in Hin);
  simpl in Hin |- *;
  try destruct (head (Op.dsts op)) as [d0|];
  repeat (apply elem_of_cons in Hin as [[= -> ->]|Hin];
          [simpl in Hnone; rewrite ?Hnone; simpl;
           try done;
           try (by destruct (get_channel_ids _ _ _ _ _))|]);
  try (by apply elem_of_nil in Hin);
  destruct (get_channel_ids (Op.srcs op) d _ _ _); simpl;
  rewrite ?Hnone; done.
Qed.

Lemma dump_op_lookup_None h d r op cs k :
h !! r = Some op → Op.tb op ≠ -1 →
(cs, k) ∈ channel_lookups op →
get_channel_ids cs d k.1.1 k.1.2 k.2 = None →
Ir.dump_op h d r = None.
Proof.
intros Hr Htb Hin Hnone. unfold Ir.dump_op. rewrite Hr.
rewrite bool_decide_eq_false_2 by done.
assert (Op.inst op ≠ Instruction.nop ∧ Op.inst op ≠ Instruction.barrier)
  as [Hn Hb].
{ unfold channel_lookups in Hin.
  destruct (Op.src op), (Op.dst op), (Op.inst op);
    try (by apply elem_of_nil in Hin); done. }
rewrite !bool_decide_eq_false_2 by done.
by rewrite (op_fields_lookup_None _ _ _ _ Hin Hnone).
Qed.

Lemma dump_to_json_lookup_None h p g tb r op cs k :
g ∈ Program.gpus p → tb ∈ Gpu.threadblocks g → 0 ≤ Threadblock.id tb →
r ∈ Threadblock.ops tb → h !! r = Some op → Op.tb op ≠ -1 →
(cs, k) ∈ channel_lookups op →
get_channel_ids cs (Ir.tb_channel_dict g tb) k.1.1 k.1.2 k.2 = None →
Ir.dump_to_json h p = None.
Proof.
intros Hg Htb Hid Hr Hop Hoptb Hin Hnone.
assert (Hdtb : Ir.dump_tb h g tb = None).
{ unfold Ir.dump_tb. rewrite bool_decide_eq_false_2 by lia.
  destruct (py_sorted _ _); [simpl|done].
  rewrite (mapM_None_elem _ _ r Hr); [done|].
  by eapply dump_op_lookup_None. }
unfold Ir.dump_to_json.
destruct (py_max (Gpu.scratch_chunks <$> Program.gpus p)) as [ms|];
  [simpl|done].
destruct (py_max (Gpu.input_chunks <$> Program.gpus p)) as [mi|];
  [simpl|done].
destruct (py_max (Gpu.output_chunks <$> Program.gpus p)) as [mo|];
  [simpl|done].
apply list_elem_of_lookup_1 in Hg as [i Hi].
rewrite (mapM_None_elem _ _ (i, g)); [done | |].
- apply list_elem_of_lookup. exists i. rewrite enumerate_lookup, Hi. done.
- unfold Ir.dump_gpu. simpl.
  destruct (mapM Ir.gpu_channel_obj (Gpu.channels g)); [simpl|done].
  destruct (py_sorted _ _); [simpl|done].
  by rewrite (mapM_None_elem _ _ tb Htb Hdtb).
Qed.
End lookup_facts.

(** C5 as stated fails: in the sample the put is aimed at rank 2, the
    entry of its threadblock for the key (input, scratch, sm) holds the
    single target 1, the lookup finds no target for the chunk, and
    [ir_to_json] returns a document all the same (without ["o_cids"] in
    the record of the put). *)
Lemma lookup_miss_still_serialized :
  (∃ g' e,
     alloc_channels_gpu miss_gpu = Some g' ∧
     dict_get (Buffer.input, Buffer.scratch, ChannelType.sm)
       (Ir.tb_channel_dict g' miss_tb) = Some e ∧
     TbChannel.connectedTo e = [ToRank 1] ∧
     get_channel_ids [miss_scr] (Ir.tb_channel_dict g' miss_tb)
       Buffer.input Buffer.scratch ChannelType.sm = Some []) ∧
  ∃ doc, Ir.ir_to_json miss_heap miss_prog = Some doc ∧
    (json_get "ops" <$>
       json_items (default JNull (json_get "threadblocks"
         (default JNull (json_items (default JNull (json_get "gpus" doc))
                           !! 0%nat))))) =
    [Some (JList
       [JDict [("name", JStr "put");
               ("o_buff", JDict [("src", JStr "i"); ("dst", JStr "s")]);
               ("srcs", JList [JDict [("buff", JStr "i"); ("off", JInt 0)]]);
               ("ctype", JStr "sm"); ("cnt", JInt 1)]])].
Proof.
  split.
  - eexists _, _. split_and!; [reflexivity | reflexivity | reflexivity |].
    vm_compute. reflexivity.
  - eexists. split; [vm_compute; reflexivity|]. vm_compute. reflexivity.
Qed.

(** C5, amended.  When the table of the op's threadblock has an entry
    for the key of a lookup but none of its connection targets matches
    (the rank of) the chunk, the lookup does not fail: it returns no
    channel id.  When the table has no entry for the key, and the
    channel is a multicast one or the chunk list is not empty, the lookup
    raises and [dump_to_json] returns no document. *)
Theorem channel_lookup_failure `{Types} :
  (∀ cs d sb db ct e,
     dict_get (sb, db, ct) d = Some e →
     ct ≠ ChannelType.nvls →
     (∀ c, c ∈ cs → ToRank (ChunkRef.rank c) ∉ TbChannel.connectedTo e) →
     get_channel_ids cs d sb db ct = Some []) ∧
  (∀ cs d sb db e,
     dict_get (sb, db, ChannelType.nvls) d = Some e →
     (∀ t, t ∈ TbChannel.connectedTo e →
        ∃ rs, t = ToRanks rs ∧ same_set rs (ChunkRef.rank <$> cs) = false) →
     get_channel_ids cs d sb db ChannelType.nvls = Some []) ∧
  (∀ h p g tb r op cs k,
     g ∈ Program.gpus p → tb ∈ Gpu.threadblocks g → 0 ≤ Threadblock.id tb →
     r ∈ Threadblock.ops tb → h !! r = Some op → Op.tb op ≠ -1 →
     (cs, k) ∈ channel_lookups op →
     dict_get k (Ir.tb_channel_dict g tb) = None →
     k.2 = ChannelType.nvls ∨ cs ≠ [] →
     get_channel_ids cs (Ir.tb_channel_dict g tb) k.1.1 k.1.2 k.2 = None ∧
     Ir.dump_to_json h p = None).
Proof.
  split_and!.
  - apply get_channel_ids_no_match.
  - apply get_channel_ids_no_match_nvls.
  - intros h p g tb r op cs [[sb db] ct] Hg Htb Hid Hr Hop Hoptb Hin Hd Hc.
    assert (get_channel_ids cs (Ir.tb_channel_dict g tb) sb db ct = None)
      as Hnone by (by apply get_channel_ids_no_entry).
    split; [done|]. by eapply dump_to_json_lookup_None.
Qed.

(** The amended statement at the samples: the lookup of the put aimed at
    rank 2 returns no id; without any channel the serializer returns no
    document. *)
Lemma channel_lookup_failure_witness :
  get_channel_ids [miss_scr]
    [((Buffer.input, Buffer.scratch, ChannelType.sm),
      TbChannel.mk "i" "s" "sm" [0%nat] [ToRank 1])]
    Buffer.input Buffer.scratch ChannelType.sm = Some [] ∧
  Ir.dump_to_json (renumber miss_heap nokey_prog) nokey_prog = None.
Proof.
  split.
  - apply (proj1 channel_lookup_failure) with
      (e := TbChannel.mk "i" "s" "sm" [0%nat] [ToRank 1]);
      [reflexivity | discriminate |].
    intros c ->%list_elem_of_singleton.
    by apply (bool_decide_unpack _).
  - eapply (proj2 (proj2 channel_lookup_failure)
              (renumber miss_heap nokey_prog) nokey_prog nokey_gpu nokey_tb
              0%nat _ [miss_scr]
              (Buffer.input, Buffer.scratch, ChannelType.sm)).
    + left.
    + left.
    + done.
    + left.
    + reflexivity.
    + done.
    + left.
    + reflexivity.
    + by right.
Defined.

(** ** Placeholder threadblocks *)

Section placeholder_facts.
Context `{Types}.

Lemma dump_tb_ids h g tb l :
Ir.dump_tb h g tb = Some l →
json_get "id" <$> l =
  if bool_decide (Threadblock.id tb < 0) then []
  else [Some (JInt (Threadblock.id tb))].
Proof.
unfold Ir.dump_tb. case_bool_decide; [by intros [= <-]|].
intros Hl.
destruct (py_sorted (by_key str2_lt tb_channel_key)
            (filter (λ x, TbChannel.type x ≠ "none")
               (Ir.tb_channel_dict g tb).*2)); [simpl in Hl|done].
destruct (mapM (Ir.dump_op h (Ir.tb_channel_dict g tb))
            (Threadblock.ops tb)); [simpl in Hl|done].
by injection Hl as <-.
Qed.

Lemma dump_tbs_ids h g tbs ls :
mapM (Ir.dump_tb h g) tbs = Some ls →
json_get "id" <$> concat ls =
  (λ tb, Some (JInt (Threadblock.id tb)))
    <$> filter (λ tb, 0 ≤ Threadblock.id tb) tbs.
Proof.
intros Hls%mapM_Some. induction Hls as [|tb l tbs ls Hl _ IH]; [done|].
simpl. rewrite fmap_app, IH, (dump_tb_ids _ _ _ _ Hl), filter_cons.
case_bool_decide.
- rewrite decide_False by lia. done.
- rewrite decide_True by lia. done.
Qed.

Lemma dump_gpu_threadblocks h p mi mo ms ig j :
Ir.dump_gpu h p mi mo ms ig = Some j →
json_get "id" <$>
  json_items (default JNull (json_get "threadblocks" j)) =
(λ tb, Some (JInt (Threadblock.id tb)))
  <$> filter (λ tb, 0 ≤ Threadblock.id tb) (Gpu.threadblocks ig.2).
Proof.
unfold Ir.dump_gpu. intros Hj.
destruct (mapM Ir.gpu_channel_obj (Gpu.channels ig.2)) as [objs|];
  [simpl in Hj|done].
destruct (py_sorted (by_key str2_lt gpu_channel_key)
            (filter (λ x, GpuChannel.type x ≠ "none") objs));
  [simpl in Hj|done].
destruct (mapM (Ir.dump_tb h ig.2) (Gpu.threadblocks ig.2)) as [ls|] eqn:Hls;
  [simpl in Hj|done].
injection Hj as <-. simpl. by apply (dump_tbs_ids h ig.2).
Qed.

(** The document lists, for every device, the threadblocks of
  non-negative id, in order. *)
Lemma dump_to_json_threadblocks h p doc i g :
Ir.dump_to_json h p = Some doc →
Program.gpus p !! i = Some g →
json_get "id" <$> doc_threadblocks i doc =
  (λ tb, Some (JInt (Threadblock.id tb)))
    <$> filter (λ tb, 0 ≤ Threadblock.id tb) (Gpu.threadblocks g).
Proof.
unfold Ir.dump_to_json. intros Hdoc Hg.
destruct (py_max (Gpu.scratch_chunks <$> Program.gpus p)) as [ms|];
  [simpl in Hdoc|done].
destruct (py_max (Gpu.input_chunks <$> Program.gpus p)) as [mi|];
  [simpl in Hdoc|done].
destruct (py_max (Gpu.output_chunks <$> Program.gpus p)) as [mo|];
  [simpl in Hdoc|done].
destruct (mapM (Ir.dump_gpu h p mi mo ms) (enumerate (Program.gpus p)))
  as [gs|] eqn:Hgs; [simpl in Hdoc|done].
injection Hdoc as <-. unfold doc_threadblocks. simpl.
apply mapM_Some in Hgs.
assert (enumerate (Program.gpus p) !! i = Some (i, g)) as Hi
  by (by rewrite enumerate_lookup, Hg).
destruct (Forall2_lookup_l _ _ _ _ _ Hgs Hi) as (j & Hj & Hdump).
rewrite Hj. simpl. by apply dump_gpu_threadblocks in Hdump.
Qed.
End placeholder_facts.

(** The scan counts the chunks of every threadblock of the device. *)
Lemma infer_buffer_sizes_covers local_src local_dst h p p' i g g' tb r op c :
  infer_buffer_sizes local_src local_dst h p = Some p' →
  Program.gpus p !! i = Some g → Program.gpus p' !! i = Some g' →
  tb ∈ Gpu.threadblocks g → r ∈ Threadblock.ops tb → h !! r = Some op →
  c ∈ local_chunks local_src local_dst op →
  ChunkRef.index c + ChunkRef.size c ≤ capacity g' (ChunkRef.buffer c).
Proof.
  intros Hp' Hg Hg' Htb Hr Hop Hc.
  destruct (proj2 (infer_buffer_sizes_spec local_src local_dst h p) p' Hp'
              i g Hg) as (g1 & Hg1 & _ & _ & Hin & Hout & Hscr).
  assert (g1 = g') as -> by congruence.
  assert (Hreq : ChunkRef.index c + ChunkRef.size c ≤
            required local_src local_dst h p (Gpu.rank g) (ChunkRef.buffer c)).
  { unfold required. apply foldl_max_elem. unfold extents.
    apply list_elem_of_bind. exists g. split.
    - apply list_elem_of_bind. exists op. split.
      + unfold op_extents. apply list_elem_of_fmap.
        exists c. split; [done|]. by apply list_elem_of_filter.
      + unfold gpu_ops. apply list_elem_of_bind. exists tb. split; [|done].
        unfold ops_of_refs. apply list_elem_of_bind. exists r.
        split; [|done]. rewrite Hop. left.
    - apply list_elem_of_filter. split; [done|].
      by eapply list_elem_of_lookup_2. }
  unfold capacity. destruct (ChunkRef.buffer c); lia.
Qed.

(** The allocator enters the channels of every threadblock of the
    device. *)
Lemma alloc_channels_gpu_covers g g' tb ch :
  alloc_channels_gpu g = Some g' →
  tb ∈ Gpu.threadblocks g → ch ∈ Threadblock.channels tb →
  ∃ es, dict_get (chan_key ch) (Gpu.channels g') = Some es ∧
    (Threadblock.id tb, Channel.connected_to ch) ∈ es.
Proof.
  intros Hg' Htb Hch.
  destruct (proj2 (alloc_channels_gpu_spec g) g' Hg') as [_ Hk].
  specialize (Hk (chan_key ch)).
  assert (Hin : (Threadblock.id tb, Channel.connected_to ch)
                ∈ entries_for (chan_key ch) (decls g)).
  { unfold entries_for. apply list_elem_of_fmap.
    exists (Threadblock.id tb, ch). split; [done|].
    apply list_elem_of_filter. split; [done|].
    unfold decls, decls_of. apply list_elem_of_bind. exists tb.
    split; [|done]. apply list_elem_of_bind. exists ch. split; [left|done]. }
  destruct (entries_for (chan_key ch) (decls g)) as [|e es] eqn:Hes.
  { by apply elem_of_nil in Hin. }
  destruct (py_sorted entry_lt (e :: es)) as [s|] eqn:Hs.
  - exists s. split; [done|]. by rewrite (py_sorted_perm _ _ _ Hs).
  - exfalso.
    assert (is_Some (alloc_channels_gpu g)) as Hsome by (by rewrite Hg').
    pose proof (proj1 (proj1 (alloc_channels_gpu_spec g)) Hsome
                  (chan_key ch)) as Hk'.
    rewrite Hes, Hs in Hk'. by destruct Hk'.
Qed.

(** C10. A threadblock of negative id is left out of the list
    ["threadblocks"] of its device (the document lists exactly the
    threadblocks of non-negative id, in order), but the earlier passes
    treat it like any other: the chunks of its ops count for the inferred
    capacities, and its channels are entered in the device's channel
    table, where they take positions (channel ids) and from where they
    reach the device-level list ["channels"].  So there are programs for
    which removing such a threadblock changes the inferred capacities and
    the channel ids of the threadblocks that remain. *)
Theorem placeholder_threadblocks :
  (∀ (T : Types) h p doc i g,
     Ir.dump_to_json h p = Some doc → Program.gpus p !! i = Some g →
     json_get "id" <$> doc_threadblocks i doc =
       (λ tb, Some (JInt (Threadblock.id tb)))
         <$> filter (λ tb, 0 ≤ Threadblock.id tb) (Gpu.threadblocks g)) ∧
  (∀ h p p' i g g' tb r op c,
     infer_buffer_sizes Ir._local_src_insts_mscclpp
       Ir._local_dst_insts_mscclpp h p = Some p' →
     Program.gpus p !! i = Some g → Program.gpus p' !! i = Some g' →
     tb ∈ Gpu.threadblocks g → r ∈ Threadblock.ops tb → h !! r = Some op →
     c ∈ local_chunks Ir._local_src_insts_mscclpp
           Ir._local_dst_insts_mscclpp op →
     ChunkRef.index c + ChunkRef.size c ≤ capacity g' (ChunkRef.buffer c)) ∧
  (∀ g g' tb ch,
     alloc_channels_gpu g = Some g' →
     tb ∈ Gpu.threadblocks g → ch ∈ Threadblock.channels tb →
     ∃ es, dict_get (chan_key ch) (Gpu.channels g') = Some es ∧
       (Threadblock.id tb, Channel.connected_to ch) ∈ es) ∧
  (∃ h tb0 tb,
     Threadblock.id tb < 0 ∧
     let p := sample_program "Simple" [Gpu.mk 0 [tb0; tb] 0 0 0 []] in
     let p' := sample_program "Simple" [Gpu.mk 0 [tb0] 0 0 0 []] in
     (λ doc, json_get "id" <$> doc_threadblocks 0 doc) <$> Ir.ir_to_json h p
       = Some [Some (JInt 0)] ∧
     gpu_field "scratchChunks" <$> Ir.ir_to_json h p = Some [Some (JInt 8)] ∧
     gpu_field "scratchChunks" <$> Ir.ir_to_json h p' = Some [Some (JInt 0)] ∧
     doc_cids 0 0 <$> Ir.ir_to_json h p = Some [Some (JList [JInt 1])] ∧
     doc_cids 0 0 <$> Ir.ir_to_json h p' = Some [Some (JList [JInt 0])] ∧
     gpu_field "channels" <$> Ir.ir_to_json h p =
       Some [Some (JList
         [JDict [("srcbuff", JStr "i"); ("dstbuff", JStr "s");
                 ("type", JStr "sm");
                 ("connectedTo", JList [JInt 5; JInt 1])]])]).
Proof.
  split_and!.
  - intros T h p doc i g. apply dump_to_json_threadblocks.
  - intros h p p' i g g' tb r op c. apply infer_buffer_sizes_covers.
  - apply alloc_channels_gpu_covers.
  - exists neg_heap, neg_tb0, neg_tb. split; [done|].
    cbv zeta. split_and!; vm_compute; reflexivity.
Qed.

(** The theorem at the sample with the placeholder: the document lists
    the threadblock of id 0 only, and the capacity covers the eight
    scratch chunks of the placeholder's op. *)
Lemma placeholder_threadblocks_witness :
  ∃ doc p' g',
    Ir.ir_to_json neg_heap neg_prog = Some doc ∧
    json_get "id" <$> doc_threadblocks 0 doc = [Some (JInt 0)] ∧
    infer_buffer_sizes Ir._local_src_insts_mscclpp
      Ir._local_dst_insts_mscclpp neg_heap neg_prog = Some p' ∧
    Program.gpus p' !! 0%nat = Some g' ∧
    0 + 8 ≤ capacity g' Buffer.scratch.
Proof.
  eexists _, _, _. split; [vm_compute; reflexivity|].
  split; [vm_compute; reflexivity|].
  split; [reflexivity|]. split; [reflexivity|].
  eapply (proj1 (proj2 placeholder_threadblocks) neg_heap neg_prog)
    with (i := 0%nat) (g := Gpu.mk 0 [neg_tb0; neg_tb] 0 0 0 [])
         (tb := neg_tb) (r := 1%nat)
         (op := sample_op Instruction.copy 0 (Some neg_scr) (Some neg_scr) []
                  ChannelType.none [] [])
         (c := neg_scr).
  - reflexivity.
  - reflexivity.
  - reflexivity.
  - right. left.
  - left.
  - reflexivity.
  - left.
Defined.

(** ** Passes that thread the store *)

Lemma map_state_app {S A B} (f : S → A → S * B) s l1 l2 :
  map_state f s (l1 ++ l2) =
    ((map_state f (map_state f s l1).1 l2).1,
     (map_state f s l1).2 ++ (map_state f (map_state f s l1).1 l2).2).
Proof.
  revert s. induction l1 as [|a l1 IH]; intros s; simpl.
  - by destruct (map_state f s l2).
  - by rewrite IH.
Qed.

Lemma map_state_length {S A B} (f : S → A → S * B) s l :
  length (map_state f s l).2 = length l.
Proof.
  revert s. induction l as [|a l IH]; intros s; simpl; [done|].
  by rewrite IH.
Qed.

Lemma map_state_gpus (g : list Op.t → Threadblock.t → list Op.t * Threadblock.t)
    (gs : list Gpu.t) (h : list Op.t) :
  (map_state (λ h gpu,
     ((map_state g h (Gpu.threadblocks gpu)).1,
      Gpu.with_threadblocks (map_state g h (Gpu.threadblocks gpu)).2 gpu))
     h gs).1 = (map_state g h (gs ≫= Gpu.threadblocks)).1 ∧
  (map_state (λ h gpu,
     ((map_state g h (Gpu.threadblocks gpu)).1,
      Gpu.with_threadblocks (map_state g h (Gpu.threadblocks gpu)).2 gpu))
     h gs).2 ≫= Gpu.threadblocks
  = (map_state g h (gs ≫= Gpu.threadblocks)).2.
Proof.
  revert h. induction gs as [|g0 gs IH]; intros h; [done|].
  rewrite bind_cons, map_state_app.
  cbn [map_state fst snd]. rewrite bind_cons.
  destruct (IH (map_state g h (Gpu.threadblocks g0)).1) as [IH1 IH2].
  split; [exact IH1|]. by rewrite IH2.
Qed.

Lemma map_tbs_flat f h p :
  (map_tbs f h p).1 =
    (map_state (λ h tb, ((f h (Threadblock.ops tb)).1,
                         Threadblock.with_ops (f h (Threadblock.ops tb)).2 tb))
       h (tbs_of p)).1 ∧
  tbs_of (map_tbs f h p).2 =
    (map_state (λ h tb, ((f h (Threadblock.ops tb)).1,
                         Threadblock.with_ops (f h (Threadblock.ops tb)).2 tb))
       h (tbs_of p)).2.
Proof.
  unfold map_tbs, tbs_of. cbn [fst snd Program.gpus Program.with_gpus].
  apply map_state_gpus.
Qed.

Lemma lower_sync_flat h p :
  (Ir.lower_sync h p).1 = (map_state lower_tb h (tbs_of p)).1 ∧
  tbs_of (Ir.lower_sync h p).2 = (map_state lower_tb h (tbs_of p)).2.
Proof. apply map_tbs_flat. Qed.

(** ** How the no-ops are inserted *)

Lemma heap_ext_preorder : PreOrder heap_ext.
Proof.
  split.
  - intros h. split_and!; [done | |].
    + intros r op Hr. exists op. done.
    + intros r Hr. right. unfold inst_of.
      by rewrite (proj2 (lookup_ge_None h r) Hr).
  - intros h1 h2 h3 (Hl12 & Hk12 & Hn12) (Hl23 & Hk23 & Hn23).
    split_and!; [lia | |].
    + intros r op Hr.
      destruct (Hk12 _ _ Hr) as (op2 & Hr2 & Hi2 & Hd2).
      destruct (Hk23 _ _ Hr2) as (op3 & Hr3 & Hi3 & Hd3).
      exists op3. split_and!; [done | congruence | by etrans].
    + intros r Hr. destruct (decide (length h2 ≤ r)%nat) as [Hge|Hlt].
      * by apply Hn23.
      * destruct (Hn12 r Hr) as [Hnop|Hnone].
        -- left. unfold inst_of in *.
           destruct (h2 !! r) as [op2|] eqn:Hr2; [|done].
           destruct (Hk23 _ _ Hr2) as (op3 & -> & Hi3 & _).
           simpl in *. congruence.
        -- unfold inst_of in Hnone.
           destruct (h2 !! r) eqn:Hr2; [done|].
           apply lookup_ge_None in Hr2. lia.
Qed.

Lemma heap_ext_inst h h' r i :
  heap_ext h h' → inst_of h r = Some i → inst_of h' r = Some i.
Proof.
  intros (_ & Hk & _) Hi. unfold inst_of in *.
  destruct (h !! r) as [op|] eqn:Hr; [|done].
  destruct (Hk _ _ Hr) as (op' & -> & Hi' & _). simpl in *. congruence.
Qed.

Lemma heap_ext_depends h h' r d :
  heap_ext h h' → d ∈ depends_of h r → d ∈ depends_of h' r.
Proof.
  intros (_ & Hk & _) Hd. unfold depends_of in *.
  destruct (h !! r) as [op|] eqn:Hr; [|by apply elem_of_nil in Hd].
  destruct (Hk _ _ Hr) as (op' & -> & _ & Hsub). by apply Hsub.
Qed.

Lemma heap_ext_not_barrier h h' d :
  heap_ext h h' →
  inst_of h d ≠ Some Instruction.barrier →
  inst_of h' d ≠ Some Instruction.barrier.
Proof.
  intros Hext Hd. destruct (inst_of h d) as [i|] eqn:Hi.
  - rewrite (heap_ext_inst _ _ _ _ Hext Hi). done.
  - destruct Hext as (_ & _ & Hn). unfold inst_of in Hi.
    destruct (h !! d) eqn:Hhd; [done|]. apply lookup_ge_None in Hhd.
    destruct (Hn d Hhd) as [-> | ->]; done.
Qed.

Lemma heap_ext_no_need_sync h h' r :
  heap_ext h h' → (r < length h)%nat →
  Ir.no_need_sync h' r = Ir.no_need_sync h r.
Proof.
  intros Hext Hr. unfold Ir.no_need_sync.
  destruct (inst_of h r) as [i|] eqn:Hi.
  - by rewrite (heap_ext_inst _ _ _ _ Hext Hi).
  - unfold inst_of in Hi. destruct (h !! r) eqn:Hhr; [done|].
    apply lookup_ge_None in Hhr. lia.
Qed.

Lemma heap_ext_is_marker h h' m :
  heap_ext h h' → Ir.is_marker h m = true → Ir.is_marker h' m = true.
Proof.
  intros Hext. unfold Ir.is_marker.
  rewrite !orb_true_iff, !bool_decide_eq_true.
  intros [Hi|Hi]; [left|right]; by eapply heap_ext_inst.
Qed.

Lemma heap_ext_set_depends h m ds :
  depends_of h m ⊆ ds → heap_ext h (set_depends h m ds).
Proof.
  intros Hsub. split_and!.
  - by rewrite length_set_depends.
  - intros r op Hr. unfold set_depends.
    destruct (decide (r = m)) as [->|Hne].
    + rewrite list_lookup_alter_eq, Hr. simpl. eexists. split; [done|].
      split; [done|]. simpl. unfold depends_of in Hsub. by rewrite Hr in Hsub.
    + rewrite list_lookup_alter_ne by done. exists op. done.
  - intros r Hr. right. unfold inst_of.
    rewrite inst_of_set_depends || idtac.
    unfold set_depends.
    destruct (decide (r = m)) as [->|Hne].
    + rewrite list_lookup_alter_eq.
      by rewrite (proj2 (lookup_ge_None h m) Hr).
    + rewrite list_lookup_alter_ne by done.
      by rewrite (proj2 (lookup_ge_None h r) Hr).
Qed.

Lemma heap_ext_alloc h ds : heap_ext h (h ++ [nop_op ds]).
Proof.
  split_and!.
  - rewrite length_app. lia.
  - intros r op Hr. exists op. split; [|done].
    by apply lookup_app_l_Some.
  - intros r Hr. unfold inst_of.
    destruct (decide (r = length h)) as [->|Hne].
    + left. rewrite lookup_app_r by lia. by rewrite Nat.sub_diag.
    + right. rewrite (proj2 (lookup_ge_None _ r)); [done|].
      rewrite length_app. simpl. lia.
Qed.

(** The three ways an iteration of the loop ends: the op is appended;
    its dependencies go to the marker before it; a no-op for them is
    allocated and appended before the op. *)
Lemma lower_op_cases h new r :
  Ir.lower_op (h, new) r = (h, new ++ [r]) ∧
    (Ir.no_need_sync h r = true ∨
     Ir.nop_depends h r = [] ∧
     ∀ m, last new = Some m → Ir.is_marker h m = false)
  ∨
  (∃ m, Ir.no_need_sync h r = false ∧ last new = Some m ∧
     Ir.is_marker h m = true ∧
     Ir.lower_op (h, new) r =
       (set_depends h m (depends_of h m ++ Ir.nop_depends h r), new ++ [r]))
  ∨
  (Ir.no_need_sync h r = false ∧ Ir.nop_depends h r ≠ [] ∧
   (∀ m, last new = Some m → Ir.is_marker h m = false) ∧
   Ir.lower_op (h, new) r =
     (h ++ [nop_op (Ir.nop_depends h r)], new ++ [length h; r])).
Proof.
  unfold Ir.lower_op. simpl.
  destruct (Ir.no_need_sync h r) eqn:Hns; [left; split; [done | by left]|].
  destruct (last new) as [m|] eqn:Hlast.
  - destruct (Ir.is_marker h m) eqn:Hm.
    + right. left. exists m. done.
    + case_bool_decide as Hd.
      * right. right. split_and!; [done | done | | done].
        intros m' [= <-]. done.
      * left. split; [done|]. right. split.
        -- exact Hd.
        -- intros m' [= <-]. done.
  - case_bool_decide as Hd.
    + right. right. split_and!; [done | done | | done]. intros m' [=].
    + left. split; [done|]. right. split.
      * exact Hd.
      * intros m' [=].
Qed.

Lemma is_marker_lt h m : Ir.is_marker h m = true → (m < length h)%nat.
Proof.
  unfold Ir.is_marker, inst_of. intros Hm.
  destruct (h !! m) eqn:Hhm; [by eapply lookup_lt_Some|].
  by rewrite !bool_decide_eq_false_2 in Hm.
Qed.

Lemma is_marker_set_depends h r ds m :
  Ir.is_marker (set_depends h r ds) m = Ir.is_marker h m.
Proof. unfold Ir.is_marker. by rewrite inst_of_set_depends. Qed.

Lemma last_lookup_pred {A} (l : list A) x :
  last l = Some x →
  l !! (length l - 1)%nat = Some x ∧ (0 < length l)%nat.
Proof.
  intros Hl. rewrite last_lookup in Hl. split.
  - by replace (length l - 1)%nat with (pred (length l)) by lia.
  - destruct l; [done|simpl; lia].
Qed.

Lemma lower_op_ext h new r : heap_ext h (Ir.lower_op (h, new) r).1.
Proof.
  destruct (lower_op_cases h new r)
    as [[-> _] | [(m & _ & _ & _ & ->) | (_ & _ & _ & ->)]]; simpl.
  - apply heap_ext_preorder.
  - apply heap_ext_set_depends. intros d Hd. apply elem_of_app. by left.
  - apply heap_ext_alloc.
Qed.

Lemma nop_depends_elem h0 h r d :
  heap_ext h0 h → d ∈ depends_of h0 r →
  inst_of h0 d ≠ Some Instruction.barrier → d ∈ Ir.nop_depends h r.
Proof.
  intros Hext Hd Hb. unfold Ir.nop_depends. apply list_elem_of_filter. split.
  - by eapply heap_ext_not_barrier.
  - by eapply heap_ext_depends.
Qed.

(** The loop over the ops of a threadblock, from the empty list: what
    holds after every iteration. *)
Lemma lower_ops_inv h0 rs :
  heap_ext h0 (Ir.lower_ops h0 rs).1 ∧
  rs `sublist_of` (Ir.lower_ops h0 rs).2 ∧
  (∀ m, m ∈ (Ir.lower_ops h0 rs).2 →
     m ∈ rs ∨ (length h0 ≤ m < length (Ir.lower_ops h0 rs).1)%nat) ∧
  (∀ r op, h0 !! r = Some op → Ir.is_marker h0 r = false →
     (Ir.lower_ops h0 rs).1 !! r = Some op) ∧
  (∀ o d,
     o ∈ rs → Ir.no_need_sync h0 o = false →
     d ∈ depends_of h0 o → inst_of h0 d ≠ Some Instruction.barrier →
     ∃ i m, (Ir.lower_ops h0 rs).2 !! i = Some m ∧
       (Ir.lower_ops h0 rs).2 !! S i = Some o ∧
       Ir.is_marker (Ir.lower_ops h0 rs).1 m = true ∧
       d ∈ depends_of (Ir.lower_ops h0 rs).1 m).
Proof.
  unfold Ir.lower_ops. induction rs as [|r rs IH] using rev_ind.
  { simpl. split_and!; [apply heap_ext_preorder | done | | done |].
    - intros m Hm. by apply elem_of_nil in Hm.
    - intros o d Ho. by apply elem_of_nil in Ho. }
  rewrite foldl_app. simpl.
  destruct (foldl Ir.lower_op (h0, []) rs) as [h new] eqn:Hst.
  simpl in IH. destruct IH as (Hext & Hsub & Hmem & Hkeep & Hex).
  pose proof (lower_op_ext h new r) as Hstep.
  assert (Hext' : heap_ext h0 (Ir.lower_op (h, new) r).1).
  { eapply (@transitivity _ _ (@PreOrder_Transitive _ _ heap_ext_preorder));
      [exact Hext | exact Hstep]. }
  assert (Hprefix : ∃ suf, (Ir.lower_op (h, new) r).2 = new ++ suf ∧
            [r] `sublist_of` suf ∧
            ∀ m, m ∈ suf → m = r ∨
              (length h ≤ m < length (Ir.lower_op (h, new) r).1)%nat).
  { destruct (lower_op_cases h new r)
      as [[-> _] | [(m & _ & _ & _ & ->) | (_ & _ & _ & ->)]]; simpl.
    - exists [r]. split_and!; [done | done |].
      intros m ->%list_elem_of_singleton. by left.
    - exists [r]. split_and!; [done | done |].
      intros m' ->%list_elem_of_singleton. by left.
    - exists [length h; r]. split_and!; [done | by apply sublist_cons |].
      intros m [->|Hm]%elem_of_cons;
        [|apply list_elem_of_singleton in Hm as ->; by left].
      right. rewrite length_app. simpl. lia. }
  destruct Hprefix as (suf & Hnew & Hsufsub & Hsufmem).
  split_and!.
  - exact Hext'.
  - rewrite Hnew. by apply sublist_app.
  - rewrite Hnew. intros m [Hm|Hm]%elem_of_app.
    + destruct (Hmem m Hm) as [?|?].
      * left. apply elem_of_app. by left.
      * right. destruct Hstep as (Hlen & _). lia.
    + destruct (Hsufmem m Hm) as [->|?].
      * left. apply elem_of_app. right. left.
      * right. destruct Hext as (Hlen & _). lia.
  - intros r0 op Hr0 Hnm. specialize (Hkeep r0 op Hr0 Hnm).
    destruct (lower_op_cases h new r)
      as [[-> _] | [(m & _ & _ & Hm & ->) | (_ & _ & _ & ->)]]; simpl.
    + done.
    + unfold set_depends. rewrite list_lookup_alter_ne; [done|].
      intros ->. unfold Ir.is_marker, inst_of in Hm, Hnm.
      rewrite Hkeep in Hm. rewrite Hr0 in Hnm. congruence.
    + by apply lookup_app_l_Some.
  - intros o d Ho Hns Hd Hb.
    apply elem_of_app in Ho as [Ho|Ho];
      [|apply list_elem_of_singleton in Ho as ->].
    + destruct (Hex o d Ho Hns Hd Hb) as (i & m & Hi & HSi & Hm & Hdm).
      exists i, m. rewrite Hnew. split_and!.
      * by apply lookup_app_l_Some.
      * by apply lookup_app_l_Some.
      * exact (heap_ext_is_marker _ _ _ Hstep Hm).
      * exact (heap_ext_depends _ _ _ _ Hstep Hdm).
    + pose proof (depends_of_elem_lt _ _ _ Hd) as Hlt.
      pose proof (nop_depends_elem _ _ _ _ Hext Hd Hb) as Hnd.
      assert (Hns' : Ir.no_need_sync h r = false)
        by (by rewrite (heap_ext_no_need_sync _ _ _ Hext Hlt)).
      clear Hnew Hsufsub Hsufmem.
      destruct (lower_op_cases h new r)
        as [[_ [Hc|[Hc _]]]
           | [(m & _ & Hlast & Hm & ->) | (_ & _ & _ & ->)]]; simpl.
      * congruence.
      * rewrite Hc in Hnd. by apply elem_of_nil in Hnd.
      * apply last_lookup_pred in Hlast as [Hlast Hpos].
        exists (length new - 1)%nat, m. split_and!.
        -- by apply lookup_app_l_Some.
        -- replace (S (length new - 1)) with (length new) by lia.
           rewrite lookup_app_r by lia. by rewrite Nat.sub_diag.
        -- by rewrite is_marker_set_depends.
        -- rewrite depends_of_set_depends, decide_True.
           ++ apply elem_of_app. by right.
           ++ split; [done | by apply is_marker_lt].
      * exists (length new), (length h). split_and!.
        -- rewrite lookup_app_r by lia. by rewrite Nat.sub_diag.
        -- rewrite lookup_app_r by lia.
           by replace (S (length new) - length new)%nat with 1%nat by lia.
        -- unfold Ir.is_marker, inst_of.
           rewrite lookup_app_r by lia. by rewrite Nat.sub_diag.
        -- unfold depends_of.
           rewrite lookup_app_r by lia. by rewrite Nat.sub_diag.
Qed.

Lemma nop_depends_subseteq h r d :
  d ∈ Ir.nop_depends h r → d ∈ depends_of h r.
Proof. unfold Ir.nop_depends. by intros [_ ?]%list_elem_of_filter. Qed.

Lemma depends_of_app_l (h : list Op.t) x r :
  (r < length h)%nat → depends_of (h ++ [x]) r = depends_of h r.
Proof. intros Hr. unfold depends_of. by rewrite lookup_app_l. Qed.

Lemma depends_of_eq (h h' : list Op.t) r :
  h' !! r = h !! r → depends_of h' r = depends_of h r.
Proof. intros Heq. unfold depends_of. by rewrite Heq. Qed.

(** The same loop when the ops of the threadblock are distinct objects
    of the store: the new list has no repetition, the pass leaves the
    other ops of the store alone, and every dependency of an element of
    the new list was a dependency of that op, or of the op that follows
    it in the new list, before the pass. *)
Lemma lower_ops_distinct h0 rs :
  NoDup rs → (∀ r, r ∈ rs → (r < length h0)%nat) →
  NoDup (Ir.lower_ops h0 rs).2 ∧
  (∀ r, (r < length h0)%nat → r ∉ rs →
     (Ir.lower_ops h0 rs).1 !! r = h0 !! r) ∧
  (∀ k m d,
     (Ir.lower_ops h0 rs).2 !! k = Some m →
     d ∈ depends_of (Ir.lower_ops h0 rs).1 m →
     (m ∈ rs ∧ d ∈ depends_of h0 m) ∨
     (∃ y, (Ir.lower_ops h0 rs).2 !! S k = Some y ∧ y ∈ rs ∧
        d ∈ depends_of h0 y)).
Proof.
  induction rs as [|r rs IH] using rev_ind; intros Hnd Hvalid.
  { unfold Ir.lower_ops. simpl. split_and!; [constructor | done | done]. }
  apply NoDup_app in Hnd as (Hnd & Hdisj & _).
  assert (Hr : r ∉ rs).
  { intros Hin. apply (Hdisj r Hin). left. }
  assert (Hrlt : (r < length h0)%nat).
  { apply Hvalid. apply elem_of_app. right. left. }
  destruct IH as (Hnodup & Hframe & HU);
    [done | intros; apply Hvalid; apply elem_of_app; by left |].
  destruct (lower_ops_inv h0 rs) as (Hext & _ & Hmem & _ & _).
  unfold Ir.lower_ops in *. rewrite foldl_app. simpl.
  destruct (foldl Ir.lower_op (h0, []) rs) as [h new] eqn:Hst.
  simpl in *.
  assert (Hlen : (length h0 ≤ length h)%nat) by apply Hext.
  assert (Hrnew : r ∉ new).
  { intros Hin. destruct (Hmem r Hin) as [?|?]; [done | lia]. }
  assert (Hnewlt : ∀ m, m ∈ new → (m < length h)%nat).
  { intros m Hm. destruct (Hmem m Hm) as [Hin|?]; [|lia].
    assert (m < length h0)%nat; [|lia].
    apply Hvalid. apply elem_of_app. by left. }
  assert (Hrdeps : depends_of h r = depends_of h0 r).
  { apply depends_of_eq. by apply Hframe. }
  assert (Hin_r : r ∈ rs ++ [r]) by (apply elem_of_app; right; left).
  assert (Hin_rs : ∀ y, y ∈ rs → y ∈ rs ++ [r])
    by (intros; apply elem_of_app; by left).
  assert (Hold : ∀ k m d, new !! k = Some m → d ∈ depends_of h m →
            ∀ suf, (m ∈ rs ++ [r] ∧ d ∈ depends_of h0 m) ∨
              (∃ y, (new ++ suf) !! S k = Some y ∧ y ∈ rs ++ [r] ∧
                 d ∈ depends_of h0 y)).
  { intros k m d Hk Hd suf.
    destruct (HU k m d Hk Hd) as [[Hm Hd0]|(y & Hy & Hyrs & Hdy)].
    - left. split; [by apply Hin_rs | done].
    - right. exists y. split_and!; [|by apply Hin_rs|done].
      by apply lookup_app_l_Some. }
  destruct (lower_op_cases h new r)
    as [[-> _] | [(mk & _ & Hlast & Hmk & ->) | (_ & _ & _ & ->)]]; simpl.
  - (* the op is appended *)
    split_and!.
    + apply NoDup_app. split_and!; [done | | apply NoDup_singleton].
      intros x Hx ->%list_elem_of_singleton. done.
    + intros r0 Hr0 Hnot. apply Hframe; [done|].
      intros Hin. apply Hnot. by apply Hin_rs.
    + intros k m d Hk Hd. apply lookup_app_Some in Hk as [Hk|[Hge Hk]].
      * by apply Hold.
      * destruct (k - length new)%nat; [simpl in Hk|done].
        injection Hk as <-. left. split; [done|]. by rewrite <- Hrdeps.
  - (* the dependencies go to the marker before *)
    apply last_lookup_pred in Hlast as [Hlast Hpos].
    assert (Hmknew : mk ∈ new) by (by eapply list_elem_of_lookup_2).
    split_and!.
    + apply NoDup_app. split_and!; [done | | apply NoDup_singleton].
      intros x Hx ->%list_elem_of_singleton. done.
    + intros r0 Hr0 Hnot. unfold set_depends.
      rewrite list_lookup_alter_ne.
      * apply Hframe; [done|]. intros Hin. apply Hnot. by apply Hin_rs.
      * intros <-. destruct (Hmem mk Hmknew) as [Hin|?]; [|lia].
        apply Hnot. by apply Hin_rs.
    + intros k m d Hk Hd. rewrite depends_of_set_depends in Hd.
      apply lookup_app_Some in Hk as [Hk|[Hge Hk]].
      * case_decide as Hc; [|by apply Hold].
        destruct Hc as [-> _].
        assert (k = (length new - 1)%nat) as ->
          by (by eapply NoDup_lookup).
        apply elem_of_app in Hd as [Hd|Hd]; [by apply Hold|].
        right. exists r. split_and!; [|done|].
        -- replace (S (length new - 1)) with (length new) by lia.
           rewrite lookup_app_r by lia. by rewrite Nat.sub_diag.
        -- rewrite <- Hrdeps. by apply nop_depends_subseteq.
      * destruct (k - length new)%nat; [simpl in Hk|done].
        injection Hk as <-. rewrite decide_False in Hd.
        -- left. split; [done|]. by rewrite <- Hrdeps.
        -- intros [-> _]. done.
  - (* a no-op is allocated *)
    split_and!.
    + apply NoDup_app. split_and!; [done | |].
      * intros x Hx [->|Hx']%elem_of_cons.
        -- specialize (Hnewlt _ Hx). lia.
        -- apply list_elem_of_singleton in Hx' as ->. done.
      * apply NoDup_cons. split; [|apply NoDup_singleton].
        intros Heq%list_elem_of_singleton. lia.
    + intros r0 Hr0 Hnot. rewrite lookup_app_l by lia.
      apply Hframe; [done|]. intros Hin. apply Hnot. by apply Hin_rs.
    + intros k m d Hk Hd. apply lookup_app_Some in Hk as [Hk|[Hge Hk]].
      * rewrite depends_of_app_l in Hd
          by (apply Hnewlt; by eapply list_elem_of_lookup_2).
        by apply Hold.
      * destruct (k - length new)%nat as [|[|n]] eqn:Hkn;
          simpl in Hk; [| |done].
        -- injection Hk as <-. right. exists r. split_and!; [|done|].
           ++ rewrite lookup_app_r by lia.
              by replace (S k - length new)%nat with 1%nat by lia.
           ++ unfold depends_of in Hd. rewrite lookup_app_r in Hd by lia.
              rewrite Nat.sub_diag in Hd. simpl in Hd.
              rewrite <- Hrdeps. by apply nop_depends_subseteq.
        -- injection Hk as <-. rewrite depends_of_app_l in Hd by lia.
           left. split; [done|]. by rewrite <- Hrdeps.
Qed.

(** The pass over all threadblocks: every dependency that an op which
    needs a marker lists before the pass, and that is not a dependency on
    a barrier, is afterwards a dependency of the no-op or barrier just
    before the op. *)
Lemma lower_tbs_exists tbs h :
  heap_ext h (map_state lower_tb h tbs).1 ∧
  ∀ t tb o d,
    tbs !! t = Some tb → o ∈ Threadblock.ops tb →
    Ir.no_need_sync h o = false → d ∈ depends_of h o →
    inst_of h d ≠ Some Instruction.barrier →
    ∃ tb' i m,
      (map_state lower_tb h tbs).2 !! t = Some tb' ∧
      Threadblock.id tb' = Threadblock.id tb ∧
      Threadblock.ops tb' !! i = Some m ∧
      Threadblock.ops tb' !! S i = Some o ∧
      Ir.is_marker (map_state lower_tb h tbs).1 m = true ∧
      d ∈ depends_of (map_state lower_tb h tbs).1 m.
Proof.
  revert h. induction tbs as [|tb0 tbs IH]; intros h.
  { simpl. split; [apply heap_ext_preorder | done]. }
  cbn [map_state fst snd]. unfold lower_tb at 1 3 5 6. cbn [fst snd].
  destruct (lower_ops_inv h (Threadblock.ops tb0))
    as (Hext0 & _ & _ & _ & Hex0).
  set (h1 := (Ir.lower_ops h (Threadblock.ops tb0)).1) in *.
  destruct (IH h1) as [Hext1 Hex1].
  assert (Hextall : heap_ext h (map_state lower_tb h1 tbs).1).
  { eapply (@transitivity _ _ (@PreOrder_Transitive _ _ heap_ext_preorder));
      [exact Hext0 | exact Hext1]. }
  split; [exact Hextall|].
  intros [|t] tb o d Htb Ho Hns Hd Hb; simpl in Htb.
  - injection Htb as <-.
    destruct (Hex0 o d Ho Hns Hd Hb) as (i & m & Hi & HSi & Hm & Hdm).
    exists (lower_tb h tb0).2, i, m. unfold lower_tb. simpl.
    split_and!; [done | done | done | done | |].
    + exact (heap_ext_is_marker _ _ _ Hext1 Hm).
    + exact (heap_ext_depends _ _ _ _ Hext1 Hdm).
  - pose proof (depends_of_elem_lt _ _ _ Hd) as Hlt.
    destruct (Hex1 t tb o d Htb Ho) as (tb' & i & m & H1 & H2 & H3 & H4 & H5).
    + by rewrite (heap_ext_no_need_sync _ _ _ Hext0 Hlt).
    + exact (heap_ext_depends _ _ _ _ Hext0 Hd).
    + exact (heap_ext_not_barrier _ _ _ Hext0 Hb).
    + exists tb', i, m. done.
Qed.

Lemma lower_tbs_keep tbs h r op :
  h !! r = Some op → Ir.is_marker h r = false →
  (map_state lower_tb h tbs).1 !! r = Some op.
Proof.
  revert h. induction tbs as [|tb0 tbs IH]; intros h Hr Hm; [done|].
  cbn [map_state fst snd].
  change ((lower_tb h tb0).1) with ((Ir.lower_ops h (Threadblock.ops tb0)).1).
  destruct (lower_ops_inv h (Threadblock.ops tb0)) as (_ & _ & _ & Hkeep & _).
  specialize (Hkeep r op Hr Hm). apply IH; [done|].
  unfold Ir.is_marker, inst_of in Hm |- *. by rewrite Hkeep, <- Hr.
Qed.

Lemma lower_tbs_sublist tbs h t tb' :
  (map_state lower_tb h tbs).2 !! t = Some tb' →
  ∃ tb, tbs !! t = Some tb ∧ Threadblock.id tb' = Threadblock.id tb ∧
    Threadblock.ops tb `sublist_of` Threadblock.ops tb'.
Proof.
  revert h t. induction tbs as [|tb0 tbs IH]; intros h t Ht; [done|].
  cbn [map_state fst snd] in Ht. destruct t as [|t]; simpl in Ht.
  - injection Ht as <-. exists tb0. split_and!; [done | done |].
    unfold lower_tb. simpl. apply lower_ops_inv.
  - by apply IH in Ht.
Qed.

(** The pass over all threadblocks when the ops of the program are
    distinct objects of the store. *)
Lemma lower_tbs_distinct tbs h :
  NoDup (tbs ≫= Threadblock.ops) →
  (∀ r, r ∈ tbs ≫= Threadblock.ops → (r < length h)%nat) →
  (∀ r, (r < length h)%nat → r ∉ tbs ≫= Threadblock.ops →
     (map_state lower_tb h tbs).1 !! r = h !! r) ∧
  (∀ m, m ∈ (map_state lower_tb h tbs).2 ≫= Threadblock.ops →
     m ∈ tbs ≫= Threadblock.ops ∨
     (length h ≤ m < length (map_state lower_tb h tbs).1)%nat) ∧
  NoDup ((map_state lower_tb h tbs).2 ≫= Threadblock.ops) ∧
  (∀ t tb tb' k m d,
     tbs !! t = Some tb → (map_state lower_tb h tbs).2 !! t = Some tb' →
     Threadblock.ops tb' !! k = Some m →
     d ∈ depends_of (map_state lower_tb h tbs).1 m →
     (m ∈ Threadblock.ops tb ∧ d ∈ depends_of h m) ∨
     (∃ y, Threadblock.ops tb' !! S k = Some y ∧ y ∈ Threadblock.ops tb ∧
        d ∈ depends_of h y)).
Proof.
  revert h. induction tbs as [|tb0 tbs IH]; intros h Hnd Hvalid.
  { simpl. split_and!; [done | | constructor | done].
    intros m Hm. by apply elem_of_nil in Hm. }
  rewrite bind_cons in Hnd, Hvalid.
  apply NoDup_app in Hnd as (Hnd0 & Hdisj & Hndrest).
  assert (Hvalid0 : ∀ r, r ∈ Threadblock.ops tb0 → (r < length h)%nat)
    by (intros; apply Hvalid, elem_of_app; by left).
  destruct (lower_ops_inv h (Threadblock.ops tb0))
    as (Hext0 & _ & Hmem0 & _ & _).
  destruct (lower_ops_distinct h (Threadblock.ops tb0) Hnd0 Hvalid0)
    as (Hnodup0 & Hframe0 & HU0).
  cbn [map_state fst snd].
  change ((lower_tb h tb0).1) with ((Ir.lower_ops h (Threadblock.ops tb0)).1).
  change ((lower_tb h tb0).2) with
    (Threadblock.with_ops (Ir.lower_ops h (Threadblock.ops tb0)).2 tb0).
  set (h1 := (Ir.lower_ops h (Threadblock.ops tb0)).1) in *.
  set (new0 := (Ir.lower_ops h (Threadblock.ops tb0)).2) in *.
  assert (Hlen0 : (length h ≤ length h1)%nat) by apply Hext0.
  destruct (IH h1 Hndrest) as (Hframe1 & Hmem1 & Hnodup1 & HU1).
  { intros r Hr. assert (r < length h)%nat; [|lia].
    apply Hvalid, elem_of_app. by right. }
  destruct (lower_tbs_exists tbs h1) as [Hext1 _].
  assert (Hlen1 : (length h1 ≤ length (map_state lower_tb h1 tbs).1)%nat)
    by apply Hext1.
  assert (Hnew0_rest : ∀ m, m ∈ new0 → (m < length h1)%nat ∧
            m ∉ tbs ≫= Threadblock.ops).
  { intros m Hm. destruct (Hmem0 m Hm) as [Hin|Hfresh].
    - split; [specialize (Hvalid0 m Hin); lia | by apply Hdisj].
    - split; [lia|]. intros Hin.
      assert (m < length h)%nat; [|lia].
      apply Hvalid, elem_of_app. by right. }
  split_and!.
  - intros r Hr Hnot. apply not_elem_of_app in Hnot as [Hnot0 Hnot1].
    rewrite Hframe1; [by apply Hframe0 | lia | done].
  - rewrite bind_cons. cbn [Threadblock.ops Threadblock.with_ops].
    intros m [Hm|Hm]%elem_of_app.
    + destruct (Hmem0 m Hm) as [?|?].
      * left. apply elem_of_app. by left.
      * right. lia.
    + destruct (Hmem1 m Hm) as [?|?].
      * left. apply elem_of_app. by right.
      * right. lia.
  - rewrite bind_cons. cbn [Threadblock.ops Threadblock.with_ops].
    apply NoDup_app. split_and!; [done | | done].
    intros m Hm Hm'. destruct (Hnew0_rest m Hm) as [Hlt Hnot].
    destruct (Hmem1 m Hm') as [?|?]; [done | lia].
  - intros [|t] tb tb' k m d Htb Htb' Hk Hd; simpl in Htb, Htb'.
    + injection Htb as <-. injection Htb' as <-.
      cbn [Threadblock.ops Threadblock.with_ops] in Hk |- *.
      apply (HU0 k m d Hk).
      assert (m ∈ new0) as Hm by (by eapply list_elem_of_lookup_2).
      destruct (Hnew0_rest m Hm) as [Hlt Hnot].
      erewrite <- depends_of_eq; [exact Hd|]. by apply Hframe1.
    + assert (Hsame : ∀ y, y ∈ Threadblock.ops tb →
                depends_of h1 y = depends_of h y).
      { intros y Hy.
        assert (y ∈ tbs ≫= Threadblock.ops) as Hyin.
        { apply list_elem_of_bind. exists tb. split; [done|].
          by eapply list_elem_of_lookup_2. }
        apply depends_of_eq, Hframe0.
        - apply Hvalid, elem_of_app. by right.
        - intros Hy0. by apply (Hdisj y Hy0). }
      destruct (HU1 t tb tb' k m d Htb Htb' Hk Hd)
        as [[Hm Hdm]|(y & Hy & Hyin & Hdy)].
      * left. split; [done|]. by rewrite <- Hsame.
      * right. exists y. split_and!; [done | done |]. by rewrite <- Hsame.
Qed.

Lemma length_filter_redundant_fold rs st :
  length (foldl filter_redundant_op st rs).1 = length st.1.
Proof.
  revert st. induction rs as [|r rs IH]; intros st; simpl; [done|].
  rewrite IH. unfold filter_redundant_op. simpl. apply length_set_depends.
Qed.

Lemma length_filter_redundant h p : length (filter_redundant h p) = length h.
Proof.
  unfold filter_redundant. rewrite for_each_tb_flat.
  generalize (tbs_of p) as tbs. intros tbs. revert h.
  induction tbs as [|tb tbs IH]; intros h; simpl; [done|].
  rewrite IH. apply (length_filter_redundant_fold _ (h, [])).
Qed.

(** C1 as stated fails for the instructions that need no marker: the
    dependency of the packet copy on the put survives the
    simplification, and the lowering leaves the threadblock of the copy
    as it is, without any no-op or barrier before the copy. *)
Lemma packet_dependency_unmarked :
  let h := filter_redundant (filter_wait pkt_heap pkt_prog) pkt_prog in
  let hp := Ir.lower_sync h pkt_prog in
  depends_of h 1%nat = [0%nat] ∧
  inst_of h 0%nat = Some Instruction.put ∧
  Threadblock.ops <$> tbs_of hp.2 = [[0%nat]; [1%nat]] ∧
  ¬ (∃ tb' i m,
       tbs_of hp.2 !! 1%nat = Some tb' ∧
       Threadblock.ops tb' !! i = Some m ∧
       Threadblock.ops tb' !! S i = Some 1%nat ∧
       Ir.is_marker hp.1 m = true ∧ 0%nat ∈ depends_of hp.1 m).
Proof.
  cbv zeta. split_and!; [reflexivity | reflexivity | reflexivity |].
  intros (tb' & i & m & Htb' & Hi & HSi & _).
  vm_compute in Htb'. injection Htb' as <-.
  destruct i as [|[|i]]; discriminate.
Qed.

(** C1, amended.  After the synchronization lowering of [ir_to_json],
    for every op of every threadblock whose instruction is not in
    [_insts_no_need_sync_barrier], every dependency that survived the
    simplification and is not a dependency on a barrier is carried by
    the no-op or barrier that comes immediately before the op in the
    final list of its threadblock.  When the ops of the program are
    distinct objects, nothing else in that list carries it but the op
    itself: it is carried by exactly one marker. *)
Theorem sync_markers (h1 : list Op.t) (p : Program.t) :
  let h := filter_redundant h1 p in
  let hp := Ir.lower_sync h p in
  ∀ t tb o d,
    tbs_of p !! t = Some tb → o ∈ Threadblock.ops tb →
    Ir.no_need_sync h o = false →
    d ∈ depends_of h o → inst_of h d ≠ Some Instruction.barrier →
    ∃ tb' i m,
      tbs_of hp.2 !! t = Some tb' ∧
      Threadblock.id tb' = Threadblock.id tb ∧
      Threadblock.ops tb' !! i = Some m ∧
      Threadblock.ops tb' !! S i = Some o ∧
      Ir.is_marker hp.1 m = true ∧
      d ∈ depends_of hp.1 m ∧
      (NoDup (all_ops p) → (∀ r, r ∈ all_ops p → (r < length h1)%nat) →
       ∀ k m', Threadblock.ops tb' !! k = Some m' →
         d ∈ depends_of hp.1 m' → k = i ∨ m' = o).
Proof.
  intros h hp t tb o d Htb Ho Hns Hd Hb. subst hp.
  destruct (lower_sync_flat h p) as [-> ->].
  destruct (lower_tbs_exists (tbs_of p) h) as [_ Hex].
  destruct (Hex t tb o d Htb Ho Hns Hd Hb)
    as (tb' & i & m & Htb' & Hid & Hi & HSi & Hm & Hdm).
  exists tb', i, m. split_and!; [done..|].
  intros Hnd Hvalid k m' Hk Hdm'.
  assert (Hvalid' : ∀ r, r ∈ tbs_of p ≫= Threadblock.ops →
            (r < length h)%nat).
  { intros r Hr. subst h. rewrite length_filter_redundant.
    by apply Hvalid. }
  destruct (lower_tbs_distinct (tbs_of p) h Hnd Hvalid')
    as (_ & _ & Hnodup & HU).
  assert (Hnd' : NoDup (Threadblock.ops tb')).
  { apply list_elem_of_lookup_2, list_elem_of_split in Htb'
      as (l1 & l2 & Heq).
    rewrite Heq, bind_app, bind_cons in Hnodup.
    apply NoDup_app in Hnodup as (_ & _ & Hnodup).
    by apply NoDup_app in Hnodup as (Hnodup & _ & _). }
  assert (Hsame : ∀ y, y ∈ Threadblock.ops tb → d ∈ depends_of h y → y = o).
  { intros y Hy Hdy.
    apply list_elem_of_lookup_1 in Hy as [iy Hiy].
    apply list_elem_of_lookup_1 in Ho as [io Hio].
    assert (tb ∈ tbs_of p) as Htbin by (by eapply list_elem_of_lookup_2).
    pose proof (filter_redundant_disjoint h1 p) as Hdisj.
    fold h in Hdisj.
    destruct (lt_eq_lt_dec iy io) as [[Hlt|Heq]|Hgt].
    - exfalso. by apply (Hdisj tb iy io y o d Htbin Hlt Hiy Hio Hd).
    - subst iy. congruence.
    - exfalso. by apply (Hdisj tb io iy o y d Htbin Hgt Hio Hiy Hdy). }
  destruct (HU t tb tb' k m' d Htb Htb' Hk Hdm')
    as [[Hm' Hdm0]|(y & Hy & Hyin & Hdy)].
  - right. by apply Hsame.
  - left. apply Hsame in Hdy as ->; [|done].
    assert (S k = S i) by (by eapply NoDup_lookup). lia.
Qed.

(** The amended statement at the first sample, where the signal depends
    on the put before it: the no-op inserted before the signal carries
    the dependency. *)
Lemma sync_markers_witness :
  let h := filter_redundant (filter_wait ex_heap ex_prog) ex_prog in
  let hp := Ir.lower_sync h ex_prog in
  ∃ tb' i m,
    tbs_of hp.2 !! 0%nat = Some tb' ∧
    Threadblock.ops tb' !! i = Some m ∧
    Threadblock.ops tb' !! S i = Some 1%nat ∧
    Ir.is_marker hp.1 m = true ∧
    0%nat ∈ depends_of hp.1 m ∧
    ∀ k m', Threadblock.ops tb' !! k = Some m' →
      0%nat ∈ depends_of hp.1 m' → k = i ∨ m' = 1%nat.
Proof.
  cbv zeta.
  destruct (sync_markers (filter_wait ex_heap ex_prog) ex_prog 0%nat
              (Threadblock.mk 0 [0%nat; 1%nat]
                 [Channel.mk Buffer.input Buffer.scratch ChannelType.sm
                    (ToRank 1)] 0)
              1%nat 0%nat)
    as (tb' & i & m & H1 & _ & H3 & H4 & H5 & H6 & H7).
  - reflexivity.
  - right. left.
  - reflexivity.
  - left.
  - discriminate.
  - exists tb', i, m. split_and!; [done..|].
    apply H7.
    + apply (bool_decide_unpack _). by vm_compute.
    + intros r Hr. apply (bool_decide_unpack _).
      repeat (apply elem_of_cons in Hr as [->|Hr]; [by vm_compute|]).
      by apply elem_of_nil in Hr.
Defined.

(** ** Renumbering *)

Lemma renumber_ops_length tbid i h rs :
  length (renumber_ops tbid i h rs) = length h.
Proof.
  revert i h. induction rs as [|r rs IH]; intros i h; simpl; [done|].
  by rewrite IH, length_alter.
Qed.

Lemma renumber_ops_frame tbid i h rs r :
  r ∉ rs → renumber_ops tbid i h rs !! r = h !! r.
Proof.
  revert i h. induction rs as [|x rs IH]; intros i h Hr; simpl; [done|].
  apply not_elem_of_cons in Hr as [Hne Hr].
  rewrite IH by done. by apply list_lookup_alter_ne.
Qed.

(** Renumbering changes steps and threadblock ids only. *)
Lemma renumber_ops_lookup tbid i h rs r :
  ∃ s t, renumber_ops tbid i h rs !! r = Op.with_step_tb s t <$> h !! r.
Proof.
  revert i h. induction rs as [|x rs IH]; intros i h; simpl.
  - exists (default 0 (Op.step <$> h !! r)), (default 0 (Op.tb <$> h !! r)).
    destruct (h !! r) as [[]|]; done.
  - destruct (IH (S i) (alter (Op.with_step_tb (Z.of_nat i) tbid) x h))
      as (s & t & ->).
    exists s, t. destruct (decide (x = r)) as [->|Hne].
    + rewrite list_lookup_alter_eq. by destruct (h !! r).
    + by rewrite list_lookup_alter_ne.
Qed.

Lemma renumber_ops_steps tbid i h rs k r :
  NoDup rs → (∀ x, x ∈ rs → (x < length h)%nat) →
  rs !! k = Some r →
  ∃ op, renumber_ops tbid i h rs !! r = Some op ∧
    Op.step op = Z.of_nat (i + k) ∧ Op.tb op = tbid.
Proof.
  revert i h k. induction rs as [|x rs IH]; intros i h k Hnd Hvalid Hk;
    [done|].
  apply NoDup_cons in Hnd as [Hx Hnd]. simpl.
  destruct k as [|k]; simpl in Hk.
  - injection Hk as ->. rewrite renumber_ops_frame by done.
    rewrite list_lookup_alter_eq.
    destruct (lookup_lt_is_Some_2 h r) as [op Hop]; [apply Hvalid; left|].
    rewrite Hop. simpl. eexists. split; [done|]. simpl. split; [|done].
    by rewrite Nat.add_0_r.
  - destruct (IH (S i) (alter (Op.with_step_tb (Z.of_nat i) tbid) x h) k)
      as (op & Hop & Hstep & Htb); [done | | done |].
    + intros y Hy. rewrite length_alter. apply Hvalid. by right.
    + exists op. split_and!; [done | | done].
      rewrite Hstep. f_equal. lia.
Qed.

Lemma renumber_tbs_length tbs h :
  length (foldl renumber_tb h tbs) = length h.
Proof.
  revert h. induction tbs as [|tb tbs IH]; intros h; simpl; [done|].
  rewrite IH. apply renumber_ops_length.
Qed.

Lemma renumber_tbs_frame tbs h r :
  r ∉ tbs ≫= Threadblock.ops → foldl renumber_tb h tbs !! r = h !! r.
Proof.
  revert h. induction tbs as [|tb tbs IH]; intros h Hr; simpl; [done|].
  rewrite bind_cons in Hr. apply not_elem_of_app in Hr as [Hr0 Hr1].
  rewrite IH by done. by apply renumber_ops_frame.
Qed.

Lemma renumber_tbs_lookup tbs h r :
  ∃ s t, foldl renumber_tb h tbs !! r = Op.with_step_tb s t <$> h !! r.
Proof.
  revert h. induction tbs as [|tb tbs IH]; intros h; simpl.
  - exists (default 0 (Op.step <$> h !! r)), (default 0 (Op.tb <$> h !! r)).
    destruct (h !! r) as [[]|]; done.
  - destruct (IH (renumber_tb h tb)) as (s & t & ->).
    destruct (renumber_ops_lookup (Threadblock.id tb) 0 h
                (Threadblock.ops tb) r) as (s' & t' & Hr).
    unfold renumber_tb. rewrite Hr. exists s, t. by destruct (h !! r).
Qed.

Lemma renumber_depends_of h p r :
  depends_of (renumber h p) r = depends_of h r.
Proof.
  unfold renumber. rewrite for_each_tb_flat.
  destruct (renumber_tbs_lookup (tbs_of p) h r) as (s & t & Hr).
  unfold depends_of. rewrite Hr. by destruct (h !! r).
Qed.

(** After the renumbering every op has as step its position in its
    threadblock and as [tb] the id of the threadblock, when the
    threadblocks hold distinct ops. *)
Lemma renumber_steps tbs h tb k r :
  NoDup (tbs ≫= Threadblock.ops) →
  (∀ x, x ∈ tbs ≫= Threadblock.ops → (x < length h)%nat) →
  tb ∈ tbs → Threadblock.ops tb !! k = Some r →
  ∃ op, foldl renumber_tb h tbs !! r = Some op ∧
    Op.step op = Z.of_nat k ∧ Op.tb op = Threadblock.id tb.
Proof.
  intros Hnd Hvalid Htb Hk.
  apply list_elem_of_split in Htb as (l1 & l2 & ->).
  rewrite bind_app, bind_cons in Hnd, Hvalid.
  apply NoDup_app in Hnd as (_ & _ & Hnd).
  apply NoDup_app in Hnd as (Hndtb & Hdisj & _).
  rewrite foldl_app. simpl.
  assert (r ∈ Threadblock.ops tb) as Hr by (by eapply list_elem_of_lookup_2).
  rewrite renumber_tbs_frame by (intros Hin; by apply (Hdisj r Hr)).
  unfold renumber_tb.
  destruct (renumber_ops_steps (Threadblock.id tb) 0 (foldl renumber_tb h l1)
              (Threadblock.ops tb) k r Hndtb) as (op & Hop & Hs & Ht);
    [|done|by exists op].
  intros x Hx. rewrite renumber_tbs_length. apply Hvalid.
  apply elem_of_app. right. apply elem_of_app. by left.
Qed.

(** A sublist keeps the order of its elements. *)
Lemma sublist_lookup_order {A} (l1 l2 : list A) i j a b :
  l1 `sublist_of` l2 → (i < j)%nat →
  l1 !! i = Some a → l1 !! j = Some b →
  ∃ ka kb, (ka < kb)%nat ∧ l2 !! ka = Some a ∧ l2 !! kb = Some b.
Proof.
  intros Hsub. revert i j.
  induction Hsub as [|x l1 l2 Hsub IH|x l1 l2 Hsub IH]; intros i j Hij Hi Hj.
  - done.
  - destruct j as [|j]; [lia|]. simpl in Hj. destruct i as [|i]; simpl in Hi.
    + injection Hi as ->.
      assert (b ∈ l2) as [kb Hkb]%list_elem_of_lookup_1.
      { eapply elem_of_sublist; [|exact Hsub].
        by eapply list_elem_of_lookup_2. }
      exists 0%nat, (S kb). split_and!; [lia | done | done].
    + destruct (IH i j) as (ka & kb & Hk & Hka & Hkb); [lia | done | done |].
      exists (S ka), (S kb). split_and!; [lia | done | done].
  - destruct (IH i j Hij Hi Hj) as (ka & kb & Hk & Hka & Hkb).
    exists (S ka), (S kb). split_and!; [lia | done | done].
Qed.

(** ** The passes on the dependencies, in order *)

Lemma drop_signal_deps_shrink h r : deps_shrink h (drop_signal_deps h r).
Proof.
  intros r'. unfold drop_signal_deps. case_bool_decide; [|reflexivity].
  rewrite depends_of_set_depends. case_decide as Hc; [|reflexivity].
  destruct Hc as [-> _]. apply sublist_filter.
Qed.

Lemma drop_signal_deps_inst h r r' :
  inst_of (drop_signal_deps h r) r' = inst_of h r'.
Proof.
  unfold drop_signal_deps. case_bool_decide; [|done].
  apply inst_of_set_depends.
Qed.

Lemma drop_signal_deps_length h r : length (drop_signal_deps h r) = length h.
Proof.
  unfold drop_signal_deps. case_bool_decide; [|done].
  apply length_set_depends.
Qed.

Lemma filter_wait_facts h p :
  deps_shrink h (filter_wait h p) ∧
  (∀ r, inst_of (filter_wait h p) r = inst_of h r) ∧
  length (filter_wait h p) = length h.
Proof.
  unfold filter_wait. rewrite for_each_tb_flat.
  generalize (tbs_of p) as tbs. intros tbs. revert h.
  assert (Hops : ∀ rs h,
    deps_shrink h (foldl drop_signal_deps h rs) ∧
    (∀ r, inst_of (foldl drop_signal_deps h rs) r = inst_of h r) ∧
    length (foldl drop_signal_deps h rs) = length h).
  { induction rs as [|r rs IH]; intros h; simpl.
    - split_and!; [apply deps_shrink_preorder | done | done].
    - destruct (IH (drop_signal_deps h r)) as (Hs & Hi & Hl). split_and!.
      + eapply (@transitivity _ _
                  (@PreOrder_Transitive _ _ deps_shrink_preorder));
          [apply drop_signal_deps_shrink | exact Hs].
      + intros r'. by rewrite Hi, drop_signal_deps_inst.
      + by rewrite Hl, drop_signal_deps_length. }
  induction tbs as [|tb tbs IH]; intros h; simpl.
  - split_and!; [apply deps_shrink_preorder | done | done].
  - destruct (IH (filter_wait_tb h tb)) as (Hs & Hi & Hl).
    destruct (Hops (Threadblock.ops tb) h) as (Hs0 & Hi0 & Hl0).
    unfold filter_wait_tb in *. split_and!.
    + eapply (@transitivity _ _
                (@PreOrder_Transitive _ _ deps_shrink_preorder));
        [exact Hs0 | exact Hs].
    + intros r'. by rewrite Hi, Hi0.
    + by rewrite Hl, Hl0.
Qed.

Lemma filter_redundant_inst h p r :
  inst_of (filter_redundant h p) r = inst_of h r.
Proof.
  unfold filter_redundant. rewrite for_each_tb_flat.
  generalize (tbs_of p) as tbs. intros tbs. revert h.
  assert (Hops : ∀ rs st,
    inst_of (foldl filter_redundant_op st rs).1 r = inst_of st.1 r).
  { induction rs as [|x rs IH]; intros st; simpl; [done|].
    rewrite IH. unfold filter_redundant_op. simpl.
    apply inst_of_set_depends. }
  induction tbs as [|tb tbs IH]; intros h; simpl; [done|].
  rewrite IH. apply (Hops _ (h, [])).
Qed.

(** C8 as stated fails.  In the first sample the put of threadblock 0
    depends on the second op of threadblock 1: after the passes the put
    has step 1 and so has the op it depends on, and the no-op inserted
    for it has step 0 and depends on that op of step 1.  In the second
    sample an op lists itself as a dependency, and still does after the
    passes. *)
Lemma dependency_not_backward :
  let hp := Ir.lower_deps cross_heap cross_prog in
  let hs := Ir.lower_deps self_heap self_prog in
  (depends_of hp.1 0%nat = [2%nat] ∧
   Op.step <$> hp.1 !! 0%nat = Some 1 ∧
   Op.step <$> hp.1 !! 2%nat = Some 1 ∧
   Threadblock.ops <$> tbs_of hp.2 = [[3%nat; 0%nat]; [1%nat; 2%nat]] ∧
   depends_of hp.1 3%nat = [2%nat] ∧
   Op.step <$> hp.1 !! 3%nat = Some 0) ∧
  0%nat ∈ depends_of hs.1 0%nat ∧
  ¬ (∀ r d opr opd,
       d ∈ depends_of hp.1 r → hp.1 !! r = Some opr → hp.1 !! d = Some opd →
       Op.step opd < Op.step opr).
Proof.
  cbv zeta. split; [|split].
  - split_and!; vm_compute; reflexivity.
  - vm_compute. left.
  - intros Hall.
    assert (Hd : 2%nat ∈ depends_of (Ir.lower_deps cross_heap cross_prog).1
                   0%nat) by (vm_compute; left).
    destruct ((Ir.lower_deps cross_heap cross_prog).1 !! 0%nat)
      as [opr|] eqn:Hr; [|by vm_compute in Hr].
    destruct ((Ir.lower_deps cross_heap cross_prog).1 !! 2%nat)
      as [opd|] eqn:Hdd; [|by vm_compute in Hdd].
    specialize (Hall 0%nat 2%nat opr opd Hd Hr Hdd).
    vm_compute in Hr, Hdd. injection Hr as <-. injection Hdd as <-.
    by vm_compute in Hall.
Qed.

(** C8, amended.  When the ops of the program are distinct objects:
    after the simplification, the lowering and the renumbering (1) every
    op of the final list of a threadblock has as step its position in
    that list and as [tb] the id of the threadblock; (2) the passes add
    no dependency to an op other than a no-op or a barrier: it keeps a
    sublist of its dependencies; (3) the ops of a threadblock of the
    input keep their order: of two of them the earlier has the strictly
    smaller step; (4) so every dependency that an op has after the
    passes on an op that precedes it in its threadblock in the input
    resolves to an op of strictly smaller step.  The passes compare no
    steps: for the other dependencies (on an op of another threadblock,
    on the op itself, of an inserted no-op) the samples above show an
    equal step, a later step and a self-dependency after the passes. *)
Theorem dependency_steps (h : list Op.t) (p : Program.t) :
  NoDup (all_ops p) → (∀ r, r ∈ all_ops p → (r < length h)%nat) →
  let hp := Ir.lower_deps h p in
  (∀ tb' k r,
     tb' ∈ tbs_of hp.2 → Threadblock.ops tb' !! k = Some r →
     ∃ op, hp.1 !! r = Some op ∧ Op.step op = Z.of_nat k ∧
       Op.tb op = Threadblock.id tb') ∧
  (∀ r op,
     h !! r = Some op → Op.inst op ≠ Instruction.nop →
     Op.inst op ≠ Instruction.barrier →
     depends_of hp.1 r `sublist_of` depends_of h r) ∧
  (∀ tb i j a b,
     tb ∈ tbs_of p → (i < j)%nat →
     Threadblock.ops tb !! i = Some a → Threadblock.ops tb !! j = Some b →
     ∃ opa opb, hp.1 !! a = Some opa ∧ hp.1 !! b = Some opb ∧
       Op.step opa < Op.step opb) ∧
  (∀ tb i j a b,
     tb ∈ tbs_of p → (i < j)%nat →
     Threadblock.ops tb !! i = Some a → Threadblock.ops tb !! j = Some b →
     a ∈ depends_of hp.1 b →
     ∃ opa opb, hp.1 !! a = Some opa ∧ hp.1 !! b = Some opb ∧
       Op.step opa < Op.step opb).
Proof.
  intros Hnd Hvalid hp. subst hp. unfold Ir.lower_deps. cbn [fst snd].
  destruct (filter_wait_facts h p) as (Hsh1 & Hinst1 & Hlen1).
  set (h1 := filter_wait h p) in *.
  pose proof (filter_redundant_shrink h1 p) as Hsh2.
  pose proof (length_filter_redundant h1 p) as Hlen2.
  pose proof (filter_redundant_inst h1 p) as Hinst2.
  set (h2 := filter_redundant h1 p) in *.
  destruct (lower_sync_flat h2 p) as [Hl1 Hl2].
  assert (Hvalid2 : ∀ r, r ∈ tbs_of p ≫= Threadblock.ops →
            (r < length h2)%nat).
  { intros r Hr. rewrite Hlen2, Hlen1. by apply Hvalid. }
  destruct (lower_tbs_distinct (tbs_of p) h2 Hnd Hvalid2)
    as (_ & Hmem & Hnodup & _).
  destruct (lower_tbs_exists (tbs_of p) h2) as [Hext _].
  rewrite <- Hl1, <- Hl2 in Hmem. rewrite <- Hl2 in Hnodup.
  rewrite <- Hl1 in Hext.
  set (h3 := (Ir.lower_sync h2 p).1) in *.
  set (p3 := (Ir.lower_sync h2 p).2) in *.
  assert (Hvalid3 : ∀ x, x ∈ tbs_of p3 ≫= Threadblock.ops →
            (x < length h3)%nat).
  { intros x Hx. destruct (Hmem x Hx) as [Hin|?]; [|lia].
    specialize (Hvalid2 x Hin). destruct Hext as (Hlen & _). lia. }
  assert (Hsteps : ∀ tb' k r,
     tb' ∈ tbs_of p3 → Threadblock.ops tb' !! k = Some r →
     ∃ op, renumber h3 p3 !! r = Some op ∧ Op.step op = Z.of_nat k ∧
       Op.tb op = Threadblock.id tb').
  { intros tb' k r Htb' Hk. unfold renumber. rewrite for_each_tb_flat.
    by apply renumber_steps. }
  assert (Horder : ∀ tb i j a b,
     tb ∈ tbs_of p → (i < j)%nat →
     Threadblock.ops tb !! i = Some a → Threadblock.ops tb !! j = Some b →
     ∃ opa opb, renumber h3 p3 !! a = Some opa ∧
       renumber h3 p3 !! b = Some opb ∧ Op.step opa < Op.step opb).
  { intros tb i j a b Htb Hij Ha Hb.
    apply list_elem_of_lookup_1 in Htb as [t Ht].
    destruct (lookup_lt_is_Some_2 (tbs_of p3) t) as [tb' Htb'].
    { rewrite Hl2, map_state_length. by eapply lookup_lt_Some. }
    pose proof Htb' as Hsub. rewrite Hl2 in Hsub.
    apply lower_tbs_sublist in Hsub as (tb0 & Htb0 & _ & Hsub).
    assert (tb0 = tb) as -> by congruence.
    destruct (sublist_lookup_order _ _ _ _ _ _ Hsub Hij Ha Hb)
      as (ka & kb & Hk & Hka & Hkb).
    assert (tb' ∈ tbs_of p3) as Hin by (by eapply list_elem_of_lookup_2).
    destruct (Hsteps tb' ka a Hin Hka) as (opa & Hopa & Hsa & _).
    destruct (Hsteps tb' kb b Hin Hkb) as (opb & Hopb & Hsb & _).
    exists opa, opb. split_and!; [done | done | lia]. }
  split_and!.
  - exact Hsteps.
  - intros r op Hr Hnop Hbar. rewrite renumber_depends_of.
    assert (Hm2 : Ir.is_marker h2 r = false).
    { unfold Ir.is_marker. rewrite Hinst2, Hinst1. unfold inst_of.
      rewrite Hr. simpl. rewrite !bool_decide_eq_false_2; [done|..];
        congruence. }
    assert (is_Some (h2 !! r)) as [op2 Hop2].
    { apply lookup_lt_is_Some. rewrite Hlen2, Hlen1.
      by eapply lookup_lt_Some. }
    pose proof (lower_tbs_keep (tbs_of p) h2 r op2 Hop2 Hm2) as Hkeep.
    rewrite <- Hl1 in Hkeep. fold h3 in Hkeep.
    rewrite (depends_of_eq h2 h3 r) by (by rewrite Hkeep, Hop2).
    etrans; [apply Hsh2 | apply Hsh1].
  - exact Horder.
  - intros tb i j a b Htb Hij Ha Hb _. by apply (Horder tb i j).
Qed.

(** The amended statement at the first sample: after the passes the
    signal still depends on the put, which precedes it in its
    threadblock; the put has the smaller step. *)
Lemma dependency_steps_witness :
  NoDup (all_ops ex_prog) ∧
  0%nat ∈ depends_of (Ir.lower_deps ex_heap ex_prog).1 1%nat ∧
  ∃ opa opb,
    (Ir.lower_deps ex_heap ex_prog).1 !! 0%nat = Some opa ∧
    (Ir.lower_deps ex_heap ex_prog).1 !! 1%nat = Some opb ∧
    Op.step opa < Op.step opb.
Proof.
  assert (Hnd : NoDup (all_ops ex_prog))
    by (apply (bool_decide_unpack _); by vm_compute).
  assert (Hvalid : ∀ r, r ∈ all_ops ex_prog → (r < length ex_heap)%nat).
  { intros r Hr. apply (bool_decide_unpack _).
    repeat (apply elem_of_cons in Hr as [->|Hr]; [by vm_compute|]).
    by apply elem_of_nil in Hr. }
  assert (Hdep : 0%nat ∈ depends_of (Ir.lower_deps ex_heap ex_prog).1 1%nat)
    by (vm_compute; left).
  assert (Htb : Threadblock.mk 0 [0%nat; 1%nat]
                  [Channel.mk Buffer.input Buffer.scratch ChannelType.sm
                     (ToRank 1)] 0 ∈ tbs_of ex_prog) by left.
  assert (Hij : (0 < 1)%nat) by lia.
  split; [exact Hnd|]. split; [exact Hdep|].
  exact (proj2 (proj2 (proj2 (dependency_steps ex_heap ex_prog Hnd Hvalid)))
           _ 0%nat 1%nat 0%nat 1%nat Htb Hij eq_refl eq_refl Hdep).
Defined.

(** * Further properties of the passes and of the serializer *)

(** ** The pass on the dependencies of [wait] ops *)

Lemma foldl_bind_ops {S} (f : S → nat → S) (tbs : list Threadblock.t) (s : S) :
  foldl (λ s tb, foldl f s (Threadblock.ops tb)) s tbs =
  foldl f s (tbs ≫= Threadblock.ops).
Proof.
  revert s. induction tbs as [|tb tbs IH]; intros s; [done|].
  rewrite bind_cons, foldl_app. simpl. apply IH.
Qed.

Lemma filter_wait_flat h p :
  filter_wait h p = foldl drop_signal_deps h (all_ops p).
Proof.
  unfold filter_wait. rewrite for_each_tb_flat. unfold filter_wait_tb, all_ops.
  apply foldl_bind_ops.
Qed.

Lemma drop_signal_deps_depends h r r' :
  depends_of (drop_signal_deps h r) r' =
    if decide (r' = r ∧ inst_of h r = Some Instruction.wait)
    then filter (λ dep, inst_of h dep ≠ Some Instruction.signal)
           (depends_of h r)
    else depends_of h r'.
Proof.
  unfold drop_signal_deps. case_bool_decide as Hw.
  - rewrite depends_of_set_depends.
    assert (r < length h)%nat as Hlt.
    { unfold inst_of in Hw. destruct (h !! r) eqn:Hr; [|done].
      by eapply lookup_lt_Some. }
    destruct (decide (r' = r ∧ (r < length h)%nat)) as [[-> _]|Hn];
      destruct (decide (_ ∧ inst_of h r = Some Instruction.wait))
        as [[He _]|Hn']; try done.
    + exfalso. by apply Hn'.
    + subst r'. exfalso. by apply Hn.
  - destruct (decide (_ ∧ inst_of h r = Some Instruction.wait))
      as [[_ He]|Hn']; done.
Qed.

Lemma drop_signal_fold_depends rs h r :
  depends_of (foldl drop_signal_deps h rs) r =
    if decide (r ∈ rs ∧ inst_of h r = Some Instruction.wait)
    then filter (λ dep, inst_of h dep ≠ Some Instruction.signal)
           (depends_of h r)
    else depends_of h r.
Proof.
  revert h. induction rs as [|x rs IH]; intros h; cbn [foldl].
  { rewrite decide_False; [done|]. intros [Hin _]. by apply elem_of_nil in Hin. }
  rewrite IH.
  rewrite (list_filter_iff
             (λ dep, inst_of (drop_signal_deps h x) dep
                     ≠ Some Instruction.signal)
             (λ dep, inst_of h dep ≠ Some Instruction.signal))
    by (intros d; by rewrite drop_signal_deps_inst).
  rewrite drop_signal_deps_inst, drop_signal_deps_depends.
  destruct (decide (r = x ∧ inst_of h x = Some Instruction.wait))
    as [[-> Hw]|Hn].
  - rewrite (decide_True (P := x ∈ x :: rs ∧ _)) by (split; [left | done]).
    destruct (decide (x ∈ rs ∧ inst_of h x = Some Instruction.wait)); [|done].
    rewrite list_filter_filter. apply list_filter_iff. intros d. tauto.
  - destruct (decide (r ∈ rs ∧ inst_of h r = Some Instruction.wait))
      as [[Hin Hw]|Hn'].
    + by rewrite decide_True by (split; [by right | done]).
    + rewrite decide_False; [done|]. intros [Hin Hw].
      apply elem_of_cons in Hin as [->|Hin]; [by apply Hn | by apply Hn'].
Qed.

(** X1. The pass "Remove the dependencies of wait after signal" (both
    source files): every op keeps its instruction; a [wait] op that a
    threadblock of the program lists ends with its dependencies that are
    not [signal] ops, in their order, so that no such op depends on a
    [signal] any more; every other op of the store keeps its dependency
    list, whether or not it depends on a [signal]. *)
Theorem filter_wait_drops_signals (h : list Op.t) (p : Program.t) :
  (∀ r, inst_of (filter_wait h p) r = inst_of h r) ∧
  (∀ r, r ∈ all_ops p → inst_of h r = Some Instruction.wait →
     depends_of (filter_wait h p) r =
       filter (λ dep, inst_of h dep ≠ Some Instruction.signal)
         (depends_of h r) ∧
     ∀ d, d ∈ depends_of (filter_wait h p) r →
       inst_of (filter_wait h p) d ≠ Some Instruction.signal) ∧
  (∀ r, r ∉ all_ops p ∨ inst_of h r ≠ Some Instruction.wait →
     depends_of (filter_wait h p) r = depends_of h r).
Proof.
  split_and!.
  - apply filter_wait_facts.
  - intros r Hin Hw.
    assert (Heq : depends_of (filter_wait h p) r =
              filter (λ dep, inst_of h dep ≠ Some Instruction.signal)
                (depends_of h r)).
    { rewrite filter_wait_flat, drop_signal_fold_depends.
      by rewrite decide_True. }
    split; [exact Heq|]. intros d Hd. rewrite Heq in Hd.
    apply list_elem_of_filter in Hd as [Hd _].
    by rewrite (proj1 (proj2 (filter_wait_facts h p))).
  - intros r Hr. rewrite filter_wait_flat, drop_signal_fold_depends.
    rewrite decide_False; [done|]. intros [Hin Hw]. by destruct Hr.
Qed.

(** In the first sample the wait of device 1 depends on the signal of
    device 0 only: it ends without dependency. *)
Lemma filter_wait_drops_signals_witness :
  depends_of (filter_wait ex_heap ex_prog) 2%nat = [] ∧
  depends_of (filter_wait ex_heap ex_prog) 1%nat = [0%nat].
Proof.
  assert (Hin : 2%nat ∈ all_ops ex_prog)
    by (apply (bool_decide_unpack _); by vm_compute).
  assert (Hw : inst_of ex_heap 2%nat = Some Instruction.wait) by reflexivity.
  assert (Hn : 1%nat ∉ all_ops ex_prog ∨
               inst_of ex_heap 1%nat ≠ Some Instruction.wait)
    by (right; discriminate).
  destruct (filter_wait_drops_signals ex_heap ex_prog) as (_ & H1 & H2).
  split.
  - exact (proj1 (H1 2%nat Hin Hw)).
  - exact (H2 1%nat Hn).
Defined.

(** ** A program without devices *)

(** X2. On a program that has no device, [dump_to_json] of
    [mscclpp/ir.py] raises ([max] of an empty sequence), and so does its
    [ir_to_json], whatever the protocol; [ir_to_json] of the older
    [ir_mscclpp.py], which takes no maximum, returns the document with an
    empty list of devices. *)
Theorem no_devices `{Types} (h : list Op.t) (p : Program.t) :
  Program.gpus p = [] →
  Ir.dump_to_json h p = None ∧
  Ir.ir_to_json h p = None ∧
  IrMscclpp.ir_to_json h p =
    Some (JDict [("name", JStr (Program.name p));
                 ("colletive", JStr (Program.collective p));
                 ("protocol", JStr (Program.protocol p));
                 ("inplace", JBool (Program.inplace p));
                 ("gpus", JList [])]).
Proof.
  intros Hg. split_and!.
  - unfold Ir.dump_to_json. by rewrite Hg.
  - unfold Ir.ir_to_json, infer_buffer_sizes, Ir.unify_scratch,
      alloc_channels.
    rewrite Hg. cbn. case_bool_decide; reflexivity.
  - unfold IrMscclpp.ir_to_json, infer_buffer_sizes, alloc_channels,
      IrMscclpp.lower_deps, IrMscclpp.expand_nops.
    destruct p. simpl in Hg. subst. cbn. case_bool_decide; reflexivity.
Qed.

Lemma no_devices_witness :
  Ir.ir_to_json [] (sample_program "LL" []) = None ∧
  is_Some (IrMscclpp.ir_to_json [] (sample_program "LL" [])).
Proof.
  destruct (no_devices [] (sample_program "LL" []) eq_refl) as (_ & H1 & H2).
  split; [exact H1 | by rewrite H2].
Defined.

(** ** Ops and their records *)

Lemma renumber_flat h p : renumber h p = foldl renumber_tb h (tbs_of p).
Proof. unfold renumber. apply for_each_tb_flat. Qed.

(** X3. The dictionary of a no-op after the renumbering, for a program
    whose ops are distinct objects: the entry of ["deps"] for a
    dependency that is the [k]-th op of the final list of a threadblock
    is [{"tb": id of that threadblock, "step": k}]; the entry for a
    dependency that no threadblock lists shows the [tb] and [step] that
    the op had before the pass. *)
Theorem nop_record_targets `{Types} (h : list Op.t) (p : Program.t)
    (op : Op.t) :
  NoDup (all_ops p) → (∀ r, r ∈ all_ops p → (r < length h)%nat) →
  let deps :=
    json_items (default JNull
      (json_get "deps" (JDict (nop_instr (renumber h p) op)))) in
  length deps = length (Op.depends op) ∧
  (∀ i d tb k,
     Op.depends op !! i = Some d →
     tb ∈ tbs_of p → Threadblock.ops tb !! k = Some d →
     deps !! i = Some (JDict [("tb", JInt (Threadblock.id tb));
                              ("step", JInt (Z.of_nat k))])) ∧
  (∀ i d,
     Op.depends op !! i = Some d → d ∉ all_ops p →
     deps !! i = Some (JDict [("tb", opt_json JInt (Op.tb <$> h !! d));
                              ("step", opt_json JInt (Op.step <$> h !! d))])).
Proof.
  intros Hnd Hvalid deps. subst deps. unfold nop_instr.
  change (json_get "deps" (JDict ?l)) with (dict_get "deps" l).
  cbn [dict_get]. rewrite decide_False by done. rewrite decide_True by done.
  cbn [default from_option id json_items]. split_and!.
  - by rewrite length_fmap.
  - intros i d tb k Hi Htb Hk. rewrite list_lookup_fmap, Hi. cbn.
    rewrite renumber_flat.
    destruct (renumber_steps (tbs_of p) h tb k d Hnd Hvalid Htb Hk)
      as (op' & Hop' & Hs & Ht).
    rewrite Hop'. cbn. by rewrite Hs, Ht.
  - intros i d Hi Hd. rewrite list_lookup_fmap, Hi. cbn.
    rewrite renumber_flat, renumber_tbs_frame by exact Hd. reflexivity.
Qed.

(** A no-op that depends on the signal of the first sample, which is the
    second op of threadblock 0 of device 0 *)
Lemma nop_record_targets_witness :
  json_items (default JNull
    (json_get "deps"
       (JDict (nop_instr (renumber ex_heap ex_prog) (nop_op [1%nat])))))
  !! 0%nat
  = Some (JDict [("tb", JInt 0); ("step", JInt 1)]).
Proof.
  assert (Hnd : NoDup (all_ops ex_prog))
    by (apply (bool_decide_unpack _); by vm_compute).
  assert (Hvalid : ∀ r, r ∈ all_ops ex_prog → (r < length ex_heap)%nat).
  { intros r Hr. apply (bool_decide_unpack _).
    repeat (apply elem_of_cons in Hr as [->|Hr]; [by vm_compute|]).
    by apply elem_of_nil in Hr. }
  apply (proj1 (proj2 (nop_record_targets ex_heap ex_prog (nop_op [1%nat])
                         Hnd Hvalid))
           0%nat 1%nat
           (Threadblock.mk 0 [0%nat; 1%nat]
              [Channel.mk Buffer.input Buffer.scratch ChannelType.sm
                 (ToRank 1)] 0)
           1%nat).
  - reflexivity.
  - left.
  - reflexivity.
Defined.

Lemma Ir_dump_op_length `{Types} h d r op l :
  h !! r = Some op → Op.tb op ≠ -1 →
  Ir.dump_op h d r = Some l → length l = 1%nat.
Proof.
  intros Hr Htb. unfold Ir.dump_op. rewrite Hr.
  rewrite bool_decide_eq_false_2 by done.
  intros Hl. apply bind_Some in Hl as (instr & _ & [= <-]). done.
Qed.

Lemma IrMscclpp_dump_op_length `{Types} h d r op l :
  h !! r = Some op → Op.tb op ≠ -1 →
  IrMscclpp.dump_op h d r = Some l → length l = 1%nat.
Proof.
  intros Hr Htb. unfold IrMscclpp.dump_op. rewrite Hr.
  rewrite bool_decide_eq_false_2 by done.
  intros Hl. apply bind_Some in Hl as (instr & _ & [= <-]). done.
Qed.

Lemma mapM_singletons {A B} (f : A → option (list B)) (l : list A) ls :
  (∀ x y, x ∈ l → f x = Some y → length y = 1%nat) →
  mapM f l = Some ls → length (concat ls) = length l.
Proof.
  intros Hf Hm. apply mapM_Some in Hm.
  induction Hm as [|x y l ls Hxy Hm IH]; [done|].
  cbn [concat]. rewrite length_app, (Hf x y) by (by left || done).
  cbn. f_equal. apply IH. intros x' y' Hx'. apply Hf. by right.
Qed.

(** X4. No op of a serialized threadblock is left out of the document.
    The loop over the ops skips an op whose [tb] field is -1, before
    anything is looked up (so such an op cannot make the serializer
    raise).  After the renumbering, for a program whose ops are distinct
    objects, every op of a threadblock of non-negative id has the id of
    its threadblock as [tb]: the record of the threadblock lists one
    record per op of its final list (in both source files). *)
Theorem every_op_serialized `{Types} (h : list Op.t) (p : Program.t) :
  (∀ d r op, h !! r = Some op → Op.tb op = -1 →
     Ir.dump_op h d r = Some [] ∧ IrMscclpp.dump_op h d r = Some []) ∧
  (NoDup (all_ops p) → (∀ r, r ∈ all_ops p → (r < length h)%nat) →
   ∀ g tb l,
     tb ∈ tbs_of p → 0 ≤ Threadblock.id tb →
     Ir.dump_tb (renumber h p) g tb = Some l ∨
     IrMscclpp.dump_tb (renumber h p) g tb = Some l →
     ∃ recs chans,
       l = [JDict [("id", JInt (Threadblock.id tb));
                   ("ops", JList recs); ("channels", JList chans)]] ∧
       length recs = length (Threadblock.ops tb)).
Proof.
  split.
  - intros d r op Hr Htb. unfold Ir.dump_op, IrMscclpp.dump_op.
    rewrite Hr. by rewrite bool_decide_eq_true_2.
  - intros Hnd Hvalid g tb l Htb Hid Hl.
    assert (Hops : ∀ r, r ∈ Threadblock.ops tb →
              ∃ op, renumber h p !! r = Some op ∧ Op.tb op ≠ -1).
    { intros r Hr. apply list_elem_of_lookup_1 in Hr as [k Hk].
      rewrite renumber_flat.
      destruct (renumber_steps (tbs_of p) h tb k r Hnd Hvalid Htb Hk)
        as (op & Hop & _ & Hoptb).
      exists op. split; [done|]. lia. }
    destruct Hl as [Hl|Hl].
    + unfold Ir.dump_tb in Hl.
      rewrite bool_decide_eq_false_2 in Hl by lia.
      apply bind_Some in Hl as (chans & _ & Hl).
      apply bind_Some in Hl as (ops & Hm & [= <-]).
      eexists _, _. split; [reflexivity|].
      eapply mapM_singletons; [|exact Hm].
      intros r y Hr Hy. destruct (Hops r Hr) as (op & Hop & Hne).
      by eapply Ir_dump_op_length.
    + unfold IrMscclpp.dump_tb in Hl.
      rewrite bool_decide_eq_false_2 in Hl by lia.
      apply bind_Some in Hl as (chans & _ & Hl).
      apply bind_Some in Hl as (ops & Hm & [= <-]).
      eexists _, _. split; [reflexivity|].
      eapply mapM_singletons; [|exact Hm].
      intros r y Hr Hy. destruct (Hops r Hr) as (op & Hop & Hne).
      by eapply IrMscclpp_dump_op_length.
Qed.

(** The threadblock of device 0 of the first sample, with the channel
    table that the allocation gives the device: two ops, two records *)
Lemma every_op_serialized_witness :
  let tb := Threadblock.mk 0 [0%nat; 1%nat]
              [Channel.mk Buffer.input Buffer.scratch ChannelType.sm
                 (ToRank 1)] 0 in
  let g := Gpu.mk 0 [tb] 0 0 0
             [((Buffer.input, Buffer.scratch, ChannelType.sm),
               [(0, ToRank 1)])] in
  ∃ l recs chans,
    Ir.dump_tb (renumber ex_heap ex_prog) g tb = Some l ∧
    l = [JDict [("id", JInt 0); ("ops", JList recs);
                ("channels", JList chans)]] ∧
    length recs = 2%nat.
Proof.
  intros tb g.
  assert (Hnd : NoDup (all_ops ex_prog))
    by (apply (bool_decide_unpack _); by vm_compute).
  assert (Hvalid : ∀ r, r ∈ all_ops ex_prog → (r < length ex_heap)%nat).
  { intros r Hr. apply (bool_decide_unpack _).
    repeat (apply elem_of_cons in Hr as [->|Hr]; [by vm_compute|]).
    by apply elem_of_nil in Hr. }
  assert (Hl : Ir.dump_tb (renumber ex_heap ex_prog) g tb =
               Some (default [] (Ir.dump_tb (renumber ex_heap ex_prog) g tb)))
    by (vm_compute; reflexivity).
  assert (Htb : tb ∈ tbs_of ex_prog) by left.
  assert (Hid : 0 ≤ Threadblock.id tb) by done.
  destruct (proj2 (every_op_serialized ex_heap ex_prog) Hnd Hvalid g tb _
              Htb Hid (or_introl Hl)) as (recs & chans & Heq & Hlen).
  exists (default [] (Ir.dump_tb (renumber ex_heap ex_prog) g tb)), recs, chans.
  split_and!; [exact Hl | exact Heq | exact Hlen].
Defined.

(** ** The records of the ops *)

Lemma dict_get_None {K V} `{EqDecision K} (k : K) (d : list (K * V)) :
  k ∉ d.*1 → dict_get k d = None.
Proof.
  induction d as [|[k' v'] d IH]; intros Hk; [done|].
  cbn [dict_get]. rewrite fmap_cons, not_elem_of_cons in Hk.
  destruct Hk as [Hne Hk]. cbn in Hne.
  rewrite decide_False by done. by apply IH.
Qed.

(** What a lookup finds after [remove_empty_fields], in a dictionary
    (keys are distinct) *)
Lemma dict_get_remove_empty k d :
  NoDup d.*1 →
  dict_get k (remove_empty_fields d) =
    v ← dict_get k d; if is_empty_field v then None else Some v.
Proof.
  unfold remove_empty_fields.
  induction d as [|[k' v'] d IH]; intros Hnd; [done|].
  rewrite fmap_cons in Hnd. apply NoDup_cons in Hnd as [Hk' Hnd].
  cbn in Hk'. rewrite filter_cons. cbn [snd dict_get].
  destruct (is_empty_field v') eqn:He.
  - rewrite decide_False by done.
    destruct (decide (k' = k)) as [->|Hne].
    + cbn. rewrite He. apply dict_get_None. intros Hin. apply Hk'.
      apply list_elem_of_fmap in Hin as (kv & -> & Hin).
      apply list_elem_of_filter in Hin as [_ Hin].
      apply list_elem_of_fmap. by exists kv.
    + by apply IH.
  - rewrite decide_True by done. cbn [dict_get].
    destruct (decide (k' = k)) as [->|Hne]; [cbn; by rewrite He|].
    by apply IH.
Qed.

Lemma Ir_op_fields_src_dst `{Types} d op f :
  Op.inst op ∈ [Instruction.read_reduce_copy;
                Instruction.read_reduce_copy_send;
                Instruction.reduce_send; Instruction.reduce_send_packet;
                Instruction.reduce; Instruction.reduce_packet] →
  Ir.op_fields d op = Some f →
  Fields.src f = Op.dst op ∧ Fields.dst f = Op.dst op.
Proof.
  intros Hin Hf. unfold Ir.op_fields in Hf.
  destruct (Op.inst op);
    try (apply (bool_decide_pack _) in Hin; by vm_compute in Hin);
    repeat (apply bind_Some in Hf as (? & ? & Hf));
    injection Hf as <-; cbn; by split.
Qed.

Lemma IrMscclpp_op_fields_src_dst `{Types} d op f :
  IrMscclpp.op_fields d op = Some f →
  (Op.inst op ∈ [Instruction.read_reduce_copy;
                 Instruction.read_reduce_copy_send;
                 Instruction.reduce_send; Instruction.reduce_send_packet] →
   Fields.src f = Op.dst op ∧ Fields.dst f = Op.dst op) ∧
  (Op.inst op = Instruction.reduce →
   Fields.src f = None ∧ Fields.dst f = Op.dst op).
Proof.
  intros Hf. unfold IrMscclpp.op_fields in Hf. split.
  - intros Hin.
    destruct (Op.inst op);
      try (apply (bool_decide_pack _) in Hin; by vm_compute in Hin);
      repeat (apply bind_Some in Hf as (? & ? & Hf));
      injection Hf as <-; cbn; by split.
  - intros Hi. rewrite Hi in Hf. injection Hf as <-. by split.
Qed.

Lemma instr_of_keys `{Types} op f instr :
  instr_of op f = Some instr →
  NoDup instr.*1 ∧
  dict_get "src" instr
    = Some (opt_json (λ c, JInt (ChunkRef.rank c)) (Fields.src f)) ∧
  dict_get "srcbuff" instr
    = Some (opt_json (λ c, JStr (Buffer_value (ChunkRef.buffer c)))
              (Fields.src f)) ∧
  dict_get "srcoff" instr
    = Some (opt_json (λ c, JInt (ChunkRef.index c)) (Fields.src f)) ∧
  dict_get "dst" instr
    = Some (opt_json (λ c, JInt (ChunkRef.rank c)) (Fields.dst f)) ∧
  dict_get "dstbuff" instr
    = Some (opt_json (λ c, JStr (Buffer_value (ChunkRef.buffer c)))
              (Fields.dst f)) ∧
  dict_get "dstoff" instr
    = Some (opt_json (λ c, JInt (ChunkRef.index c)) (Fields.dst f)).
Proof.
  unfold instr_of. intros Hi.
  apply bind_Some in Hi as (cnt & _ & [= <-]).
  split; [apply (bool_decide_unpack _); by vm_compute|].
  split_and!; reflexivity.
Qed.

Lemma Ir_dump_op_record `{Types} h d r op rec :
  h !! r = Some op →
  Op.inst op ≠ Instruction.nop → Op.inst op ≠ Instruction.barrier →
  Ir.dump_op h d r = Some [rec] →
  ∃ f instr, Ir.op_fields d op = Some f ∧ instr_of op f = Some instr ∧
    rec = JDict (remove_empty_fields instr).
Proof.
  intros Hr Hn Hb. unfold Ir.dump_op. rewrite Hr.
  case_bool_decide; [done|].
  rewrite !bool_decide_eq_false_2 by done.
  intros Hd. apply bind_Some in Hd as (instr & Hi & [= <-]).
  apply bind_Some in Hi as (f & Hf & Hi). by exists f, instr.
Qed.

Lemma IrMscclpp_dump_op_record `{Types} h d r op rec :
  h !! r = Some op → Op.inst op ≠ Instruction.nop →
  IrMscclpp.dump_op h d r = Some [rec] →
  ∃ f instr, IrMscclpp.op_fields d op = Some f ∧
    instr_of op f = Some instr ∧
    rec = JDict (remove_empty_fields instr).
Proof.
  intros Hr Hn. unfold IrMscclpp.dump_op. rewrite Hr.
  case_bool_decide; [done|].
  rewrite !bool_decide_eq_false_2 by done.
  intros Hd. apply bind_Some in Hd as (instr & Hi & [= <-]).
  apply bind_Some in Hi as (f & Hf & Hi). by exists f, instr.
Qed.

(** The six source and destination fields of a record, from the local
    variables [src] and [dst] of the loop *)
Lemma record_src_dst `{Types} op f instr :
  instr_of op f = Some instr →
  let rec := JDict (remove_empty_fields instr) in
  (Fields.src f = Fields.dst f →
   json_get "src" rec = json_get "dst" rec ∧
   json_get "srcbuff" rec = json_get "dstbuff" rec ∧
   json_get "srcoff" rec = json_get "dstoff" rec) ∧
  (Fields.src f = None →
   json_get "src" rec = None ∧ json_get "srcbuff" rec = None ∧
   json_get "srcoff" rec = None) ∧
  json_get "dst" rec = (λ t, JInt (ChunkRef.rank t)) <$> Fields.dst f ∧
  json_get "dstoff" rec = (λ t, JInt (ChunkRef.index t)) <$> Fields.dst f.
Proof.
  intros Hi rec. subst rec. cbn [json_get].
  destruct (instr_of_keys _ _ _ Hi) as (Hnd & H1 & H2 & H3 & H4 & H5 & H6).
  rewrite !dict_get_remove_empty by done.
  rewrite H1, H2, H3, H4, H5, H6. split_and!.
  - by intros ->.
  - by intros ->.
  - by destruct (Fields.dst f).
  - by destruct (Fields.dst f).
Qed.

(** X5. The records of the reducing instructions.  In
    [mscclpp/ir.py], for [read_reduce_copy], [read_reduce_copy_send],
    [reduce_send], [reduce_send_packet], [reduce] and [reduce_packet] the
    loop sets [src = op.dst]: the record's ["src"], ["srcbuff"] and
    ["srcoff"] repeat ["dst"], ["dstbuff"] and ["dstoff"], which are the
    rank, buffer and index of [op.dst]; [op.src] does not reach them.
    The older [ir_mscclpp.py] does the same for the first four, and for
    [reduce] it leaves [src] unset: the record has none of the three
    source fields. *)
Theorem source_fields_repeat_destination `{Types} (h : list Op.t)
    (d : list (Buffer.t * Buffer.t * ChannelType.t * TbChannel.t))
    (r : nat) (op : Op.t) (rec : json) :
  h !! r = Some op →
  (Op.inst op ∈ [Instruction.read_reduce_copy;
                 Instruction.read_reduce_copy_send;
                 Instruction.reduce_send; Instruction.reduce_send_packet;
                 Instruction.reduce; Instruction.reduce_packet] →
   Ir.dump_op h d r = Some [rec] →
   json_get "src" rec = json_get "dst" rec ∧
   json_get "srcbuff" rec = json_get "dstbuff" rec ∧
   json_get "srcoff" rec = json_get "dstoff" rec ∧
   json_get "dst" rec = (λ t, JInt (ChunkRef.rank t)) <$> Op.dst op ∧
   json_get "dstoff" rec = (λ t, JInt (ChunkRef.index t)) <$> Op.dst op) ∧
  (Op.inst op ∈ [Instruction.read_reduce_copy;
                 Instruction.read_reduce_copy_send;
                 Instruction.reduce_send; Instruction.reduce_send_packet] →
   IrMscclpp.dump_op h d r = Some [rec] →
   json_get "src" rec = json_get "dst" rec ∧
   json_get "srcbuff" rec = json_get "dstbuff" rec ∧
   json_get "srcoff" rec = json_get "dstoff" rec ∧
   json_get "dst" rec = (λ t, JInt (ChunkRef.rank t)) <$> Op.dst op ∧
   json_get "dstoff" rec = (λ t, JInt (ChunkRef.index t)) <$> Op.dst op) ∧
  (Op.inst op = Instruction.reduce →
   IrMscclpp.dump_op h d r = Some [rec] →
   json_get "src" rec = None ∧ json_get "srcbuff" rec = None ∧
   json_get "srcoff" rec = None ∧
   json_get "dstoff" rec = (λ t, JInt (ChunkRef.index t)) <$> Op.dst op).
Proof.
  intros Hr. split_and!.
  - intros Hin Hd.
    assert (Op.inst op ≠ Instruction.nop) as Hn
      by (intros He; rewrite He in Hin;
          apply (bool_decide_pack _) in Hin; by vm_compute in Hin).
    assert (Op.inst op ≠ Instruction.barrier) as Hb
      by (intros He; rewrite He in Hin;
          apply (bool_decide_pack _) in Hin; by vm_compute in Hin).
    destruct (Ir_dump_op_record _ _ _ _ _ Hr Hn Hb Hd)
      as (f & instr & Hf & Hi & ->).
    destruct (Ir_op_fields_src_dst _ _ _ Hin Hf) as [Hs Ht].
    destruct (record_src_dst _ _ _ Hi) as (Hsame & _ & Hd1 & Hd2).
    destruct Hsame as (E1 & E2 & E3); [congruence|].
    rewrite <- Ht. by split_and!.
  - intros Hin Hd.
    assert (Op.inst op ≠ Instruction.nop) as Hn
      by (intros He; rewrite He in Hin;
          apply (bool_decide_pack _) in Hin; by vm_compute in Hin).
    destruct (IrMscclpp_dump_op_record _ _ _ _ _ Hr Hn Hd)
      as (f & instr & Hf & Hi & ->).
    destruct (proj1 (IrMscclpp_op_fields_src_dst _ _ _ Hf) Hin) as [Hs Ht].
    destruct (record_src_dst _ _ _ Hi) as (Hsame & _ & Hd1 & Hd2).
    destruct Hsame as (E1 & E2 & E3); [congruence|].
    rewrite <- Ht. by split_and!.
  - intros Hin Hd.
    assert (Op.inst op ≠ Instruction.nop) as Hn by (by rewrite Hin).
    destruct (IrMscclpp_dump_op_record _ _ _ _ _ Hr Hn Hd)
      as (f & instr & Hf & Hi & ->).
    destruct (proj2 (IrMscclpp_op_fields_src_dst _ _ _ Hf) Hin) as [Hs Ht].
    destruct (record_src_dst _ _ _ Hi) as (_ & Hnone & _ & Hd2).
    destruct (Hnone Hs) as (E1 & E2 & E3).
    rewrite <- Ht. by split_and!.
Qed.

(** The record of the sample [reduce] shows the index of its
    destination as source offset. *)
Lemma source_fields_repeat_destination_witness :
  ∃ rec,
    Ir.dump_op [red_op] [] 0%nat = Some [rec] ∧
    json_get "srcoff" rec = Some (JInt 5) ∧
    json_get "dstoff" rec = Some (JInt 5).
Proof.
  assert (Hd : Ir.dump_op [red_op] [] 0%nat =
               Some [default JNull
                       (head (default [] (Ir.dump_op [red_op] [] 0%nat)))])
    by (vm_compute; reflexivity).
  assert (Hin : Op.inst red_op ∈
            [Instruction.read_reduce_copy;
             Instruction.read_reduce_copy_send;
             Instruction.reduce_send; Instruction.reduce_send_packet;
             Instruction.reduce; Instruction.reduce_packet])
    by (apply (bool_decide_unpack _); by vm_compute).
  destruct (proj1 (source_fields_repeat_destination [red_op] [] 0%nat
                     red_op _ eq_refl) Hin Hd)
    as (_ & _ & E3 & _ & E5).
  eexists. split; [exact Hd|]. rewrite E3, E5. split; reflexivity.
Defined.

(** ** Looking up the channels that the allocation entered *)

Lemma sort_values_keys d d' : sort_values d = Some d' → d'.*1 = d.*1.
Proof.
  unfold sort_values. intros Hm. apply mapM_Some in Hm.
  induction Hm as [|kv kv' d d' Hkv Hm IH]; [done|].
  rewrite !fmap_cons, IH. f_equal.
  apply bind_Some in Hkv as (es & _ & [= <-]). done.
Qed.

Lemma alloc_channels_gpu_NoDup g g' :
  alloc_channels_gpu g = Some g' → NoDup (Gpu.channels g').*1.
Proof.
  unfold alloc_channels_gpu. intros Hg.
  apply bind_Some in Hg as (tbs & _ & Hg).
  apply bind_Some in Hg as (d & Hd & [= <-]). cbn.
  rewrite (sort_values_keys _ _ Hd), chan_dict_tbs_decls.
  apply chan_dict_decls_NoDup. constructor.
Qed.

Lemma dict_get_fmap_val {K V W} `{EqDecision K} (f : K * V → W)
    (d : list (K * V)) (k : K) :
  dict_get k ((λ kv, (kv.1, f kv)) <$> d) = (λ v, f (k, v)) <$> dict_get k d.
Proof.
  induction d as [|[k' v'] d IH]; [done|].
  rewrite fmap_cons. cbn [dict_get fst].
  destruct (decide (k' = k)) as [->|Hne]; [done|]. apply IH.
Qed.

Lemma dict_get_filter {K V} `{EqDecision K} (P : K * V → Prop)
    `{∀ x, Decision (P x)} (d : list (K * V)) (k : K) :
  NoDup d.*1 →
  dict_get k (filter P d) =
    v ← dict_get k d; if decide (P (k, v)) then Some v else None.
Proof.
  induction d as [|[k' v'] d IH]; intros Hnd; [done|].
  rewrite fmap_cons in Hnd. apply NoDup_cons in Hnd as [Hk' Hnd].
  cbn in Hk'. rewrite filter_cons. cbn [dict_get].
  destruct (decide (P (k', v'))) as [HP|HP].
  - cbn [dict_get].
    destruct (decide (k' = k)) as [->|Hne]; [cbn; by rewrite decide_True|].
    by apply IH.
  - destruct (decide (k' = k)) as [->|Hne].
    + cbn. rewrite decide_False by done. apply dict_get_None.
      intros Hin. apply Hk'.
      apply list_elem_of_fmap in Hin as (kv & -> & Hin).
      apply list_elem_of_filter in Hin as [_ Hin].
      apply list_elem_of_fmap. by exists kv.
    + by apply IH.
Qed.

Lemma enumerate_elem {A} (l : list A) i x :
  (i, x) ∈ enumerate l ↔ l !! i = Some x.
Proof.
  split.
  - intros Hin. apply list_elem_of_lookup_1 in Hin as [j Hj].
    rewrite enumerate_lookup in Hj.
    destruct (l !! j) eqn:E; [|done]. cbn in Hj. by injection Hj as -> ->.
  - intros Hl. apply list_elem_of_lookup_2 with i.
    by rewrite enumerate_lookup, Hl.
Qed.

(** The threadblock's view of an entry of the device's table *)
Lemma tb_channel_dict_get `{Types} g tb k :
  NoDup (Gpu.channels g).*1 →
  dict_get k (Ir.tb_channel_dict g tb) =
    es ← dict_get k (Gpu.channels g);
    if decide (TbChannel.chanIds (tb_channel_obj (Threadblock.id tb) (k, es))
               ≠ [])
    then Some (tb_channel_obj (Threadblock.id tb) (k, es)) else None.
Proof.
  intros Hnd. unfold Ir.tb_channel_dict.
  rewrite (dict_get_filter
             (λ kx : Buffer.t * Buffer.t * ChannelType.t * TbChannel.t,
                TbChannel.chanIds kx.2 ≠ [])).
  - rewrite dict_get_fmap_val. by destruct (dict_get k (Gpu.channels g)).
  - rewrite <- list_fmap_compose.
    assert (Heq : (fst ∘ (λ kv : Buffer.t * Buffer.t * ChannelType.t
                                 * list (Z * ConnectedTo),
                     (kv.1, tb_channel_obj (Threadblock.id tb) kv)))
                  <$> Gpu.channels g = (Gpu.channels g).*1)
      by (by apply list_fmap_ext).
    by rewrite Heq.
Qed.

Lemma tb_channel_obj_entry `{Types} tbid k es c :
  (tbid, c) ∈ es →
  TbChannel.chanIds (tb_channel_obj tbid (k, es)) ≠ [] ∧
  c ∈ TbChannel.connectedTo (tb_channel_obj tbid (k, es)).
Proof.
  intros Hin. split.
  - apply list_elem_of_lookup_1 in Hin as [i Hi].
    assert (i ∈ TbChannel.chanIds (tb_channel_obj tbid (k, es))) as Hf.
    { unfold tb_channel_obj. cbn [TbChannel.chanIds snd].
      apply list_elem_of_fmap. exists (i, (tbid, c)). split; [done|].
      apply list_elem_of_filter. split; [done|]. by apply enumerate_elem. }
    intros Hnil. rewrite Hnil in Hf. by apply elem_of_nil in Hf.
  - unfold tb_channel_obj. cbn [TbChannel.connectedTo snd].
    apply list_elem_of_fmap. exists (tbid, c). split; [done|].
    by apply list_elem_of_filter.
Qed.

Lemma alloc_channels_gpu_entries g g' k es :
  alloc_channels_gpu g = Some g' →
  dict_get k (Gpu.channels g') = Some es →
  StronglySorted entry_le es ∧ es ≡ₚ entries_for k (decls g) ∧ comparable es.
Proof.
  intros Hg Hes.
  rewrite (proj2 (proj2 (alloc_channels_gpu_spec g) g' Hg) k) in Hes.
  destruct (entries_for k (decls g)) as [|e0 es0] eqn:E; [done|].
  split_and!.
  - by eapply py_sorted_entries_sorted.
  - by eapply py_sorted_perm.
  - eapply comparable_perm; [symmetry; by eapply py_sorted_perm|].
    by eapply py_sorted_entries_comparable.
Qed.

Lemma mapM_ext_total {A B} (f : A → option B) (g : A → B) (l : list A) :
  (∀ x, x ∈ l → f x = Some (g x)) → mapM f l = Some (g <$> l).
Proof.
  induction l as [|x l IH]; intros Hf; [done|].
  cbn [mapM]. rewrite (Hf x) by left. cbn.
  rewrite IH by (intros y Hy; apply Hf; by right). done.
Qed.

(** X6. A channel that a threadblock declares is found when its ops are
    serialized ([mscclpp/ir.py]).  After the channel allocation of the
    device, the threadblock's table has an entry under the key of the
    channel.  For a channel to rank [r] that is not multicast,
    [get_channel_ids] on a chunk of rank [r] returns at least one
    [{"id": i, "off": index of the chunk}], and every [i] it returns is
    a position, in the threadblock's own list of connections under the
    key, of a channel to rank [r].  For a multicast channel to the ranks
    [rs], [get_channel_ids] on chunks whose ranks form the same set
    returns at least one [{"id": i}], each [i] being the position of a
    channel to that set of ranks. *)
Theorem declared_channel_found `{Types} (g g' : Gpu.t) (tb : Threadblock.t)
    (ch : Channel.t) :
  alloc_channels_gpu g = Some g' →
  tb ∈ Gpu.threadblocks g → ch ∈ Threadblock.channels tb →
  ∃ e,
    dict_get (chan_key ch) (Ir.tb_channel_dict g' tb) = Some e ∧
    (∀ r c,
       Channel.type ch ≠ ChannelType.nvls →
       Channel.connected_to ch = ToRank r → ChunkRef.rank c = r →
       ∃ ids,
         get_channel_ids [c] (Ir.tb_channel_dict g' tb)
           (Channel.srcBuffer ch) (Channel.dstBuffer ch) (Channel.type ch)
           = Some ids ∧
         ids ≠ [] ∧
         ∀ j, j ∈ ids →
           ∃ i, j = JDict [("id", JInt (Z.of_nat i));
                           ("off", JInt (ChunkRef.index c))] ∧
             TbChannel.connectedTo e !! i = Some (ToRank r)) ∧
    (∀ rs cs,
       Channel.type ch = ChannelType.nvls →
       Channel.connected_to ch = ToRanks rs →
       same_set rs (ChunkRef.rank <$> cs) = true →
       ∃ ids,
         get_channel_ids cs (Ir.tb_channel_dict g' tb)
           (Channel.srcBuffer ch) (Channel.dstBuffer ch) ChannelType.nvls
           = Some ids ∧
         ids ≠ [] ∧
         ∀ j, j ∈ ids →
           ∃ i rs', j = JDict [("id", JInt (Z.of_nat i))] ∧
             TbChannel.connectedTo e !! i = Some (ToRanks rs') ∧
             same_set rs' (ChunkRef.rank <$> cs) = true).
Proof.
  intros Hg Htb Hch.
  destruct (alloc_channels_gpu_covers g g' tb ch Hg Htb Hch) as (es & Hes & Hin).
  pose proof (alloc_channels_gpu_NoDup g g' Hg) as Hnd.
  destruct (tb_channel_obj_entry (Threadblock.id tb) (chan_key ch) es
              (Channel.connected_to ch) Hin) as [Hids Hconn].
  set (e := tb_channel_obj (Threadblock.id tb) (chan_key ch, es)) in *.
  assert (He : dict_get (chan_key ch) (Ir.tb_channel_dict g' tb) = Some e).
  { rewrite tb_channel_dict_get by done. rewrite Hes. cbn.
    by rewrite decide_True. }
  exists e. split; [exact He|]. split.
  - intros r c Hty Hto Hrank. rewrite Hto in Hconn.
    change (chan_key ch) with
      (Channel.srcBuffer ch, Channel.dstBuffer ch, Channel.type ch) in He.
    rewrite (get_channel_ids_entry [c] _ _ _ _ e He Hty).
    eexists. split; [reflexivity|]. cbn [fmap list_fmap concat].
    rewrite app_nil_r. rewrite Hrank. split.
    + apply list_elem_of_lookup_1 in Hconn as [i Hi].
      intros Hnil. apply fmap_nil_inv in Hnil.
      assert ((i, ToRank r) ∈
                filter (λ ie : nat * ConnectedTo, ie.2 = ToRank r)
                  (enumerate (TbChannel.connectedTo e))) as Hf.
      { apply list_elem_of_filter. split; [done|]. by apply enumerate_elem. }
      rewrite Hnil in Hf. by apply elem_of_nil in Hf.
    + intros j Hj. apply list_elem_of_fmap in Hj as ([i x] & -> & Hj).
      apply list_elem_of_filter in Hj as [Hx Hj]. cbn in Hx. subst x.
      exists i. split; [done|]. by apply enumerate_elem.
  - intros rs cs Hty Hto Hsame. rewrite Hto in Hconn, Hin.
    destruct (alloc_channels_gpu_entries g g' _ es Hg Hes) as (_ & _ & Hcmp).
    assert (Hall : ∀ x, x ∈ TbChannel.connectedTo e → ∃ rs', x = ToRanks rs').
    { intros x Hx. unfold e, tb_channel_obj in Hx.
      cbn [TbChannel.connectedTo snd] in Hx.
      apply list_elem_of_fmap in Hx as ([t x'] & -> & Hx).
      apply list_elem_of_filter in Hx as [Ht Hx]. cbn in Ht. subst t.
      specialize (Hcmp _ _ Hx Hin eq_refl). cbn in Hcmp.
      destruct x' as [?|rs']; [done|]. by exists rs'. }
    unfold get_channel_ids. rewrite bool_decide_eq_true_2 by done.
    assert (He' : dict_get (Channel.srcBuffer ch, Channel.dstBuffer ch,
                            ChannelType.nvls)
                    (Ir.tb_channel_dict g' tb) = Some e).
    { rewrite <- Hty. exact He. }
    rewrite He'. cbn [mbind option_bind].
    rewrite (mapM_ext_total _
               (λ ie : nat * ConnectedTo,
                  (ie.1, match ie.2 with
                         | ToRanks ele =>
                             same_set ele (ChunkRef.rank <$> cs)
                         | ToRank _ => false
                         end))).
    2:{ intros [i x] Hix. apply enumerate_elem in Hix.
        apply list_elem_of_lookup_2 in Hix.
        destruct (Hall x Hix) as [rs' ->]. done. }
    cbn [mbind option_bind]. eexists. split; [reflexivity|]. split.
    + apply list_elem_of_lookup_1 in Hconn as [i Hi].
      intros Hnil. apply fmap_nil_inv in Hnil.
      assert ((i, true) ∈
                filter (λ ib : nat * bool, ib.2 = true)
                  ((λ ie : nat * ConnectedTo,
                      (ie.1, match ie.2 with
                             | ToRanks ele =>
                                 same_set ele (ChunkRef.rank <$> cs)
                             | ToRank _ => false
                             end))
                   <$> enumerate (TbChannel.connectedTo e))) as Hf.
      { apply list_elem_of_filter. split; [done|].
        apply list_elem_of_fmap. exists (i, ToRanks rs). cbn.
        split; [by rewrite Hsame|]. by apply enumerate_elem. }
      rewrite Hnil in Hf. by apply elem_of_nil in Hf.
    + intros j Hj. apply list_elem_of_fmap in Hj as ([i b] & -> & Hj).
      apply list_elem_of_filter in Hj as [Hb Hj]. cbn in Hb. subst b.
      apply list_elem_of_fmap in Hj as ([i' x] & Heq & Hj).
      apply enumerate_elem in Hj. cbn in Heq.
      injection Heq as -> Hx.
      destruct x as [?|rs']; [done|].
      exists i', rs'. by split_and!.
Qed.

(** The threadblock with a channel to rank 1, and a chunk of rank 1 *)
Lemma declared_channel_found_witness :
  ∃ g' ids,
    alloc_channels_gpu miss_gpu = Some g' ∧
    get_channel_ids [ex_scr] (Ir.tb_channel_dict g' miss_tb)
      Buffer.input Buffer.scratch ChannelType.sm = Some ids ∧
    ids ≠ [].
Proof.
  assert (Hg : alloc_channels_gpu miss_gpu =
               Some (default miss_gpu (alloc_channels_gpu miss_gpu)))
    by (vm_compute; reflexivity).
  assert (Htb : miss_tb ∈ Gpu.threadblocks miss_gpu) by left.
  assert (Hch : ch_to 1 ∈ Threadblock.channels miss_tb) by left.
  destruct (declared_channel_found miss_gpu _ miss_tb (ch_to 1) Hg Htb Hch)
    as (e & He & H1 & _).
  assert (Hty : Channel.type (ch_to 1) ≠ ChannelType.nvls) by discriminate.
  destruct (H1 1 ex_scr Hty eq_refl eq_refl) as (ids & Hids & Hne & _).
  exists (default miss_gpu (alloc_channels_gpu miss_gpu)), ids.
  split_and!; [exact Hg | exact Hids | exact Hne].
Defined.

(** ** The channel ids of a threadblock *)

Lemma positions_sorted (l : list (Z * ConnectedTo)) (t : Z) (n : nat) :
  StronglySorted entry_le l →
  fst <$> filter (λ ie : nat * (Z * ConnectedTo), ie.2.1 = t)
            (imap (λ i x, ((n + i)%nat, x)) l) =
  seq (n + length (filter (λ e : Z * ConnectedTo, e.1 < t) l))
      (length (filter (λ e : Z * ConnectedTo, e.1 = t) l)).
Proof.
  intros Hs. revert n. induction Hs as [|x l Hs IH Hall]; intros n; [done|].
  cbn [imap]. rewrite !filter_cons. cbn [snd fst].
  rewrite (imap_ext _ (λ i x, ((S n + i)%nat, x)))
    by (intros; cbn; f_equal; lia).
  assert (Hge : ∀ y, y ∈ l → x.1 ≤ y.1).
  { intros y Hy. apply entry_le_id. rewrite Forall_forall in Hall.
    by apply Hall. }
  destruct (decide (x.1 = t)) as [Heq|Hne].
  - rewrite decide_False by lia. cbn [fmap list_fmap length].
    fold (@fmap list _ _ _ (@fst nat (Z * ConnectedTo))).
    rewrite IH.
    rewrite (filter_none (λ e : Z * ConnectedTo, e.1 < t) l)
      by (intros y Hy; specialize (Hge y Hy); lia).
    cbn [length seq fst]. by rewrite !Nat.add_0_r.
  - destruct (decide (x.1 < t)) as [Hlt|Hnlt].
    + cbn [length]. rewrite IH. f_equal. lia.
    + rewrite (filter_none (λ e : Z * ConnectedTo, e.1 = t) l)
        by (intros y Hy; specialize (Hge y Hy); lia).
      cbn [length seq].
      rewrite (filter_none (λ ie : nat * (Z * ConnectedTo), ie.2.1 = t));
        [done|].
      intros [i y] Hiy. apply list_elem_of_lookup_1 in Hiy as [j Hj].
      rewrite list_lookup_imap in Hj.
      destruct (l !! j) as [y'|] eqn:E; [|done]. cbn in Hj.
      injection Hj as _ <-. cbn.
      assert (y' ∈ l) as Hy by (by eapply list_elem_of_lookup_2).
      specialize (Hge y' Hy). lia.
Qed.

Lemma length_filter_fmap {A B} (f : A → B) (P : B → Prop)
    `{∀ y, Decision (P y)} (l : list A) :
  length (filter P (f <$> l)) = length (filter (λ x, P (f x)) l).
Proof.
  induction l as [|x l IH]; [done|].
  rewrite fmap_cons, !filter_cons.
  destruct (decide (P (f x))); cbn [length]; by rewrite IH.
Qed.

(** X7. The channel ids of a threadblock ([ir_to_json] allocates,
    [dump_to_json] reads them off).  After the allocation the positions
    that a threadblock of id [t] finds for itself in the list of a key
    are consecutive; they start at the number of channels that the
    device's threadblocks of smaller id declare under the key, and there
    are as many as the threadblocks of id [t] declare under it. *)
Theorem channel_ids_consecutive `{Types} (g g' : Gpu.t)
    (k : Buffer.t * Buffer.t * ChannelType.t) (es : list (Z * ConnectedTo))
    (t : Z) :
  alloc_channels_gpu g = Some g' →
  dict_get k (Gpu.channels g') = Some es →
  TbChannel.chanIds (tb_channel_obj t (k, es)) =
    seq (length (filter (λ d : Z * Channel.t, d.1 < t)
                   (filter (λ d : Z * Channel.t, chan_key d.2 = k)
                      (decls g))))
        (length (filter (λ d : Z * Channel.t, d.1 = t)
                   (filter (λ d : Z * Channel.t, chan_key d.2 = k)
                      (decls g)))).
Proof.
  intros Hg Hes.
  destruct (alloc_channels_gpu_entries g g' k es Hg Hes) as (Hs & Hp & _).
  unfold tb_channel_obj. cbn [TbChannel.chanIds snd]. unfold enumerate.
  rewrite (imap_ext pair (λ i x, ((0 + i)%nat, x)) es) by done.
  rewrite positions_sorted by done.
  assert (Hlt :
    length (filter (λ e : Z * ConnectedTo, e.1 < t) es) =
    length (filter (λ d : Z * Channel.t, d.1 < t)
              (filter (λ d : Z * Channel.t, chan_key d.2 = k) (decls g)))).
  { rewrite (Permutation_length
               (filter_Permutation (λ e : Z * ConnectedTo, e.1 < t) _ _ Hp)).
    unfold entries_for. by rewrite length_filter_fmap. }
  assert (Heq :
    length (filter (λ e : Z * ConnectedTo, e.1 = t) es) =
    length (filter (λ d : Z * Channel.t, d.1 = t)
              (filter (λ d : Z * Channel.t, chan_key d.2 = k) (decls g)))).
  { rewrite (Permutation_length
               (filter_Permutation (λ e : Z * ConnectedTo, e.1 = t) _ _ Hp)).
    unfold entries_for. by rewrite length_filter_fmap. }
  by rewrite Hlt, Heq.
Qed.

(** A device whose threadblock 1 declares two channels and whose
    threadblock 0 declares one, under the same key: threadblock 1 has the
    channel ids 1 and 2. *)
Lemma channel_ids_consecutive_witness :
  let g := Gpu.mk 0
             [ Threadblock.mk 1 [] [ch_to 2; ch_to 1] 0;
               Threadblock.mk 0 [] [ch_to 3] 0 ] 0 0 0 [] in
  let k := (Buffer.input, Buffer.scratch, ChannelType.sm) in
  ∃ g' es,
    alloc_channels_gpu g = Some g' ∧
    dict_get k (Gpu.channels g') = Some es ∧
    TbChannel.chanIds (tb_channel_obj 1 (k, es)) = [1%nat; 2%nat].
Proof.
  intros g k.
  assert (Hg : alloc_channels_gpu g =
               Some (default g (alloc_channels_gpu g)))
    by (vm_compute; reflexivity).
  assert (Hes : dict_get k (Gpu.channels (default g (alloc_channels_gpu g))) =
                Some [(0, ToRank 3); (1, ToRank 1); (1, ToRank 2)])
    by (vm_compute; reflexivity).
  eexists _, _. split_and!; [exact Hg | exact Hes |].
  rewrite (channel_ids_consecutive g _ k _ 1 Hg Hes). reflexivity.
Defined.

(** ** When the channel allocation fails *)

Lemma elem_of_decls g tbid ch :
  (tbid, ch) ∈ decls g ↔
  ∃ tb, tb ∈ Gpu.threadblocks g ∧ Threadblock.id tb = tbid ∧
    ch ∈ Threadblock.channels tb.
Proof.
  unfold decls, decls_of. rewrite list_elem_of_bind. split.
  - intros (tb & Hin & Htb). apply list_elem_of_bind in Hin as (c & Hc & Hch).
    apply list_elem_of_singleton in Hc. injection Hc as -> ->.
    by exists tb.
  - intros (tb & Htb & <- & Hch). exists tb. split; [|done].
    apply list_elem_of_bind. exists ch. split; [left | done].
Qed.

Lemma elem_of_entries_for k ds a :
  a ∈ entries_for k ds ↔
  ∃ ch, (a.1, ch) ∈ ds ∧ chan_key ch = k ∧ a.2 = Channel.connected_to ch.
Proof.
  unfold entries_for. rewrite list_elem_of_fmap. split.
  - intros ([t ch] & -> & Hin). apply list_elem_of_filter in Hin as [Hk Hin].
    by exists ch.
  - intros (ch & Hin & Hk & Ha). exists (a.1, ch). split.
    + destruct a as [t c]. cbn in *. by subst.
    + by apply list_elem_of_filter.
Qed.

(** X8. When the channel allocation of [ir_to_json] succeeds.  The only
    step that can raise is [sorted] on the list of a key, whose entries
    are the tuples [(tb.id, ch.connected_to)]: it compares two connection
    targets only when the threadblock ids are equal, and a rank does not
    compare with a list of ranks.  So the allocation of a device succeeds
    exactly when any two channels with the same key that threadblocks of
    the same id declare are both connected to a rank or both to a list
    of ranks; and the allocation of a program succeeds exactly when that
    of each device does. *)
Theorem channel_allocation_succeeds (p : Program.t) :
  (∀ g,
     is_Some (alloc_channels_gpu g) ↔
     ∀ tb1 tb2 ch1 ch2,
       tb1 ∈ Gpu.threadblocks g → tb2 ∈ Gpu.threadblocks g →
       ch1 ∈ Threadblock.channels tb1 → ch2 ∈ Threadblock.channels tb2 →
       Threadblock.id tb1 = Threadblock.id tb2 →
       chan_key ch1 = chan_key ch2 →
       same_kind (Channel.connected_to ch1) (Channel.connected_to ch2)
         = true) ∧
  (is_Some (alloc_channels p) ↔
   ∀ g, g ∈ Program.gpus p → is_Some (alloc_channels_gpu g)).
Proof.
  split.
  - intros g. rewrite (proj1 (alloc_channels_gpu_spec g)). split.
    + intros Hall tb1 tb2 ch1 ch2 Htb1 Htb2 Hch1 Hch2 Hid Hkey.
      specialize (Hall (chan_key ch1)).
      apply py_sorted_entries_is_Some in Hall.
      apply (Hall (Threadblock.id tb1, Channel.connected_to ch1)
                  (Threadblock.id tb2, Channel.connected_to ch2)).
      * apply elem_of_entries_for. exists ch1. split_and!; [|done|done].
        apply elem_of_decls. by exists tb1.
      * apply elem_of_entries_for. exists ch2. split_and!; [|done|done].
        apply elem_of_decls. by exists tb2.
      * done.
    + intros Hall k. apply py_sorted_entries_is_Some.
      intros a b Ha Hb Hab.
      apply elem_of_entries_for in Ha as (ch1 & Hd1 & Hk1 & ->).
      apply elem_of_entries_for in Hb as (ch2 & Hd2 & Hk2 & ->).
      apply elem_of_decls in Hd1 as (tb1 & Htb1 & Hid1 & Hch1).
      apply elem_of_decls in Hd2 as (tb2 & Htb2 & Hid2 & Hch2).
      apply (Hall tb1 tb2 ch1 ch2); [done..| |]; congruence.
  - unfold alloc_channels. split.
    + intros [p' Hp] g Hg.
      apply bind_Some in Hp as (gs & Hm & _).
      assert (is_Some (mapM alloc_channels_gpu (Program.gpus p))) as Hsome
        by (by rewrite Hm).
      rewrite mapM_is_Some, Forall_forall in Hsome. by apply Hsome.
    + intros Hall.
      assert (is_Some (mapM alloc_channels_gpu (Program.gpus p)))
        as [gs Hgs].
      { rewrite mapM_is_Some, Forall_forall. exact Hall. }
      rewrite Hgs. by eexists.
Qed.

(** The device of the multicast sample: its three channels are all
    connected to lists of ranks. *)
Lemma channel_allocation_succeeds_witness :
  is_Some (alloc_channels_gpu mc_gpu).
Proof.
  apply (proj1 (channel_allocation_succeeds mc_prog) mc_gpu).
  intros tb1 tb2 ch1 ch2 Htb1 Htb2 Hch1 Hch2 _ _.
  apply list_elem_of_singleton in Htb1, Htb2. subst tb1 tb2.
  cbn in Hch1, Hch2.
  repeat (apply elem_of_cons in Hch1 as [->|Hch1]);
    repeat (apply elem_of_cons in Hch2 as [->|Hch2]);
    try reflexivity;
    try (by apply elem_of_nil in Hch1); by apply elem_of_nil in Hch2.
Defined.

(** ** The passes of [ir_to_json], end to end *)

Lemma Ir_ir_to_json_inv `{Types} h p doc :
  Ir.ir_to_json h p = Some doc →
  ∃ p1 p2 p3,
    infer_buffer_sizes Ir._local_src_insts_mscclpp
      Ir._local_dst_insts_mscclpp h p = Some p1 ∧
    Ir.unify_scratch p1 = Some p2 ∧
    alloc_channels p2 = Some p3 ∧
    Ir.dump_to_json (Ir.lower_deps h p3).1 (Ir.lower_deps h p3).2 = Some doc.
Proof.
  unfold Ir.ir_to_json. intros Hd.
  apply bind_Some in Hd as (p1 & H1 & Hd).
  apply bind_Some in Hd as (p2 & H2 & Hd).
  apply bind_Some in Hd as (p3 & H3 & Hd).
  by exists p1, p2, p3.
Qed.

Lemma map_state_Forall2 {S A B} (f : S → A → S * B) (R : A → B → Prop) :
  (∀ s a, R a (f s a).2) → ∀ l s, Forall2 R l (map_state f s l).2.
Proof.
  intros Hf l. induction l as [|a l IH]; intros s; [constructor|].
  cbn [map_state snd]. constructor; [apply Hf | apply IH].
Qed.

Lemma Forall2_fmap_eq {A B C} (f : A → C) (g : B → C) l k :
  Forall2 (λ a b, f a = g b) l k → f <$> l = g <$> k.
Proof. induction 1 as [|a b l k Hab _ IH]; [done|]. cbn. by rewrite Hab, IH. Qed.

Lemma map_tbs_layout f h p :
  Forall2 same_layout (Program.gpus p) (Program.gpus (map_tbs f h p).2).
Proof.
  unfold map_tbs. cbn [snd Program.gpus Program.with_gpus].
  apply map_state_Forall2. intros s g. cbn [snd].
  unfold same_layout. cbn. split_and!; try done.
  - symmetry. apply Forall2_fmap_eq.
    apply (map_state_Forall2 _ (λ a b, Threadblock.id a = Threadblock.id b)).
    by intros.
  - symmetry. apply Forall2_fmap_eq.
    apply (map_state_Forall2 _
             (λ a b, Threadblock.channels a = Threadblock.channels b)).
    by intros.
Qed.

Lemma Ir_lower_deps_layout h p :
  Forall2 same_layout (Program.gpus p) (Program.gpus (Ir.lower_deps h p).2).
Proof. unfold Ir.lower_deps, Ir.lower_sync. cbn [snd]. apply map_tbs_layout. Qed.

Lemma IrMscclpp_lower_deps_layout h p :
  Forall2 same_layout (Program.gpus p)
    (Program.gpus (IrMscclpp.lower_deps h p).2).
Proof.
  unfold IrMscclpp.lower_deps, IrMscclpp.expand_nops. cbn [snd].
  case_bool_decide; [apply map_tbs_layout|].
  cbn [snd]. apply Forall_Forall2_diag, Forall_forall. intros g _.
  by unfold same_layout.
Qed.

Lemma Forall2_imap_fmap {A B C} (f : nat * A → option B) (g : B → C)
    (q : A → C) (l : list A) :
  (∀ ig j, f ig = Some j → g j = q ig.2) →
  ∀ (e : nat → A → nat * A) js,
    (∀ i x, (e i x).2 = x) →
    Forall2 (λ ig j, f ig = Some j) (imap e l) js → g <$> js = q <$> l.
Proof.
  intros Hf. induction l as [|x l IH]; intros e js He HF.
  - cbn in HF. by apply Forall2_nil_inv_l in HF as ->.
  - cbn [imap] in HF. apply Forall2_cons_inv_l in HF as (j & js' & Hj & HF & ->).
    cbn. f_equal.
    + rewrite (Hf _ _ Hj). by rewrite He.
    + apply (IH (e ∘ S)); [|done]. intros i y. apply He.
Qed.

Lemma mapM_enumerate_fmap {A B C} (f : nat * A → option B) (g : B → C)
    (q : A → C) (l : list A) js :
  (∀ ig j, f ig = Some j → g j = q ig.2) →
  mapM f (enumerate l) = Some js → g <$> js = q <$> l.
Proof.
  intros Hf Hm. apply mapM_Some in Hm.
  by apply (Forall2_imap_fmap f g q l Hf pair js).
Qed.

(** The capacities that the document shows for each device *)
Lemma Ir_dump_to_json_capacities `{Types} h p doc :
  Ir.dump_to_json h p = Some doc →
  gpu_field "inputChunks" doc =
    (λ g, Some (JInt (Gpu.input_chunks g))) <$> Program.gpus p ∧
  gpu_field "outputChunks" doc =
    (λ g, Some (JInt (Gpu.output_chunks g))) <$> Program.gpus p ∧
  gpu_field "scratchChunks" doc =
    (λ g, Some (JInt (Gpu.scratch_chunks g))) <$> Program.gpus p.
Proof.
  unfold Ir.dump_to_json. intros Hd.
  apply bind_Some in Hd as (ms & _ & Hd).
  apply bind_Some in Hd as (mi & _ & Hd).
  apply bind_Some in Hd as (mo & _ & Hd).
  apply bind_Some in Hd as (gs & Hm & [= <-]).
  unfold gpu_field.
  change (json_get "gpus" (JDict ?l)) with (dict_get "gpus" l).
  assert (Hg : ∀ k (q : Gpu.t → option json),
    (∀ ig j, Ir.dump_gpu h p mi mo ms ig = Some j → json_get k j = q ig.2) →
    json_get k <$> gs = q <$> Program.gpus p).
  { intros k q Hq. by eapply mapM_enumerate_fmap. }
  split_and!; apply Hg; intros ig j Hj; unfold Ir.dump_gpu in Hj;
    apply bind_Some in Hj as (objs & _ & Hj);
    apply bind_Some in Hj as (chans & _ & Hj);
    apply bind_Some in Hj as (tbs & _ & [= <-]); reflexivity.
Qed.

Lemma IrMscclpp_ir_to_json_inv `{Types} h p doc :
  IrMscclpp.ir_to_json h p = Some doc →
  ∃ p1 p3,
    infer_buffer_sizes IrMscclpp._local_src_insts_mscclpp
      IrMscclpp._local_dst_insts_mscclpp h p = Some p1 ∧
    alloc_channels p1 = Some p3 ∧
    IrMscclpp.dump_to_json (IrMscclpp.lower_deps h p3).1
      (IrMscclpp.lower_deps h p3).2 = Some doc.
Proof.
  unfold IrMscclpp.ir_to_json. intros Hd.
  apply bind_Some in Hd as (p1 & H1 & Hd).
  apply bind_Some in Hd as (p3 & H3 & Hd).
  by exists p1, p3.
Qed.

Lemma IrMscclpp_dump_to_json_capacities `{Types} h p doc :
  IrMscclpp.dump_to_json h p = Some doc →
  gpu_field "inputChunks" doc =
    (λ g, Some (JInt (Gpu.input_chunks g))) <$> Program.gpus p ∧
  gpu_field "outputChunks" doc =
    (λ g, Some (JInt (Gpu.output_chunks g))) <$> Program.gpus p ∧
  gpu_field "scratchChunks" doc =
    (λ g, Some (JInt (Gpu.scratch_chunks g))) <$> Program.gpus p.
Proof.
  unfold IrMscclpp.dump_to_json. intros Hd.
  apply bind_Some in Hd as (gs & Hm & [= <-]).
  unfold gpu_field.
  change (json_get "gpus" (JDict ?l)) with (dict_get "gpus" l).
  assert (Hg : ∀ k (q : Gpu.t → option json),
    (∀ ig j, IrMscclpp.dump_gpu h ig = Some j → json_get k j = q ig.2) →
    json_get k <$> gs = q <$> Program.gpus p).
  { intros k q Hq. by eapply mapM_enumerate_fmap. }
  split_and!; apply Hg; intros ig j Hj; unfold IrMscclpp.dump_gpu in Hj;
    apply bind_Some in Hj as (chans & _ & Hj);
    apply bind_Some in Hj as (tbs & _ & [= <-]); reflexivity.
Qed.

(** The capacities after the first pass, device by device *)
Lemma infer_buffer_sizes_capacities local_src local_dst h p p1 b :
  infer_buffer_sizes local_src local_dst h p = Some p1 →
  Program.protocol p1 = Program.protocol p ∧
  (λ g, capacity g b) <$> Program.gpus p1 =
    (λ g, Z.max (capacity g b)
            (required local_src local_dst h p (Gpu.rank g) b))
      <$> Program.gpus p.
Proof.
  unfold infer_buffer_sizes. intros Hi.
  apply bind_Some in Hi as (m & Hm & [= <-]). split; [done|].
  cbn [Program.gpus Program.with_gpus].
  rewrite <- list_fmap_compose. apply list_fmap_ext. intros i g _.
  cbn [compose]. unfold required, extents.
  pose proof (scan_gpus_extents _ _ _ _ _ _ (Gpu.rank g) b Hm) as Hx.
  assert (H0 : sizes_get ∅ (Gpu.rank g, b) = 0)
    by (unfold sizes_get; by rewrite lookup_empty).
  rewrite H0 in Hx. rewrite <- Hx.
  destruct b; cbn; lia.
Qed.

Lemma alloc_channels_layout p p3 :
  alloc_channels p = Some p3 →
  Program.protocol p3 = Program.protocol p ∧
  Forall2 (λ g g3, alloc_channels_gpu g = Some g3)
    (Program.gpus p) (Program.gpus p3).
Proof.
  unfold alloc_channels. intros Ha.
  apply bind_Some in Ha as (gs & Hm & [= <-]).
  split; [done|]. by apply mapM_Some in Hm.
Qed.

Lemma alloc_channels_gpu_capacity g g3 b :
  alloc_channels_gpu g = Some g3 →
  capacity g3 b = capacity g b ∧ Gpu.rank g3 = Gpu.rank g.
Proof.
  unfold alloc_channels_gpu. intros Hg.
  apply bind_Some in Hg as (tbs & _ & Hg).
  apply bind_Some in Hg as (d & _ & [= <-]). by destruct b.
Qed.

Lemma same_layout_capacity g g' b :
  same_layout g g' → capacity g' b = capacity g b.
Proof. intros (_ & Hi & Ho & Hs & _). by destruct b. Qed.

(** From the end of the first pass to the serializer, in [mscclpp/ir.py]
    when the scratch capacities are left alone and in [ir_mscclpp.py] *)
Lemma capacities_after_alloc (lower : Program.t → Program.t) p p3 b :
  alloc_channels p = Some p3 →
  (∀ q, Forall2 same_layout (Program.gpus q) (Program.gpus (lower q))) →
  (λ g, capacity g b) <$> Program.gpus (lower p3) =
  (λ g, capacity g b) <$> Program.gpus p.
Proof.
  intros Ha Hl. destruct (alloc_channels_layout _ _ Ha) as [_ HF].
  symmetry. apply Forall2_fmap_eq.
  eapply Forall2_trans; [| exact HF | apply Hl].
  intros g g3 g' Hg Hsl. cbn in *.
  rewrite (same_layout_capacity _ _ b Hsl).
  by destruct (alloc_channels_gpu_capacity _ _ b Hg).
Qed.

Lemma unify_scratch_capacities p1 p2 :
  Ir.unify_scratch p1 = Some p2 →
  Program.protocol p2 = Program.protocol p1 ∧
  (∀ b, b ≠ Buffer.scratch ∨ Program.protocol p1 ≠ "LL" →
     (λ g, capacity g b) <$> Program.gpus p2 =
     (λ g, capacity g b) <$> Program.gpus p1) ∧
  (Program.protocol p1 = "LL" →
   ∃ m, py_max (Gpu.scratch_chunks <$> Program.gpus p1) = Some m ∧
     (λ g, capacity g Buffer.scratch) <$> Program.gpus p2 =
     (λ _, m) <$> Program.gpus p1).
Proof.
  unfold Ir.unify_scratch. case_bool_decide as HLL.
  - intros Hu. apply bind_Some in Hu as (m & Hm & [= <-]).
    cbn [Program.gpus Program.with_gpus Program.protocol]. split_and!.
    + done.
    + intros b [Hb|Hb]; [|done]. rewrite <- list_fmap_compose.
      apply list_fmap_ext. intros i g _. by destruct b.
    + intros _. exists m. split; [done|].
      by rewrite <- list_fmap_compose.
  - intros [= <-]. split_and!; [done | done | done].
Qed.

Lemma gpu_field_capacity (doc : json) k b (gs : list Gpu.t) :
  gpu_field k doc = (λ g, Some (JInt (capacity g b))) <$> gs →
  ∀ zs, (λ g, capacity g b) <$> gs = zs →
  gpu_field k doc = (λ z, Some (JInt z)) <$> zs.
Proof. intros -> zs <-. by rewrite <- list_fmap_compose. Qed.

(** X9. The capacities in the document, end to end.  When [ir_to_json]
    of [mscclpp/ir.py] returns a document, the [i]-th device of the
    document shows as ["inputChunks"] and ["outputChunks"] the capacity
    that the [i]-th device of the program declares, or what the ops of
    the devices of its rank need if that is more; so does
    ["scratchChunks"] unless the protocol is ["LL"], in which case all
    devices show the largest of these scratch capacities.  The later
    passes (channel allocation, dependencies, no-ops, renumbering) change
    none of them.  With [ir_mscclpp.py] and its own instruction sets, the
    three fields are the inferred capacities under every protocol. *)
Theorem document_capacities `{Types} (h : list Op.t) (p : Program.t)
    (doc : json) :
  (Ir.ir_to_json h p = Some doc →
   let cap := inferred Ir._local_src_insts_mscclpp
                Ir._local_dst_insts_mscclpp h p in
   gpu_field "inputChunks" doc =
     (λ g, Some (JInt (cap Buffer.input g))) <$> Program.gpus p ∧
   gpu_field "outputChunks" doc =
     (λ g, Some (JInt (cap Buffer.output g))) <$> Program.gpus p ∧
   (Program.protocol p ≠ "LL" →
    gpu_field "scratchChunks" doc =
      (λ g, Some (JInt (cap Buffer.scratch g))) <$> Program.gpus p) ∧
   (Program.protocol p = "LL" →
    ∃ m, gpu_field "scratchChunks" doc =
           (λ _, Some (JInt m)) <$> Program.gpus p ∧
      m ∈ cap Buffer.scratch <$> Program.gpus p ∧
      ∀ x, x ∈ cap Buffer.scratch <$> Program.gpus p → x ≤ m)) ∧
  (IrMscclpp.ir_to_json h p = Some doc →
   let cap := inferred IrMscclpp._local_src_insts_mscclpp
                IrMscclpp._local_dst_insts_mscclpp h p in
   gpu_field "inputChunks" doc =
     (λ g, Some (JInt (cap Buffer.input g))) <$> Program.gpus p ∧
   gpu_field "outputChunks" doc =
     (λ g, Some (JInt (cap Buffer.output g))) <$> Program.gpus p ∧
   gpu_field "scratchChunks" doc =
     (λ g, Some (JInt (cap Buffer.scratch g))) <$> Program.gpus p).
Proof.
  split.
  - intros Hdoc cap.
    destruct (Ir_ir_to_json_inv _ _ _ Hdoc) as (p1 & p2 & p3 & H1 & H2 & H3 & Hd).
    destruct (Ir_dump_to_json_capacities _ _ _ Hd) as (Di & Do & Ds).
    assert (Hlow : ∀ b,
      (λ g, capacity g b) <$> Program.gpus (Ir.lower_deps h p3).2 =
      (λ g, capacity g b) <$> Program.gpus p2).
    { intros b.
      apply (capacities_after_alloc (λ q, (Ir.lower_deps h q).2) p2 p3 b H3).
      intros q. apply Ir_lower_deps_layout. }
    destruct (unify_scratch_capacities _ _ H2) as (_ & Hsame & HLL).
    assert (Hinf : ∀ b,
      (λ g, capacity g b) <$> Program.gpus p1 = cap b <$> Program.gpus p).
    { intros b. by destruct (infer_buffer_sizes_capacities _ _ _ _ _ b H1). }
    assert (Hprot : Program.protocol p1 = Program.protocol p)
      by (by destruct (infer_buffer_sizes_capacities _ _ _ _ _
                         Buffer.input H1)).
    split_and!.
    + rewrite (gpu_field_capacity doc _ Buffer.input _ Di _ eq_refl).
      rewrite Hlow, Hsame, Hinf by (by left).
      by rewrite <- list_fmap_compose.
    + rewrite (gpu_field_capacity doc _ Buffer.output _ Do _ eq_refl).
      rewrite Hlow, Hsame, Hinf by (by left).
      by rewrite <- list_fmap_compose.
    + intros Hne.
      rewrite (gpu_field_capacity doc _ Buffer.scratch _ Ds _ eq_refl).
      rewrite Hlow, Hsame, Hinf by (right; by rewrite Hprot).
      by rewrite <- list_fmap_compose.
    + intros HeqLL. rewrite <- Hprot in HeqLL.
      destruct (HLL HeqLL) as (m & Hm & Hscr). exists m.
      apply py_max_spec in Hm as [Hin Hmax].
      change (Gpu.scratch_chunks <$> Program.gpus p1) with
        ((λ g, capacity g Buffer.scratch) <$> Program.gpus p1) in Hin, Hmax.
      rewrite Hinf in Hin, Hmax. split_and!; [|done|done].
      rewrite (gpu_field_capacity doc _ Buffer.scratch _ Ds _ eq_refl).
      rewrite Hlow, Hscr, <- list_fmap_compose.
      apply (f_equal length) in Hscr.
      rewrite <- (Hinf Buffer.scratch) in *.
      clear -Hinf. specialize (Hinf Buffer.scratch).
      apply (f_equal length) in Hinf. rewrite !length_fmap in Hinf.
      revert Hinf. generalize (Program.gpus p). generalize (Program.gpus p1).
      induction l as [|x l IH]; intros [|y l'] Hlen; try done.
      cbn. f_equal. apply IH. by injection Hlen.
  - intros Hdoc cap.
    destruct (IrMscclpp_ir_to_json_inv _ _ _ Hdoc) as (p1 & p3 & H1 & H3 & Hd).
    destruct (IrMscclpp_dump_to_json_capacities _ _ _ Hd) as (Di & Do & Ds).
    assert (Hlow : ∀ b,
      (λ g, capacity g b) <$> Program.gpus (IrMscclpp.lower_deps h p3).2 =
      (λ g, capacity g b) <$> Program.gpus p1).
    { intros b.
      apply (capacities_after_alloc (λ q, (IrMscclpp.lower_deps h q).2)
               p1 p3 b H3).
      intros q. apply IrMscclpp_lower_deps_layout. }
    assert (Hinf : ∀ b,
      (λ g, capacity g b) <$> Program.gpus p1 = cap b <$> Program.gpus p).
    { intros b. by destruct (infer_buffer_sizes_capacities _ _ _ _ _ b H1). }
    split_and!.
    + rewrite (gpu_field_capacity doc _ Buffer.input _ Di _ eq_refl).
      rewrite Hlow, Hinf. by rewrite <- list_fmap_compose.
    + rewrite (gpu_field_capacity doc _ Buffer.output _ Do _ eq_refl).
      rewrite Hlow, Hinf. by rewrite <- list_fmap_compose.
    + rewrite (gpu_field_capacity doc _ Buffer.scratch _ Ds _ eq_refl).
      rewrite Hlow, Hinf. by rewrite <- list_fmap_compose.
Qed.

(** The low-latency sample: both devices show the same scratch capacity,
    and the input capacities 0 and 1. *)
Lemma document_capacities_witness :
  ∃ doc m,
    Ir.ir_to_json ll_heap ll_prog = Some doc ∧
    gpu_field "scratchChunks" doc = [Some (JInt m); Some (JInt m)] ∧
    gpu_field "inputChunks" doc = [Some (JInt 0); Some (JInt 1)].
Proof.
  assert (Hdoc : Ir.ir_to_json ll_heap ll_prog =
                 Some (default JNull (Ir.ir_to_json ll_heap ll_prog)))
    by (vm_compute; reflexivity).
  destruct (proj1 (document_capacities ll_heap ll_prog _) Hdoc)
    as (Hi & _ & _ & HLL).
  destruct (HLL eq_refl) as (m & Hm & _).
  exists (default JNull (Ir.ir_to_json ll_heap ll_prog)), m.
  split_and!; [exact Hdoc | exact Hm |].
  rewrite Hi. vm_compute. reflexivity.
Defined.

(** ** The order of [sorted] with a key *)

Section sorted_by_key.
Context {A K : Type} (klt : K → K → bool) (le : K → K → Prop) (f : A → K).
Hypothesis klt_true : ∀ a b, klt a b = true → le a b.
Hypothesis klt_false : ∀ a b, klt a b = false → le b a.
Hypothesis le_trans : ∀ a b c, le a b → le b c → le a c.

Lemma insert_by_key_sorted x s s' :
insert_sorted (by_key klt f) x s = Some s' →
StronglySorted (λ a b, le (f a) (f b)) s →
StronglySorted (λ a b, le (f a) (f b)) s'.
Proof.
revert s'. induction s as [|y s IH]; intros s' Hi Hs.
- injection Hi as <-. repeat constructor.
- cbn in Hi. apply StronglySorted_inv in Hs as [Hs Hy].
  destruct (klt (f y) (f x)) eqn:E.
  + apply fmap_Some in Hi as (t & Ht & ->).
    constructor; [by apply IH|].
    rewrite (insert_sorted_perm _ _ _ _ Ht).
    constructor; [by apply klt_true | done].
  + injection Hi as <-. constructor; [by constructor|].
    constructor; [by apply klt_false|].
    eapply Forall_impl; [exact Hy|]. intros z Hz. cbn in Hz.
    eapply le_trans; [|exact Hz]. by apply klt_false.
Qed.

Lemma py_sorted_by_key_sorted l s :
py_sorted (by_key klt f) l = Some s →
StronglySorted (λ a b, le (f a) (f b)) s.
Proof.
revert s. induction l as [|x l IH]; intros s Hs.
- injection Hs as <-. constructor.
- cbn in Hs. apply bind_Some in Hs as (t & Ht & Hs).
  eapply insert_by_key_sorted; [exact Hs | by apply IH].
Qed.
End sorted_by_key.

Lemma py_sorted_Z_sorted {A} (f : A → Z) l s :
  py_sorted (by_key Z_lt f) l = Some s →
  StronglySorted (λ a b, f a ≤ f b) s.
Proof.
  apply (py_sorted_by_key_sorted Z_lt Z.le f); unfold Z_lt.
  - intros a b Hab. apply bool_decide_eq_true in Hab. lia.
  - intros a b Hab. apply bool_decide_eq_false in Hab. lia.
  - intros a b c. lia.
Qed.

Lemma StronglySorted_filter {A} (R : relation A) (P : A → Prop)
    `{∀ x, Decision (P x)} l :
  StronglySorted R l → StronglySorted R (filter P l).
Proof.
  induction 1 as [|x l Hs IH Hx]; [constructor|].
  rewrite filter_cons. destruct (decide (P x)); [|done].
  constructor; [done|]. rewrite Forall_forall in Hx |- *.
  intros y Hy. apply list_elem_of_filter in Hy as [_ Hy]. by apply Hx.
Qed.

Lemma fmap_filter_comm {A B} (f : A → B) (P : B → Prop)
    `{∀ y, Decision (P y)} (l : list A) :
  f <$> filter (λ x, P (f x)) l = filter P (f <$> l).
Proof.
  induction l as [|x l IH]; [done|].
  rewrite fmap_cons, !filter_cons.
  destruct (decide (P (f x))); cbn; by rewrite IH.
Qed.

Lemma infer_buffer_sizes_threadblocks local_src local_dst h p p1 :
  infer_buffer_sizes local_src local_dst h p = Some p1 →
  Forall2 (λ g g', Gpu.threadblocks g' = Gpu.threadblocks g)
    (Program.gpus p) (Program.gpus p1).
Proof.
  unfold infer_buffer_sizes. intros Hi.
  apply bind_Some in Hi as (m & _ & [= <-]).
  cbn [Program.gpus Program.with_gpus].
  apply Forall2_fmap_r, Forall_Forall2_diag, Forall_forall. by intros.
Qed.

Lemma unify_scratch_threadblocks p1 p2 :
  Ir.unify_scratch p1 = Some p2 →
  Forall2 (λ g g', Gpu.threadblocks g' = Gpu.threadblocks g)
    (Program.gpus p1) (Program.gpus p2).
Proof.
  unfold Ir.unify_scratch. case_bool_decide.
  - intros Hu. apply bind_Some in Hu as (m & _ & [= <-]).
    cbn [Program.gpus Program.with_gpus].
    apply Forall2_fmap_r, Forall_Forall2_diag, Forall_forall. by intros.
  - intros [= <-]. apply Forall_Forall2_diag, Forall_forall. by intros.
Qed.

Lemma alloc_channels_gpu_threadblocks g g3 :
  alloc_channels_gpu g = Some g3 →
  StronglySorted (λ a b, Threadblock.id a ≤ Threadblock.id b)
    (Gpu.threadblocks g3) ∧
  Gpu.threadblocks g3 ≡ₚ Gpu.threadblocks g.
Proof.
  unfold alloc_channels_gpu. intros Hg.
  apply bind_Some in Hg as (tbs & Htbs & Hg).
  apply bind_Some in Hg as (d & _ & [= <-]). cbn. split.
  - by eapply py_sorted_Z_sorted.
  - by eapply py_sorted_perm.
Qed.

(** X10. The order of the threadblocks in the document.  [ir_to_json]
    of [mscclpp/ir.py] sorts the threadblocks of every device by id, and
    the later passes keep their order: the entries of ["threadblocks"]
    of the [i]-th device of the document have ascending ids, which are
    the non-negative ids of the threadblocks of the [i]-th device of the
    program, each as often as it occurs there. *)
Theorem threadblocks_ascending `{Types} (h : list Op.t) (p : Program.t)
    (doc : json) (i : nat) (g : Gpu.t) :
  Ir.ir_to_json h p = Some doc → Program.gpus p !! i = Some g →
  ∃ ids,
    json_get "id" <$> doc_threadblocks i doc = (λ z, Some (JInt z)) <$> ids ∧
    StronglySorted Z.le ids ∧
    ids ≡ₚ filter (λ z, 0 ≤ z) (Threadblock.id <$> Gpu.threadblocks g).
Proof.
  intros Hdoc Hg.
  destruct (Ir_ir_to_json_inv _ _ _ Hdoc) as (p1 & p2 & p3 & H1 & H2 & H3 & Hd).
  destruct (Forall2_lookup_l _ _ _ _ _
              (infer_buffer_sizes_threadblocks _ _ _ _ _ H1) Hg)
    as (g1 & Hg1 & Htb1).
  destruct (Forall2_lookup_l _ _ _ _ _
              (unify_scratch_threadblocks _ _ H2) Hg1)
    as (g2 & Hg2 & Htb2).
  destruct (Forall2_lookup_l _ _ _ _ _
              (proj2 (alloc_channels_layout _ _ H3)) Hg2)
    as (g3 & Hg3 & Ha).
  destruct (Forall2_lookup_l _ _ _ _ _ (Ir_lower_deps_layout h p3) Hg3)
    as (g4 & Hg4 & Hsl).
  destruct (alloc_channels_gpu_threadblocks _ _ Ha) as [Hsorted Hperm].
  destruct Hsl as (_ & _ & _ & _ & _ & Hids & _).
  exists (filter (λ z, 0 ≤ z) (Threadblock.id <$> Gpu.threadblocks g3)).
  split_and!.
  - rewrite (dump_to_json_threadblocks _ _ _ _ _ Hd Hg4).
    rewrite <- Hids, <- fmap_filter_comm, <- list_fmap_compose. done.
  - apply StronglySorted_filter.
    eapply StronglySorted_fmap; [|exact Hsorted]. done.
  - apply filter_Permutation, fmap_Permutation.
    by rewrite Hperm, Htb2, Htb1.
Qed.

(** The device of the first allocation sample lists its threadblock 1
    before its threadblock 0; the document has them in the order 0, 1. *)
Lemma threadblocks_ascending_witness :
  ∃ doc ids,
    Ir.ir_to_json [] det_prog1 = Some doc ∧
    json_get "id" <$> doc_threadblocks 0 doc = (λ z, Some (JInt z)) <$> ids ∧
    StronglySorted Z.le ids.
Proof.
  assert (Hdoc : Ir.ir_to_json [] det_prog1 =
                 Some (default JNull (Ir.ir_to_json [] det_prog1)))
    by (vm_compute; reflexivity).
  destruct (threadblocks_ascending [] det_prog1 _ 0%nat _ Hdoc eq_refl)
    as (ids & Hids & Hs & _).
  exists (default JNull (Ir.ir_to_json [] det_prog1)), ids.
  split_and!; [exact Hdoc | exact Hids | exact Hs].
Defined.

(** ** The channel lists of the document *)

Lemma ltb_lt a b :
  String.ltb a b = true ↔ OrderedTypeEx.String_as_OT.lt a b.
Proof.
  rewrite <- OrderedTypeEx.String_as_OT.cmp_lt.
  unfold String.ltb, OrderedTypeEx.String_as_OT.cmp.
  by destruct (String.compare a b).
Qed.

Lemma ltb_false a b : String.ltb a b = false → str_le b a.
Proof.
  unfold str_le, String.ltb. intros Hab.
  destruct (String.compare a b) eqn:E; [| done |].
  - left. symmetry. by apply OrderedTypeEx.String_as_OT.cmp_eq.
  - right. rewrite String.compare_antisym, E. done.
Qed.

Lemma ltb_trans a b c :
  String.ltb a b = true → String.ltb b c = true → String.ltb a c = true.
Proof.
  rewrite !ltb_lt. apply OrderedTypeEx.String_as_OT.lt_trans.
Qed.

Lemma ltb_irrefl a : String.ltb a a = false.
Proof.
  unfold String.ltb.
  pose proof (proj2 (OrderedTypeEx.String_as_OT.cmp_eq a a) eq_refl) as He.
  unfold OrderedTypeEx.String_as_OT.cmp in He. by rewrite He.
Qed.

Lemma str_le_trans a b c : str_le a b → str_le b c → str_le a c.
Proof.
  intros [->|Hab] [->|Hbc]; [by left | by right | by right |].
  right. by eapply ltb_trans.
Qed.

Lemma str2_lt_true a b : str2_lt a b = true → str2_le a b.
Proof.
  unfold str2_lt, str2_le. case_bool_decide as He.
  - intros Hlt. right. split; [done|]. by right.
  - intros Hlt. by left.
Qed.

Lemma str2_lt_false a b : str2_lt a b = false → str2_le b a.
Proof.
  unfold str2_lt, str2_le. case_bool_decide as He.
  - intros Hlt. right. split; [done|]. by apply ltb_false.
  - intros Hlt. left. split; [done|].
    destruct (ltb_false _ _ Hlt) as [Heq|Hlt']; [by symmetry in Heq | done].
Qed.

Lemma str2_le_trans a b c : str2_le a b → str2_le b c → str2_le a c.
Proof.
  unfold str2_le.
  intros [[Hne1 H1]|[E1 H1]] [[Hne2 H2]|[E2 H2]].
  - left. split; [|by eapply ltb_trans].
    intros Heq. rewrite Heq in H1.
    pose proof (ltb_trans _ _ _ H1 H2) as Hcc. by rewrite ltb_irrefl in Hcc.
  - left. by rewrite <- E2.
  - left. by rewrite E1.
  - right. split; [congruence|]. by eapply str_le_trans.
Qed.

Lemma py_sorted_str2_sorted {A} (f : A → string * string) l s :
  py_sorted (by_key str2_lt f) l = Some s →
  StronglySorted (λ a b, str2_le (f a) (f b)) s.
Proof.
  apply (py_sorted_by_key_sorted str2_lt str2_le f).
  - apply str2_lt_true.
  - apply str2_lt_false.
  - apply str2_le_trans.
Qed.

(** X11. The list ["channels"] of a device of the document
    ([mscclpp/ir.py]).  It has one entry for every key of the device's
    channel table whose type is not ["none"], and no other; the entries
    are in ascending order of the pair (source buffer, destination
    buffer) of their keys; each entry shows its type, which is never
    ["none"]. *)
Theorem device_channels `{Types} (h : list Op.t) (p : Program.t)
    (mi mo ms : Z) (ig : nat * Gpu.t) (j : json) :
  Ir.dump_gpu h p mi mo ms ig = Some j →
  ∃ objs chans,
    mapM Ir.gpu_channel_obj (Gpu.channels ig.2) = Some objs ∧
    json_get "channels" j =
      Some (JList (Ir.render_channel mi mo ms <$> chans)) ∧
    chans ≡ₚ filter (λ x, GpuChannel.type x ≠ "none") objs ∧
    StronglySorted
      (λ a b, str2_le (gpu_channel_key a) (gpu_channel_key b)) chans ∧
    ∀ e, e ∈ Ir.render_channel mi mo ms <$> chans →
      ∃ t, json_get "type" e = Some (JStr t) ∧ t ≠ "none".
Proof.
  unfold Ir.dump_gpu. intros Hj.
  apply bind_Some in Hj as (objs & Hobjs & Hj).
  apply bind_Some in Hj as (chans & Hchans & Hj).
  apply bind_Some in Hj as (tbs & _ & [= <-]).
  exists objs, chans. split_and!.
  - done.
  - reflexivity.
  - by eapply py_sorted_perm.
  - by eapply py_sorted_str2_sorted.
  - intros e He. apply list_elem_of_fmap in He as (x & -> & Hx).
    rewrite (py_sorted_perm _ _ _ Hchans) in Hx.
    apply list_elem_of_filter in Hx as [Hty _].
    exists (GpuChannel.type x). split; [|done].
    unfold Ir.render_channel. case_bool_decide; reflexivity.
Qed.

(** The device of the placeholder sample has one channel key, of type
    ["sm"]. *)
Lemma device_channels_witness :
  ∃ j chans,
    Ir.dump_gpu [] neg_prog 0 0 0
      (0%nat, default (Gpu.mk 0 [] 0 0 0 [])
                (alloc_channels_gpu (Gpu.mk 0 [neg_tb0; neg_tb] 0 0 0 [])))
      = Some j ∧
    json_get "channels" j =
      Some (JList (Ir.render_channel 0 0 0 <$> chans)) ∧
    length chans = 1%nat.
Proof.
  eassert (Hj : Ir.dump_gpu [] neg_prog 0 0 0
      (0%nat, default (Gpu.mk 0 [] 0 0 0 [])
                (alloc_channels_gpu (Gpu.mk 0 [neg_tb0; neg_tb] 0 0 0 [])))
      = Some _) by (vm_compute; reflexivity).
  destruct (device_channels _ _ _ _ _ _ _ Hj)
    as (objs & chans & Hobjs & Hc & Hp & _).
  eexists _, chans. split_and!; [exact Hj | exact Hc |].
  rewrite Hp. vm_compute in Hobjs. injection Hobjs as <-. reflexivity.
Defined.

(** X12. The list ["channels"] of a threadblock of the document.  In
    [mscclpp/ir.py] it has one entry for every key of the device's table
    under which the threadblock itself has a channel and whose type is
    not ["none"]: every entry has a type other than ["none"] and a
    non-empty list ["cids"].  In [ir_mscclpp.py] it has one entry for
    every key of the device's table whose type is not ["none"], whether
    or not the threadblock has a channel under it.  In both, the entries
    are in ascending order of (source buffer, destination buffer). *)
Theorem threadblock_channels `{Types} (h : list Op.t) (g : Gpu.t)
    (tb : Threadblock.t) (l : list json) :
  0 ≤ Threadblock.id tb →
  (Ir.dump_tb h g tb = Some l →
   ∃ j chans,
     l = [j] ∧
     json_get "channels" j = Some (JList (tb_channel_json <$> chans)) ∧
     chans ≡ₚ filter (λ x, TbChannel.type x ≠ "none")
                (Ir.tb_channel_dict g tb).*2 ∧
     StronglySorted
       (λ a b, str2_le (tb_channel_key a) (tb_channel_key b)) chans ∧
     ∀ e, e ∈ tb_channel_json <$> chans →
       ∃ t cids, json_get "ctype" e = Some (JStr t) ∧ t ≠ "none" ∧
         json_get "cids" e = Some (JList cids) ∧ cids ≠ []) ∧
  (IrMscclpp.dump_tb h g tb = Some l →
   ∃ j chans,
     l = [j] ∧
     json_get "channels" j = Some (JList (tb_channel_json <$> chans)) ∧
     length chans =
       length (filter (λ kv : Buffer.t * Buffer.t * ChannelType.t
                              * list (Z * ConnectedTo),
                         ChannelType_value kv.1.2 ≠ "none")
                 (Gpu.channels g)) ∧
     StronglySorted
       (λ a b, str2_le (tb_channel_key a) (tb_channel_key b)) chans).
Proof.
  intros Hid. split.
  - unfold Ir.dump_tb. rewrite bool_decide_eq_false_2 by lia. intros Hl.
    apply bind_Some in Hl as (chans & Hchans & Hl).
    apply bind_Some in Hl as (ops & _ & [= <-]).
    eexists _, chans. split_and!.
    + reflexivity.
    + reflexivity.
    + by eapply py_sorted_perm.
    + by eapply py_sorted_str2_sorted.
    + intros e He. apply list_elem_of_fmap in He as (x & -> & Hx).
      rewrite (py_sorted_perm _ _ _ Hchans) in Hx.
      apply list_elem_of_filter in Hx as [Hty Hx].
      apply list_elem_of_fmap in Hx as ([k x'] & -> & Hx).
      apply list_elem_of_filter in Hx as [Hne _]. cbn in Hne.
      eexists _, _. split_and!; [reflexivity | exact Hty | reflexivity |].
      intros Hnil. by apply fmap_nil_inv in Hnil.
  - unfold IrMscclpp.dump_tb. rewrite bool_decide_eq_false_2 by lia.
    intros Hl.
    apply bind_Some in Hl as (chans & Hchans & Hl).
    apply bind_Some in Hl as (ops & _ & [= <-]).
    eexists _, chans. split_and!.
    + reflexivity.
    + reflexivity.
    + rewrite (Permutation_length (py_sorted_perm _ _ _ Hchans)).
      rewrite <- list_fmap_compose.
      by rewrite (length_filter_fmap _ (λ x, TbChannel.type x ≠ "none")).
    + by eapply py_sorted_str2_sorted.
Qed.

(** Threadblock 0 of the placeholder sample, with the table of its
    device: one entry, for its channel to rank 1 *)
Lemma threadblock_channels_witness :
  ∃ j chans,
    Ir.dump_tb [] (Gpu.mk 0 [neg_tb0] 0 0 0
                     [((Buffer.input, Buffer.scratch, ChannelType.sm),
                       [(-1, ToRank 5); (0, ToRank 1)])])
      (Threadblock.mk 0 [] [ch_to 1] 0) = Some [j] ∧
    json_get "channels" j = Some (JList (tb_channel_json <$> chans)) ∧
    length chans = 1%nat.
Proof.
  eassert (Hl : Ir.dump_tb [] (Gpu.mk 0 [neg_tb0] 0 0 0
                     [((Buffer.input, Buffer.scratch, ChannelType.sm),
                       [(-1, ToRank 5); (0, ToRank 1)])])
      (Threadblock.mk 0 [] [ch_to 1] 0) = Some _)
    by (vm_compute; reflexivity).
  assert (Hid : 0 ≤ Threadblock.id (Threadblock.mk 0 [] [ch_to 1] 0)) by done.
  destruct (proj1 (threadblock_channels _ _ _ _ Hid) Hl)
    as (j & chans & Hj & Hc & Hp & _).
  exists j, chans. split_and!; [by rewrite Hl, Hj | exact Hc |].
  by rewrite Hp.
Defined.

(** ** Multicast channels in the list of a device *)

(** X13. The entry of a multicast ([nvls]) key in the list
    ["channels"] of a device ([mscclpp/ir.py]).  Building it raises
    unless every channel under the key is connected to a list of ranks.
    Each list of ranks is shown in ascending order, with the ranks it
    was declared with.  When the values of the three buffers are
    distinct strings and the value of the type is ["nvls"], the entry is
    rendered as [{"buff", "type", "rankGroups"}]: the destination buffer
    is not shown, and every rank group has as size the maximum that
    [dump_to_json] computed for the source buffer of the key. *)
Theorem multicast_rank_groups `{Types}
    (kv : Buffer.t * Buffer.t * ChannelType.t * list (Z * ConnectedTo)) :
  kv.1.2 = ChannelType.nvls →
  (is_Some (Ir.gpu_channel_obj kv) ↔
   ∀ e, e ∈ kv.2 → ∃ rs, e.2 = ToRanks rs) ∧
  (∀ obj, Ir.gpu_channel_obj kv = Some obj →
     Forall2 (λ (e : Z * ConnectedTo) c,
        ∃ rs rs', e.2 = ToRanks rs ∧ c = ToRanks rs' ∧
          rs' ≡ₚ rs ∧ StronglySorted Z.le rs')
       kv.2 (GpuChannel.connectedTo obj) ∧
     ∀ mi mo ms,
       ChannelType_value ChannelType.nvls = "nvls" →
       Inj (=) (=) Buffer_value →
       Ir.render_channel mi mo ms obj =
         JDict [("buff", JStr (Buffer_value kv.1.1.1));
                ("type", JStr "nvls");
                ("rankGroups",
                 JList ((λ ranks,
                          JDict [("size",
                                  JInt match kv.1.1.1 with
                                       | Buffer.input => mi
                                       | Buffer.output => mo
                                       | Buffer.scratch => ms
                                       end);
                                 ("ranks", conn_json ranks)])
                        <$> GpuChannel.connectedTo obj))]).
Proof.
  intros Hty. unfold Ir.gpu_channel_obj.
  rewrite bool_decide_eq_true_2 by done. split.
  - split.
    + intros [obj Hobj] e He.
      apply bind_Some in Hobj as (cs & Hcs & _).
      assert (is_Some (mapM (λ eles,
                match eles with
                | ToRanks rs => ToRanks <$> py_sorted (by_key Z_lt id) rs
                | ToRank _ => None
                end) kv.2.*2)) as Hsome by (by rewrite Hcs).
      rewrite mapM_is_Some, Forall_fmap, Forall_forall in Hsome.
      specialize (Hsome e He). cbn in Hsome.
      destruct e.2 as [?|rs]; [by destruct Hsome | by exists rs].
    + intros Hall.
      assert (is_Some (mapM (λ eles,
                match eles with
                | ToRanks rs => ToRanks <$> py_sorted (by_key Z_lt id) rs
                | ToRank _ => None
                end) kv.2.*2)) as [cs Hcs].
      { rewrite mapM_is_Some, Forall_fmap, Forall_forall.
        intros e He. cbn. destruct (Hall e He) as [rs ->].
        destruct (py_sorted_by_key_is_Some Z_lt id rs) as [s ->].
        by eexists. }
      rewrite Hcs. by eexists.
  - intros obj Hobj. apply bind_Some in Hobj as (cs & Hcs & [= <-]).
    cbn [GpuChannel.connectedTo]. split.
    + apply mapM_Some in Hcs. apply Forall2_fmap_l in Hcs.
      eapply Forall2_impl; [exact Hcs|]. intros e c Hec. cbn in Hec.
      destruct e.2 as [?|rs]; [done|].
      apply fmap_Some in Hec as (s & Hs & ->).
      exists rs, s. split_and!; [done | done | |].
      * by eapply py_sorted_perm.
      * by apply (py_sorted_Z_sorted id) in Hs.
    + intros mi mo ms Hnvls Hinj. unfold Ir.render_channel.
      cbn [GpuChannel.type GpuChannel.srcbuff GpuChannel.connectedTo].
      rewrite Hty, Hnvls. rewrite bool_decide_eq_true_2 by done.
      destruct kv.1.1.1.
      * by rewrite bool_decide_eq_true_2.
      * rewrite bool_decide_eq_false_2
          by (intros He; by apply Hinj in He).
        by rewrite bool_decide_eq_true_2.
      * rewrite !bool_decide_eq_false_2
          by (intros He; by apply Hinj in He).
        done.
Qed.

(** The key of the multicast sample, with a list of ranks declared in
    descending order *)
Lemma multicast_rank_groups_witness :
  Ir.render_channel 7 8 9
    (default (GpuChannel.mk "" "" "" [])
       (Ir.gpu_channel_obj (mc_key, [(0, ToRanks [2; 1])]))) =
  JDict [("buff", JStr "i"); ("type", JStr "nvls");
         ("rankGroups",
          JList [JDict [("size", JInt 7);
                        ("ranks", JList [JInt 1; JInt 2])]])].
Proof.
  eassert (Hobj : Ir.gpu_channel_obj (mc_key, [(0, ToRanks [2; 1])]) = Some _)
    by (vm_compute; reflexivity).
  assert (Hinj : Inj (=) (=) Buffer_value).
  { intros [] []; cbn; intros He; try done; discriminate. }
  destruct (proj2 (multicast_rank_groups (mc_key, [(0, ToRanks [2; 1])])
                     eq_refl) _ Hobj) as [_ Hr].
  rewrite Hobj. cbn [default from_option id].
  rewrite (Hr 7 8 9 eq_refl Hinj). reflexivity.
Defined.

(** ** The no-ops of the older lowering *)

Lemma lookup_ext_l (h0 ext : list Op.t) r :
  (r < length h0)%nat → (h0 ++ ext) !! r = h0 !! r.
Proof. intros Hr. by apply lookup_app_l. Qed.

Lemma view_ext_l (h0 ext : list Op.t) r :
  (r < length h0)%nat →
  (inst_of (h0 ++ ext) r, depends_of (h0 ++ ext) r) =
  (inst_of h0 r, depends_of h0 r).
Proof.
  intros Hr. unfold inst_of, depends_of. by rewrite lookup_ext_l.
Qed.

Lemma view_fresh_nops (h : list Op.t) (deps : list nat) :
  (λ m, (inst_of (h ++ ((λ d, nop_op [d]) <$> deps)) m,
         depends_of (h ++ ((λ d, nop_op [d]) <$> deps)) m))
    <$> seq (length h) (length deps) =
  (λ d, (Some Instruction.nop, [d])) <$> deps.
Proof.
  apply list_eq. intros i. rewrite !list_lookup_fmap.
  destruct (deps !! i) as [d|] eqn:Hd.
  - rewrite lookup_seq_lt by (by eapply lookup_lt_Some). cbn.
    unfold inst_of, depends_of.
    rewrite lookup_app_r by lia.
    replace (length h + i - length h)%nat with i by lia.
    by rewrite list_lookup_fmap, Hd.
  - rewrite lookup_seq_ge by (by apply lookup_ge_None). done.
Qed.

Lemma expand_ops_spec (h0 ext : list Op.t) (rs : list nat) :
  (∀ r, r ∈ rs → (r < length h0)%nat) →
  (IrMscclpp.expand_ops (h0 ++ ext) rs).1 =
    (h0 ++ ext) ++ ((λ d, nop_op [d]) <$> (rs ≫= depends_of h0)) ∧
  (∀ m, m ∈ (IrMscclpp.expand_ops (h0 ++ ext) rs).2 →
     (m < length (IrMscclpp.expand_ops (h0 ++ ext) rs).1)%nat) ∧
  (λ m, (inst_of (IrMscclpp.expand_ops (h0 ++ ext) rs).1 m,
         depends_of (IrMscclpp.expand_ops (h0 ++ ext) rs).1 m))
    <$> (IrMscclpp.expand_ops (h0 ++ ext) rs).2 =
  rs ≫= (λ r, ((λ d, (Some Instruction.nop, [d])) <$> depends_of h0 r)
              ++ [(inst_of h0 r, depends_of h0 r)]).
Proof.
  unfold IrMscclpp.expand_ops.
  induction rs as [|r rs IH] using rev_ind; intros Hvalid.
  { cbn. split_and!; [by rewrite app_nil_r | | done].
    intros m Hm. by apply elem_of_nil in Hm. }
  destruct IH as (IH1 & IH2 & IH3).
  { intros x Hx. apply Hvalid. apply elem_of_app. by left. }
  assert (Hr : (r < length h0)%nat).
  { apply Hvalid. apply elem_of_app. right. left. }
  rewrite foldl_app. cbn [foldl].
  set (res := foldl IrMscclpp.expand_op (h0 ++ ext, []) rs) in *.
  unfold IrMscclpp.expand_op. cbn [fst snd].
  assert (Hdeps : depends_of res.1 r = depends_of h0 r).
  { rewrite IH1, <- app_assoc. unfold depends_of. by rewrite lookup_ext_l. }
  assert (Hinst : inst_of res.1 r = inst_of h0 r).
  { rewrite IH1, <- app_assoc. unfold inst_of. by rewrite lookup_ext_l. }
  assert (Hlen0 : (length h0 ≤ length res.1)%nat).
  { rewrite IH1, !length_app. lia. }
  rewrite Hdeps. split_and!.
  - rewrite IH1, bind_app, fmap_app, <- !app_assoc. cbn. by rewrite app_nil_r.
  - intros m Hm. rewrite length_app, length_fmap.
    apply elem_of_app in Hm as [Hm|Hm]; [specialize (IH2 m Hm); lia|].
    apply elem_of_app in Hm as [Hm|Hm].
    + apply elem_of_seq in Hm. lia.
    + apply list_elem_of_singleton in Hm. subst m. lia.
  - rewrite !fmap_app, bind_app. cbn [mbind list_bind]. rewrite app_nil_r.
    f_equal; [|f_equal].
    + rewrite <- IH3. apply list_fmap_ext. intros i m Hm.
      apply list_elem_of_lookup_2 in Hm. specialize (IH2 m Hm).
      unfold inst_of, depends_of. by rewrite lookup_app_l.
    + apply view_fresh_nops.
    + cbn [fmap list_fmap]. rewrite (view_ext_l res.1 _ r) by lia.
      by rewrite Hinst, Hdeps.
Qed.

Lemma expand_tbs_spec (h0 : list Op.t) (tbs : list Threadblock.t)
    (ext : list Op.t) :
  (∀ r, r ∈ tbs ≫= Threadblock.ops → (r < length h0)%nat) →
  (map_state expand_tb (h0 ++ ext) tbs).1 =
    (h0 ++ ext)
    ++ ((λ d, nop_op [d]) <$> ((tbs ≫= Threadblock.ops) ≫= depends_of h0)) ∧
  Forall2 (λ tb tb',
     Threadblock.id tb' = Threadblock.id tb ∧
     (λ m, (inst_of (map_state expand_tb (h0 ++ ext) tbs).1 m,
            depends_of (map_state expand_tb (h0 ++ ext) tbs).1 m))
       <$> Threadblock.ops tb' =
     Threadblock.ops tb ≫=
       (λ r, ((λ d, (Some Instruction.nop, [d])) <$> depends_of h0 r)
             ++ [(inst_of h0 r, depends_of h0 r)]))
    tbs (map_state expand_tb (h0 ++ ext) tbs).2.
Proof.
  intros Hvalid. revert ext.
  induction tbs as [|tb tbs IH]; intros ext.
  { cbn. split; [by rewrite app_nil_r | constructor]. }
  rewrite bind_cons in Hvalid.
  destruct (expand_ops_spec h0 ext (Threadblock.ops tb)) as (E1 & E2 & E3).
  { intros r Hr. apply Hvalid. apply elem_of_app. by left. }
  cbn [map_state fst snd].
  assert (Hsb : (expand_tb (h0 ++ ext) tb).1 =
                h0 ++ (ext ++ ((λ d, nop_op [d])
                  <$> (Threadblock.ops tb ≫= depends_of h0)))).
  { unfold expand_tb. cbn [fst]. by rewrite E1, <- app_assoc. }
  rewrite Hsb.
  destruct (IH (λ r Hr, Hvalid r (proj2 (elem_of_app _ _ _) (or_intror Hr)))
              (ext ++ ((λ d, nop_op [d])
                 <$> (Threadblock.ops tb ≫= depends_of h0))))
    as [IH1 IH2].
  split.
  - rewrite IH1, bind_cons, bind_app, fmap_app, <- !app_assoc. done.
  - constructor; [|exact IH2]. split; [done|].
    rewrite IH1.
    unfold expand_tb. cbn [snd Threadblock.ops Threadblock.with_ops].
    rewrite <- E3. apply list_fmap_ext. intros i m Hm.
    apply list_elem_of_lookup_2 in Hm. specialize (E2 m Hm).
    rewrite E1 in E2 |- *.
    rewrite <- (app_assoc h0 ext) in E2 |- *.
    unfold inst_of, depends_of. by rewrite lookup_app_l.
Qed.

Lemma expand_nops_flat h p :
  (map_tbs IrMscclpp.expand_ops h p).1 =
    (map_state expand_tb h (tbs_of p)).1 ∧
  tbs_of (map_tbs IrMscclpp.expand_ops h p).2 =
    (map_state expand_tb h (tbs_of p)).2.
Proof. apply map_tbs_flat. Qed.

(** X14. The no-ops of [ir_mscclpp.py].  Under the protocol ["LL"]
    the pass is skipped: store and program stay as they are, whatever the
    ops depend on.  Under any other protocol, for a program whose ops
    are objects of the store: the store gets, after the ops it holds, one
    new no-op per dependency of every op of the program, and the final
    list of a threadblock is, for each of its ops in order, one no-op per
    dependency of the op, each depending on exactly that dependency, in
    the order of the dependency list, followed by the op itself, which
    keeps its dependencies.  (Unlike [mscclpp/ir.py], no instruction is
    exempt, dependencies on barriers count, and nothing is folded into a
    preceding no-op.) *)
Theorem legacy_noops (h : list Op.t) (p : Program.t) :
  (Program.protocol p = "LL" → IrMscclpp.expand_nops h p = (h, p)) ∧
  (Program.protocol p ≠ "LL" →
   (∀ r, r ∈ all_ops p → (r < length h)%nat) →
   (IrMscclpp.expand_nops h p).1 =
     h ++ ((λ d, nop_op [d]) <$> (all_ops p ≫= depends_of h)) ∧
   Forall2 (λ tb tb',
      Threadblock.id tb' = Threadblock.id tb ∧
      (λ m, (inst_of (IrMscclpp.expand_nops h p).1 m,
             depends_of (IrMscclpp.expand_nops h p).1 m))
        <$> Threadblock.ops tb' =
      Threadblock.ops tb ≫=
        (λ r, ((λ d, (Some Instruction.nop, [d])) <$> depends_of h r)
              ++ [(inst_of h r, depends_of h r)]))
     (tbs_of p) (tbs_of (IrMscclpp.expand_nops h p).2)).
Proof.
  unfold IrMscclpp.expand_nops. split.
  - intros HLL. rewrite bool_decide_eq_false_2; [done|]. by intros Hne.
  - intros Hne Hvalid. rewrite bool_decide_eq_true_2 by done.
    destruct (expand_nops_flat h p) as [-> ->].
    destruct (expand_tbs_spec h (tbs_of p) [] Hvalid) as [H1 H2].
    rewrite app_nil_r in H1, H2. split; [exact H1 | exact H2].
Qed.

(** The first sample: the signal depends on the put and the wait on the
    signal, so the store gets two no-ops. *)
Lemma legacy_noops_witness :
  (IrMscclpp.expand_nops ex_heap ex_prog).1 =
    ex_heap ++ [nop_op [0%nat]; nop_op [1%nat]].
Proof.
  assert (Hne : Program.protocol ex_prog ≠ "LL") by discriminate.
  assert (Hvalid : ∀ r, r ∈ all_ops ex_prog → (r < length ex_heap)%nat).
  { intros r Hr. apply (bool_decide_unpack _).
    repeat (apply elem_of_cons in Hr as [->|Hr]; [by vm_compute|]).
    by apply elem_of_nil in Hr. }
  rewrite (proj1 (proj2 (legacy_noops ex_heap ex_prog) Hne Hvalid)).
  reflexivity.
Defined.

(** ** The no-ops that [mscclpp/ir.py] inserts *)

Lemma nop_depends_ext h0 h r :
  heap_ext h0 h → depends_of h r = depends_of h0 r →
  Ir.nop_depends h r = Ir.nop_depends h0 r.
Proof.
  intros Hext Hdeps. unfold Ir.nop_depends. rewrite Hdeps.
  apply list_filter_iff. intros d. split.
  - intros Hn Hb. apply Hn. by eapply heap_ext_inst.
  - by apply heap_ext_not_barrier.
Qed.

Lemma is_marker_app_l (h : list Op.t) x m :
  (m < length h)%nat → Ir.is_marker (h ++ [x]) m = Ir.is_marker h m.
Proof.
  intros Hm. unfold Ir.is_marker, inst_of. by rewrite lookup_app_l.
Qed.

Lemma lower_ops_fresh h0 rs :
  NoDup rs → (∀ r, r ∈ rs → (r < length h0)%nat) →
  ∀ k m,
    (Ir.lower_ops h0 rs).2 !! k = Some m → (length h0 ≤ m)%nat →
    inst_of (Ir.lower_ops h0 rs).1 m = Some Instruction.nop ∧
    (∃ r, (Ir.lower_ops h0 rs).2 !! S k = Some r ∧ r ∈ rs ∧
       Ir.no_need_sync h0 r = false ∧
       depends_of (Ir.lower_ops h0 rs).1 m = Ir.nop_depends h0 r ∧
       Ir.nop_depends h0 r ≠ []) ∧
    (∀ k' m', k = S k' → (Ir.lower_ops h0 rs).2 !! k' = Some m' →
       Ir.is_marker (Ir.lower_ops h0 rs).1 m' = false).
Proof.
  induction rs as [|r rs IH] using rev_ind; intros Hnd Hvalid.
  { unfold Ir.lower_ops. cbn. by intros k m Hk. }
  apply NoDup_app in Hnd as (Hnd & Hdisj & _).
  assert (Hr : r ∉ rs).
  { intros Hin. apply (Hdisj r Hin). left. }
  assert (Hrlt : (r < length h0)%nat).
  { apply Hvalid. apply elem_of_app. right. left. }
  assert (Hvalid' : ∀ x, x ∈ rs → (x < length h0)%nat).
  { intros x Hx. apply Hvalid. apply elem_of_app. by left. }
  specialize (IH Hnd Hvalid').
  destruct (lower_ops_distinct h0 rs Hnd Hvalid') as (_ & Hframe & _).
  destruct (lower_ops_inv h0 rs) as (Hext & _ & Hmem & _ & _).
  unfold Ir.lower_ops in *. rewrite foldl_app. cbn [foldl].
  destruct (foldl Ir.lower_op (h0, []) rs) as [h new] eqn:Hst.
  cbn [fst snd] in *.
  assert (Hlen : (length h0 ≤ length h)%nat) by apply Hext.
  assert (Hnewlt : ∀ m, m ∈ new → (m < length h)%nat).
  { intros m Hm. destruct (Hmem m Hm) as [Hin|?]; [|lia].
    specialize (Hvalid' m Hin). lia. }
  assert (Hrdeps : depends_of h r = depends_of h0 r).
  { apply depends_of_eq. by apply Hframe. }
  assert (Hin_rs : ∀ y, y ∈ rs → y ∈ rs ++ [r])
    by (intros; apply elem_of_app; by left).
  assert (Hlast_old : ∀ m, last new = Some m → (m < length h0)%nat).
  { intros m Hl. apply last_lookup_pred in Hl as [Hl Hpos].
    destruct (decide (m < length h0)%nat) as [|Hge]; [done|].
    destruct (IH _ _ Hl ltac:(lia)) as (_ & (r0 & Hr0 & _) & _).
    apply lookup_lt_Some in Hr0. lia. }
  (* what the step keeps of an entry that is there already *)
  assert (Hold : ∀ h' suf,
    (∀ m, m ∈ new → (length h0 ≤ m)%nat →
       inst_of h' m = inst_of h m ∧ depends_of h' m = depends_of h m) →
    (∀ m, m ∈ new → Ir.is_marker h' m = Ir.is_marker h m) →
    ∀ k m, new !! k = Some m → (length h0 ≤ m)%nat →
      inst_of h' m = Some Instruction.nop ∧
      (∃ r0, (new ++ suf) !! S k = Some r0 ∧ r0 ∈ rs ++ [r] ∧
         Ir.no_need_sync h0 r0 = false ∧
         depends_of h' m = Ir.nop_depends h0 r0 ∧
         Ir.nop_depends h0 r0 ≠ []) ∧
      (∀ k' m', k = S k' → (new ++ suf) !! k' = Some m' →
         Ir.is_marker h' m' = false)).
  { intros h' suf Hsame Hmark k m Hk Hm.
    assert (m ∈ new) as Hmnew by (by eapply list_elem_of_lookup_2).
    destruct (IH k m Hk Hm) as (Hi & (r0 & Hr0 & Hr0rs & Hns & Hd & Hne) & Hp).
    destruct (Hsame m Hmnew Hm) as [-> ->]. split_and!.
    - done.
    - exists r0. split_and!; [by apply lookup_app_l_Some | by apply Hin_rs
                              | done | done | done].
    - intros k' m' -> Hk'.
      rewrite lookup_app_l in Hk' by (apply lookup_lt_Some in Hk; lia).
      rewrite Hmark by (by eapply list_elem_of_lookup_2). by eapply Hp. }
  destruct (lower_op_cases h new r)
    as [[-> _] | [(mk & _ & Hlast & Hmk & ->) | (Hns & Hne & Hnm & ->)]];
    cbn [fst snd]; intros k m Hk Hm.
  - (* the op is appended *)
    apply lookup_app_Some in Hk as [Hk|[Hge Hk]].
    + by apply (Hold h [r]).
    + destruct (k - length new)%nat; [cbn in Hk|done]. injection Hk as <-. lia.
  - (* the dependencies go to the marker before *)
    specialize (Hlast_old mk Hlast).
    apply lookup_app_Some in Hk as [Hk|[Hge Hk]].
    + apply (Hold _ [r]); [| |done|done].
      * intros m0 Hm0 Hge0. rewrite inst_of_set_depends.
        split; [done|]. rewrite depends_of_set_depends.
        rewrite decide_False; [done|]. intros [-> _]. lia.
      * intros m0 _. apply is_marker_set_depends.
    + destruct (k - length new)%nat; [cbn in Hk|done]. injection Hk as <-. lia.
  - (* a no-op is allocated *)
    apply lookup_app_Some in Hk as [Hk|[Hge Hk]].
    + apply (Hold _ [length h; r]); [| |done|done].
      * intros m0 Hm0 _. specialize (Hnewlt m0 Hm0).
        unfold inst_of, depends_of. by rewrite lookup_app_l.
      * intros m0 Hm0. apply is_marker_app_l. by apply Hnewlt.
    + destruct (k - length new)%nat as [|[|n]] eqn:Hkn; cbn in Hk; [| |done].
      * injection Hk as <-.
        assert (k = length new) as -> by lia. split_and!.
        -- unfold inst_of. rewrite lookup_app_r by lia.
           by rewrite Nat.sub_diag.
        -- exists r. split_and!.
           ++ rewrite lookup_app_r by lia.
              by replace (S (length new) - length new)%nat with 1%nat by lia.
           ++ apply elem_of_app. right. left.
           ++ by rewrite <- (heap_ext_no_need_sync h0 h r Hext Hrlt).
           ++ unfold depends_of. rewrite lookup_app_r by lia.
              rewrite Nat.sub_diag. cbn. by apply nop_depends_ext.
           ++ by rewrite <- (nop_depends_ext h0 h r Hext Hrdeps).
        -- intros k' m' Hk' Hm'.
           rewrite lookup_app_l in Hm' by lia.
           assert (m' ∈ new) as Hin by (by eapply list_elem_of_lookup_2).
           rewrite is_marker_app_l by (by apply Hnewlt).
           apply Hnm. rewrite last_lookup.
           by replace (pred (length new)) with k' by lia.
      * injection Hk as <-. lia.
Qed.

Lemma lookup_view_eq (h h' : list Op.t) m :
  h' !! m = h !! m →
  inst_of h' m = inst_of h m ∧ depends_of h' m = depends_of h m ∧
  Ir.is_marker h' m = Ir.is_marker h m.
Proof.
  intros He. unfold Ir.is_marker, inst_of, depends_of. by rewrite He.
Qed.

Lemma lower_tbs_fresh tbs h0 h :
  heap_ext h0 h →
  (∀ r, r ∈ tbs ≫= Threadblock.ops → h !! r = h0 !! r) →
  NoDup (tbs ≫= Threadblock.ops) →
  (∀ r, r ∈ tbs ≫= Threadblock.ops → (r < length h0)%nat) →
  ∀ t tb' k m,
    (map_state lower_tb h tbs).2 !! t = Some tb' →
    Threadblock.ops tb' !! k = Some m → (length h0 ≤ m)%nat →
    inst_of (map_state lower_tb h tbs).1 m = Some Instruction.nop ∧
    (∃ r, Threadblock.ops tb' !! S k = Some r ∧
       r ∈ tbs ≫= Threadblock.ops ∧
       Ir.no_need_sync h0 r = false ∧
       depends_of (map_state lower_tb h tbs).1 m = Ir.nop_depends h0 r ∧
       Ir.nop_depends h0 r ≠ []) ∧
    (∀ k' m', k = S k' → Threadblock.ops tb' !! k' = Some m' →
       Ir.is_marker (map_state lower_tb h tbs).1 m' = false).
Proof.
  revert h. induction tbs as [|tb0 tbs IH];
    intros h Hext Hframe Hnd Hvalid t tb' k m Ht Hk Hm; [done|].
  rewrite bind_cons in Hframe, Hnd, Hvalid.
  apply NoDup_app in Hnd as (Hnd0 & Hdisj & Hndrest).
  assert (Hlen : (length h0 ≤ length h)%nat) by apply Hext.
  assert (Hvalid0 : ∀ r, r ∈ Threadblock.ops tb0 → (r < length h)%nat).
  { intros r Hr. assert (r < length h0)%nat; [|lia].
    apply Hvalid. apply elem_of_app. by left. }
  destruct (lower_ops_inv h (Threadblock.ops tb0)) as (Hext1 & _ & Hmem & _ & _).
  destruct (lower_ops_distinct h (Threadblock.ops tb0) Hnd0 Hvalid0)
    as (_ & Hframe1 & _).
  cbn [map_state fst snd] in *.
  change ((lower_tb h tb0).1) with ((Ir.lower_ops h (Threadblock.ops tb0)).1)
    in *.
  set (h1 := (Ir.lower_ops h (Threadblock.ops tb0)).1) in *.
  assert (Hlen1 : (length h ≤ length h1)%nat) by apply Hext1.
  assert (Hvalid1 : ∀ r, r ∈ tbs ≫= Threadblock.ops → (r < length h1)%nat).
  { intros r Hr. assert (r < length h0)%nat; [|lia].
    apply Hvalid. apply elem_of_app. by right. }
  destruct t as [|t]; cbn in Ht.
  - injection Ht as <-.
    change (Threadblock.ops (lower_tb h tb0).2)
      with ((Ir.lower_ops h (Threadblock.ops tb0)).2) in Hk |- *.
    assert (Hmfresh : (length h ≤ m)%nat).
    { apply list_elem_of_lookup_2 in Hk.
      destruct (Hmem m Hk) as [Hin|?]; [|lia].
      assert (m < length h0)%nat; [|lia].
      apply Hvalid. apply elem_of_app. by left. }
    destruct (lower_ops_fresh h (Threadblock.ops tb0) Hnd0 Hvalid0 k m Hk
                Hmfresh)
      as (Hi & (r & Hr & Hrin & Hns & Hd & Hne) & Hp).
    fold h1 in Hi, Hd, Hp.
    destruct (lower_tbs_distinct tbs h1 Hndrest Hvalid1) as (Hkeep & _).
    assert (Hnotin : ∀ x, x ∈ (Ir.lower_ops h (Threadblock.ops tb0)).2 →
              (x < length h1)%nat ∧ x ∉ tbs ≫= Threadblock.ops).
    { intros x Hx. destruct (Hmem x Hx) as [Hin|Hfr].
      - split; [specialize (Hvalid0 x Hin); lia|].
        intros Hin'. by apply (Hdisj x Hin).
      - fold h1 in Hfr. split; [lia|]. intros Hin'.
        assert (x < length h0)%nat; [|lia].
        apply Hvalid. apply elem_of_app. by right. }
    assert (Hsame : ∀ x, x ∈ (Ir.lower_ops h (Threadblock.ops tb0)).2 →
              (map_state lower_tb h1 tbs).1 !! x = h1 !! x).
    { intros x Hx. destruct (Hnotin x Hx). by apply Hkeep. }
    assert (Hrlt : (r < length h0)%nat).
    { apply Hvalid. apply elem_of_app. by left. }
    assert (Hrdeps : depends_of h r = depends_of h0 r).
    { apply depends_of_eq. apply Hframe. apply elem_of_app. by left. }
    destruct (lookup_view_eq _ _ m
                (Hsame m (list_elem_of_lookup_2 _ _ _ Hk))) as (-> & -> & _).
    split_and!.
    + done.
    + exists r. split_and!.
      * done.
      * apply elem_of_app. by left.
      * by rewrite <- (heap_ext_no_need_sync h0 h r Hext Hrlt).
      * rewrite Hd. by apply nop_depends_ext.
      * by rewrite <- (nop_depends_ext h0 h r Hext Hrdeps).
    + intros k' m' Hk' Hm'.
      destruct (lookup_view_eq _ _ m'
                  (Hsame m' (list_elem_of_lookup_2 _ _ _ Hm')))
        as (_ & _ & ->).
      by eapply Hp.
  - assert (Hext01 : heap_ext h0 h1).
    { eapply (@transitivity _ _ (@PreOrder_Transitive _ _ heap_ext_preorder));
        [exact Hext | exact Hext1]. }
    assert (Hframe01 : ∀ r, r ∈ tbs ≫= Threadblock.ops → h1 !! r = h0 !! r).
    { intros r Hr. rewrite <- Hframe by (apply elem_of_app; by right).
      apply Hframe1.
      - assert (r < length h0)%nat; [|lia].
        apply Hvalid. apply elem_of_app. by right.
      - intros Hin. by apply (Hdisj r Hin). }
    destruct (IH h1 Hext01 Hframe01 Hndrest
                (λ r Hr, Hvalid r (proj2 (elem_of_app _ _ _) (or_intror Hr)))
                t tb' k m Ht Hk Hm)
      as (Hi & (r & Hr & Hrin & Hns & Hd & Hne) & Hp).
    split_and!; [done | | done].
    exists r. split_and!; [done | | done | done | done].
    apply elem_of_app. by right.
Qed.

(** X15. The no-ops that the lowering of [mscclpp/ir.py] inserts, for a
    program whose ops are distinct objects of the store.  An entry of the
    final list of a threadblock that is not an op of the store the pass
    started from is a no-op.  It is immediately followed by an op of the
    program whose instruction is not in [_insts_no_need_sync_barrier];
    its dependencies are exactly those dependencies of that op that are
    not barriers, in their order, and there is at least one; and the
    entry before it, if any, is neither a no-op nor a barrier (the
    dependencies would have been added to that one instead). *)
Theorem inserted_noops (h : list Op.t) (p : Program.t) :
  NoDup (all_ops p) → (∀ r, r ∈ all_ops p → (r < length h)%nat) →
  ∀ tb' k m,
    tb' ∈ tbs_of (Ir.lower_sync h p).2 →
    Threadblock.ops tb' !! k = Some m → (length h ≤ m)%nat →
    inst_of (Ir.lower_sync h p).1 m = Some Instruction.nop ∧
    (∃ r, Threadblock.ops tb' !! S k = Some r ∧ r ∈ all_ops p ∧
       Ir.no_need_sync h r = false ∧
       depends_of (Ir.lower_sync h p).1 m = Ir.nop_depends h r ∧
       Ir.nop_depends h r ≠ []) ∧
    (∀ k' m', k = S k' → Threadblock.ops tb' !! k' = Some m' →
       Ir.is_marker (Ir.lower_sync h p).1 m' = false).
Proof.
  intros Hnd Hvalid tb' k m Htb' Hk Hm.
  destruct (lower_sync_flat h p) as [E1 E2]. rewrite E1. rewrite E2 in Htb'.
  apply list_elem_of_lookup_1 in Htb' as [t Ht].
  apply (lower_tbs_fresh (tbs_of p) h h) with t; try done.
  apply heap_ext_preorder.
Qed.

(** The first sample after the two simplifications: the no-op before the
    signal of device 0 is entry 3 of the store; it depends on the put. *)
Lemma inserted_noops_witness :
  let h := filter_redundant (filter_wait ex_heap ex_prog) ex_prog in
  inst_of (Ir.lower_sync h ex_prog).1 3%nat = Some Instruction.nop ∧
  ∃ r, r ∈ all_ops ex_prog ∧
    depends_of (Ir.lower_sync h ex_prog).1 3%nat = Ir.nop_depends h r.
Proof.
  intros h.
  assert (Hnd : NoDup (all_ops ex_prog))
    by (apply (bool_decide_unpack _); by vm_compute).
  assert (Hvalid : ∀ r, r ∈ all_ops ex_prog → (r < length h)%nat).
  { intros r Hr. apply (bool_decide_unpack _).
    repeat (apply elem_of_cons in Hr as [->|Hr]; [by vm_compute|]).
    by apply elem_of_nil in Hr. }
  assert (Htb : Threadblock.mk 0 [0%nat; 3%nat; 1%nat]
                  [Channel.mk Buffer.input Buffer.scratch ChannelType.sm
                     (ToRank 1)] 0
                ∈ tbs_of (Ir.lower_sync h ex_prog).2)
    by (vm_compute; left).
  assert (Hge : (length h ≤ 3)%nat) by (vm_compute; lia).
  destruct (inserted_noops h ex_prog Hnd Hvalid _ 1%nat 3%nat Htb eq_refl Hge)
    as (Hi & (r & _ & Hr & _ & Hd & _) & _).
  split; [exact Hi|]. by exists r.
Defined.

(** ** When the scan of the buffer sizes raises *)

Section buffer_scan_failure.
Variables local_src local_dst : list Instruction.t.

Lemma scan_op_None rank m op :
op_chunks_present local_src local_dst op = false →
scan_op local_src local_dst rank m op = None.
Proof.
unfold op_chunks_present, scan_op. intros Hp.
apply andb_false_iff in Hp as [Hp|Hp].
- destruct (bool_decide (Op.inst op ∈ local_src)); [|done].
  cbn in Hp. apply bool_decide_eq_false in Hp.
  destruct (Op.src op); [|done]. exfalso. apply Hp. by eexists.
- destruct (bool_decide (Op.inst op ∈ local_dst)); [|done].
  cbn in Hp. apply bool_decide_eq_false in Hp.
  destruct (Op.dst op) as [d|] eqn:Hd; [exfalso; apply Hp; by eexists|].
  by destruct (if bool_decide (Op.inst op ∈ local_src)
               then Op.src op ≫= _ else Some m).
Qed.

Lemma scan_ops_None h rank rs m r :
r ∈ rs →
from_option (op_chunks_present local_src local_dst) true (h !! r) = false →
scan_ops local_src local_dst h rank m rs = None.
Proof.
intros Hin Hbad. revert m.
induction rs as [|x rs IH]; intros m; [by apply elem_of_nil in Hin|].
cbn [scan_ops]. apply elem_of_cons in Hin as [<-|Hin].
- unfold scan_ref. destruct (h !! r) as [op|]; [|done]. cbn in Hbad.
  by rewrite scan_op_None.
- destruct (scan_ref local_src local_dst h rank m x); [|done]. cbn.
  by apply IH.
Qed.

Lemma scan_tbs_None h rank tbs m r :
r ∈ tbs ≫= Threadblock.ops →
from_option (op_chunks_present local_src local_dst) true (h !! r) = false →
scan_tbs local_src local_dst h rank m tbs = None.
Proof.
intros Hin Hbad. revert m.
induction tbs as [|tb tbs IH]; intros m; [by apply elem_of_nil in Hin|].
cbn [scan_tbs]. rewrite bind_cons in Hin. apply elem_of_app in Hin as [Hin|Hin].
- by rewrite (scan_ops_None h rank _ m r Hin Hbad).
- destruct (scan_ops local_src local_dst h rank m (Threadblock.ops tb));
    [|done]. cbn. by apply IH.
Qed.

Lemma scan_gpus_None h gs m r :
r ∈ (gs ≫= Gpu.threadblocks) ≫= Threadblock.ops →
from_option (op_chunks_present local_src local_dst) true (h !! r) = false →
scan_gpus local_src local_dst h m gs = None.
Proof.
intros Hin Hbad. revert m.
induction gs as [|g gs IH]; intros m; [by apply elem_of_nil in Hin|].
cbn [scan_gpus]. rewrite bind_cons, bind_app in Hin.
apply elem_of_app in Hin as [Hin|Hin].
- by rewrite (scan_tbs_None h _ _ m r Hin Hbad).
- destruct (scan_tbs local_src local_dst h (Gpu.rank g) m
              (Gpu.threadblocks g)); [|done]. cbn. by apply IH.
Qed.

Lemma infer_buffer_sizes_is_Some h p :
is_Some (infer_buffer_sizes local_src local_dst h p) ↔
chunks_present local_src local_dst h p = true.
Proof.
split; [|apply infer_buffer_sizes_spec].
intros [p' Hp']. unfold chunks_present.
apply Is_true_true, forallb_True, Forall_forall. intros r Hr.
apply Is_true_true.
destruct (from_option (op_chunks_present local_src local_dst) true (h !! r))
  eqn:Hbad; [done|].
unfold infer_buffer_sizes in Hp'.
by rewrite (scan_gpus_None h _ ∅ r Hr Hbad) in Hp'.
Qed.
End buffer_scan_failure.

(** X16. When the first pass of [ir_to_json] raises.  The scan of the
    buffer sizes dereferences [op.src] of every op whose instruction is
    in [_local_src_insts_mscclpp] and [op.dst] of every op whose
    instruction is in [_local_dst_insts_mscclpp].  It returns exactly
    when every op that the threadblocks of the program list has the
    chunks that its instruction asks for; one op that lacks one makes it
    raise, wherever it is.  (With the instruction sets of each of the two
    source files.) *)
Theorem buffer_scan_raises (h : list Op.t) (p : Program.t) :
  (is_Some (infer_buffer_sizes Ir._local_src_insts_mscclpp
              Ir._local_dst_insts_mscclpp h p) ↔
   ∀ r op, r ∈ all_ops p → h !! r = Some op →
     (Op.inst op ∈ Ir._local_src_insts_mscclpp → is_Some (Op.src op)) ∧
     (Op.inst op ∈ Ir._local_dst_insts_mscclpp → is_Some (Op.dst op))) ∧
  (is_Some (infer_buffer_sizes IrMscclpp._local_src_insts_mscclpp
              IrMscclpp._local_dst_insts_mscclpp h p) ↔
   ∀ r op, r ∈ all_ops p → h !! r = Some op →
     (Op.inst op ∈ IrMscclpp._local_src_insts_mscclpp →
      is_Some (Op.src op)) ∧
     (Op.inst op ∈ IrMscclpp._local_dst_insts_mscclpp →
      is_Some (Op.dst op))).
Proof.
  assert (Hgen : ∀ ls ld,
    chunks_present ls ld h p = true ↔
    ∀ r op, r ∈ all_ops p → h !! r = Some op →
      (Op.inst op ∈ ls → is_Some (Op.src op)) ∧
      (Op.inst op ∈ ld → is_Some (Op.dst op))).
  { intros ls ld. unfold chunks_present.
    rewrite <- Is_true_true, forallb_True, Forall_forall. split.
    - intros Hall r op Hr Hop. specialize (Hall r Hr). rewrite Hop in Hall.
      cbn in Hall. unfold op_chunks_present in Hall.
      apply andb_True in Hall as [H1 H2]. split.
      + intros Hin. rewrite (bool_decide_eq_true_2 _ Hin) in H1.
        cbn in H1. by apply bool_decide_unpack in H1.
      + intros Hin. rewrite (bool_decide_eq_true_2 _ Hin) in H2.
        cbn in H2. by apply bool_decide_unpack in H2.
    - intros Hall r Hr. destruct (h !! r) as [op|] eqn:Hop; [|done].
      cbn. destruct (Hall r op Hr Hop) as [H1 H2].
      unfold op_chunks_present. apply andb_True. split.
      + case_bool_decide as Hin; [|done]. cbn.
        apply bool_decide_pack. by apply H1.
      + case_bool_decide as Hin; [|done]. cbn.
        apply bool_decide_pack. by apply H2. }
  split; rewrite infer_buffer_sizes_is_Some; apply Hgen.
Qed.

(** The low-latency sample has all the chunks that its two ops need. *)
Lemma buffer_scan_raises_witness :
  is_Some (infer_buffer_sizes Ir._local_src_insts_mscclpp
             Ir._local_dst_insts_mscclpp ll_heap ll_prog).
Proof.
  apply (proj1 (buffer_scan_raises ll_heap ll_prog)).
  intros r op Hr Hop.
  repeat (apply elem_of_cons in Hr as [->|Hr];
          [injection Hop as <-; split; intros _; by eexists|]).
  by apply elem_of_nil in Hr.
Defined.

(** ** The two instruction tables *)

Lemma local_chunks_mono ls ls' ld ld' op c :
  ls ⊆ ls' → ld ⊆ ld' →
  c ∈ local_chunks ls ld op → c ∈ local_chunks ls' ld' op.
Proof.
  intros Hs Hd. unfold local_chunks. rewrite !elem_of_app.
  intros [Hc|Hc]; [left|right].
  - case_bool_decide as Hin; [|by apply elem_of_nil in Hc].
    by rewrite bool_decide_eq_true_2 by (by apply Hs).
  - case_bool_decide as Hin; [|by apply elem_of_nil in Hc].
    by rewrite bool_decide_eq_true_2 by (by apply Hd).
Qed.

Lemma extents_mono ls ls' ld ld' h p rank b x :
  ls ⊆ ls' → ld ⊆ ld' →
  x ∈ extents ls ld h p rank b → x ∈ extents ls' ld' h p rank b.
Proof.
  intros Hs Hd. unfold extents. rewrite !list_elem_of_bind.
  intros (g & Hx & Hg). exists g. split; [|done].
  apply list_elem_of_bind in Hx as (op & Hx & Hop).
  apply list_elem_of_bind. exists op. split; [|done].
  unfold op_extents in *.
  apply list_elem_of_fmap in Hx as (c & -> & Hc).
  apply list_elem_of_fmap. exists c. split; [done|].
  apply list_elem_of_filter in Hc as [Hb Hc].
  apply list_elem_of_filter. split; [done|]. by eapply local_chunks_mono.
Qed.

Lemma foldl_max_mono (l l' : list Z) :
  l ⊆ l' → foldl Z.max 0 l ≤ foldl Z.max 0 l'.
Proof.
  intros Hsub. destruct (foldl_max_in l 0) as [->|Hin].
  - apply foldl_max_ge.
  - apply foldl_max_elem. by apply Hsub.
Qed.

(** X17. The instruction tables of the two source files.  Every
    instruction of [_local_src_insts_mscclpp] and of
    [_local_dst_insts_mscclpp] of [ir_mscclpp.py] is in the table of the
    same name of [mscclpp/ir.py].  So the newer file looks at every chunk
    the older one looks at, and for every program, device and buffer the
    capacity that [mscclpp/ir.py] infers is at least the one that
    [ir_mscclpp.py] infers. *)
Theorem newer_tables_infer_more (h : list Op.t) (p : Program.t)
    (b : Buffer.t) (g : Gpu.t) :
  IrMscclpp._local_src_insts_mscclpp ⊆ Ir._local_src_insts_mscclpp ∧
  IrMscclpp._local_dst_insts_mscclpp ⊆ Ir._local_dst_insts_mscclpp ∧
  (∀ op c,
     c ∈ local_chunks IrMscclpp._local_src_insts_mscclpp
           IrMscclpp._local_dst_insts_mscclpp op →
     c ∈ local_chunks Ir._local_src_insts_mscclpp
           Ir._local_dst_insts_mscclpp op) ∧
  inferred IrMscclpp._local_src_insts_mscclpp
    IrMscclpp._local_dst_insts_mscclpp h p b g ≤
  inferred Ir._local_src_insts_mscclpp Ir._local_dst_insts_mscclpp h p b g.
Proof.
  assert (Hs : IrMscclpp._local_src_insts_mscclpp
               ⊆ Ir._local_src_insts_mscclpp).
  { intros i Hi. apply (bool_decide_unpack _).
    repeat (apply elem_of_cons in Hi as [->|Hi]; [by vm_compute|]).
    by apply elem_of_nil in Hi. }
  assert (Hd : IrMscclpp._local_dst_insts_mscclpp
               ⊆ Ir._local_dst_insts_mscclpp).
  { intros i Hi. apply (bool_decide_unpack _).
    repeat (apply elem_of_cons in Hi as [->|Hi]; [by vm_compute|]).
    by apply elem_of_nil in Hi. }
  split_and!; [done | done | |].
  - intros op c. by apply local_chunks_mono.
  - unfold inferred, required.
    apply Z.max_le_compat_l, foldl_max_mono.
    intros x. by apply extents_mono.
Qed.

(** The destination of the sample [reduce] counts in both files. *)
Lemma newer_tables_infer_more_witness :
  ChunkRef.mk 0 Buffer.output 5 1
    ∈ local_chunks Ir._local_src_insts_mscclpp
        Ir._local_dst_insts_mscclpp red_op.
Proof.
  apply (proj1 (proj2 (proj2
           (newer_tables_infer_more [] (sample_program "Simple" [])
              Buffer.input (Gpu.mk 0 [] 0 0 0 []))))).
  vm_compute. do 2 right. left.
Defined.

(** ** The shape of the records of the ops *)

Lemma remove_empty_fields_spec d :
  (remove_empty_fields d).*1 `sublist_of` d.*1 ∧
  ∀ k v, dict_get k (remove_empty_fields d) = Some v →
    is_empty_field v = false.
Proof.
  unfold remove_empty_fields. split.
  - apply fmap_sublist, sublist_filter.
  - intros k v Hk. apply dict_get_Some_elem in Hk.
    by apply list_elem_of_filter in Hk as [Hv _].
Qed.

(** X18. The records of the ops in the document ([mscclpp/ir.py]).
    No record has a field whose value is [None], an empty string, an
    empty list or an empty dictionary.  The record of a no-op has at
    most the fields ["name"] and ["deps"] (no ["deps"] when the no-op
    depends on nothing).  The record of a barrier is only built when the
    op's [extra] has ["tb_list"] and ["barrier_id"]; it shows the length
    of the one as ["nthread_blocks"] and the other as ["barrier_id"].
    Every other record has its fields among the fifteen of [instr], in
    that order, and always has ["cnt"], the result of [op.cnt()], even
    when that is 0. *)
Theorem op_record_shape `{Types} (h : list Op.t)
    (d : list (Buffer.t * Buffer.t * ChannelType.t * TbChannel.t))
    (r : nat) (op : Op.t) (rec : json) :
  h !! r = Some op → Ir.dump_op h d r = Some [rec] →
  (∀ k v, json_get k rec = Some v → is_empty_field v = false) ∧
  (Op.inst op = Instruction.nop →
   json_keys rec `sublist_of` ["name"; "deps"] ∧
   (Op.depends op = [] → json_get "deps" rec = None)) ∧
  (Op.inst op = Instruction.barrier →
   ∃ tb_list barrier_id,
     Op.extra_tb_list op = Some tb_list ∧
     Op.extra_barrier_id op = Some barrier_id ∧
     json_get "nthread_blocks" rec = Some (JInt (Z.of_nat (length tb_list))) ∧
     json_get "barrier_id" rec = Some (JInt barrier_id)) ∧
  (Op.inst op ≠ Instruction.nop → Op.inst op ≠ Instruction.barrier →
   json_keys rec `sublist_of`
     ["name"; "i_buff"; "i_cids"; "o_buff"; "o_cids"; "src"; "srcs";
      "dsts"; "srcbuff"; "srcoff"; "dst"; "dstbuff"; "dstoff"; "ctype";
      "cnt"] ∧
   ∃ cnt, Op_cnt op = Some cnt ∧ json_get "cnt" rec = Some (JInt cnt)).
Proof.
  intros Hr Hd. unfold Ir.dump_op in Hd. rewrite Hr in Hd.
  case_bool_decide as Htb; [done|].
  apply bind_Some in Hd as (instr & Hi & [= <-]).
  destruct (remove_empty_fields_spec instr) as [Hkeys Hvals].
  split_and!.
  - intros k v. apply Hvals.
  - intros Hn. rewrite Hn in Hi. rewrite bool_decide_eq_true_2 in Hi by done.
    injection Hi as <-. split; [exact Hkeys|].
    intros Hdeps. cbn [json_get]. rewrite dict_get_remove_empty
      by (apply (bool_decide_unpack _); by vm_compute).
    unfold nop_instr. rewrite Hdeps. reflexivity.
  - intros Hb. rewrite Hb in Hi.
    rewrite bool_decide_eq_false_2 in Hi by done.
    rewrite bool_decide_eq_true_2 in Hi by done.
    unfold Ir.barrier_instr in Hi.
    apply bind_Some in Hi as (tb_list & Htl & Hi).
    apply bind_Some in Hi as (barrier_id & Hbi & [= <-]).
    exists tb_list, barrier_id. split_and!; [done | done | |].
    + cbn [json_get]. rewrite dict_get_remove_empty
        by (apply (bool_decide_unpack _); by vm_compute).
      reflexivity.
    + cbn [json_get]. rewrite dict_get_remove_empty
        by (apply (bool_decide_unpack _); by vm_compute).
      reflexivity.
  - intros Hn Hb. rewrite !bool_decide_eq_false_2 in Hi by done.
    apply bind_Some in Hi as (f & _ & Hi).
    unfold instr_of in Hi. apply bind_Some in Hi as (cnt & Hcnt & [= <-]).
    split; [exact Hkeys|]. exists cnt. split; [done|].
    cbn [json_get]. rewrite dict_get_remove_empty
      by (apply (bool_decide_unpack _); by vm_compute).
    reflexivity.
Qed.

(** The record of the sample [reduce] has the count 1. *)
Lemma op_record_shape_witness :
  ∃ rec,
    Ir.dump_op [red_op] [] 0%nat = Some [rec] ∧
    json_get "cnt" rec = Some (JInt 1).
Proof.
  eassert (Hd : Ir.dump_op [red_op] [] 0%nat = Some [_])
    by (vm_compute; reflexivity).
  destruct (op_record_shape [red_op] [] 0%nat red_op _ eq_refl Hd)
    as (_ & _ & _ & Hrec).
  destruct Hrec as (_ & cnt & Hcnt & Hget); [discriminate | discriminate |].
  eexists. split; [exact Hd|]. rewrite Hget. f_equal. f_equal.
  vm_compute in Hcnt. by injection Hcnt.
Defined.

(** ** Running the simplifications again *)

Lemma set_depends_id h r : set_depends h r (depends_of h r) = h.
Proof.
  unfold set_depends, depends_of. apply list_eq. intros i.
  destruct (decide (i = r)) as [->|Hne].
  - rewrite list_lookup_alter_eq. destruct (h !! r) as [op|]; [|done].
    cbn. by destruct op.
  - by rewrite list_lookup_alter_ne.
Qed.

Lemma filter_all {A} (P : A → Prop) `{∀ x, Decision (P x)} (l : list A) :
  (∀ x, x ∈ l → P x) → filter P l = l.
Proof.
  induction l as [|x l IH]; intros Hall; [done|].
  rewrite filter_cons, decide_True by (apply Hall; left).
  f_equal. apply IH. intros y Hy. apply Hall. by right.
Qed.

Lemma filter_redundant_fold_id rs h run :
  (∀ j b d, rs !! j = Some b → d ∈ depends_of h b →
     (d ∉ run) ∧
     (∀ i a, (i < j)%nat → rs !! i = Some a → d ∉ depends_of h a)) →
  (foldl filter_redundant_op (h, run) rs).1 = h.
Proof.
  revert run. induction rs as [|r rs IH]; intros run Hcond; [done|].
  cbn [foldl]. unfold filter_redundant_op at 2. cbn [fst snd].
  rewrite (filter_all (λ dep, dep ∉ run))
    by (intros d Hd; by apply (Hcond 0%nat r d)).
  rewrite set_depends_id. apply IH.
  intros j b d Hj Hd. destruct (Hcond (S j) b d Hj Hd) as [Hrun Hprev].
  split.
  - intros Hin. apply elem_of_app in Hin as [Hin|Hin]; [done|].
    by apply (Hprev 0%nat r ltac:(lia) eq_refl).
  - intros i a Hi Ha. apply (Hprev (S i) a); [lia | done].
Qed.

Lemma drop_signal_fold_id rs h :
  (∀ r d, r ∈ rs → inst_of h r = Some Instruction.wait →
     d ∈ depends_of h r → inst_of h d ≠ Some Instruction.signal) →
  foldl drop_signal_deps h rs = h.
Proof.
  induction rs as [|r rs IH]; intros Hcond; [done|].
  cbn [foldl].
  assert (Hstep : drop_signal_deps h r = h).
  { unfold drop_signal_deps. case_bool_decide as Hw; [|done].
    rewrite (filter_all (λ dep, inst_of h dep ≠ Some Instruction.signal))
      by (intros d Hd; apply (Hcond r d); [left | done | done]).
    apply set_depends_id. }
  rewrite Hstep. apply IH. intros x d Hx. apply Hcond. by right.
Qed.

(** X19. Running the two simplifications of the dependencies again
    changes nothing (both source files): after "Remove the dependencies
    of wait after signal" a second run of it leaves the store as it is,
    and so does a second run of "Filter out redundant dependencies" after
    the first, for every store and program, also when ops are shared
    between threadblocks. *)
Theorem simplifications_idempotent (h : list Op.t) (p : Program.t) :
  filter_wait (filter_wait h p) p = filter_wait h p ∧
  filter_redundant (filter_redundant h p) p = filter_redundant h p.
Proof.
  split.
  - rewrite (filter_wait_flat (filter_wait h p)).
    apply drop_signal_fold_id. intros r d Hr Hw Hd.
    destruct (filter_wait_facts h p) as (_ & Hinst & _).
    rewrite Hinst in Hw |- *.
    rewrite filter_wait_flat, drop_signal_fold_depends in Hd.
    rewrite decide_True in Hd by done.
    by apply list_elem_of_filter in Hd as [Hd _].
  - set (h1 := filter_redundant h p).
    unfold filter_redundant at 1. rewrite for_each_tb_flat.
    assert (Hall : ∀ tbs, tbs ⊆ tbs_of p →
              foldl filter_redundant_tb h1 tbs = h1).
    { induction tbs as [|tb tbs IH]; intros Hsub; [done|].
      cbn [foldl].
      assert (Htb : filter_redundant_tb h1 tb = h1).
      { unfold filter_redundant_tb, filter_redundant_ops.
        apply filter_redundant_fold_id. intros j b d Hj Hd.
        split; [apply not_elem_of_nil|]. intros i a Hi Ha.
        apply (filter_redundant_disjoint h p tb i j a b d); try done.
        apply Hsub. left. }
      rewrite Htb. apply IH. intros x Hx. apply Hsub. by right. }
    by apply Hall.
Qed.

(** ** A key that only other threadblocks use *)

(** X20. Looking up a key under which the device has channels but the
    threadblock has none.  [mscclpp/ir.py] keeps in the threadblock's
    table only the keys under which the threadblock has a channel: the
    lookup raises [KeyError] (for a non-empty chunk list, or a multicast
    key).  [ir_mscclpp.py] keeps every key of the device, with an empty
    list of connections for this threadblock: the lookup returns no
    channel id and the serialization goes on. *)
Theorem foreign_key_lookup `{Types} (g : Gpu.t) (tb : Threadblock.t)
    (sb db : Buffer.t) (ct : ChannelType.t) (es : list (Z * ConnectedTo))
    (cs : list ChunkRef.t) :
  NoDup (Gpu.channels g).*1 →
  dict_get (sb, db, ct) (Gpu.channels g) = Some es →
  (∀ e, e ∈ es → e.1 ≠ Threadblock.id tb) →
  (ct = ChannelType.nvls ∨ cs ≠ [] →
   get_channel_ids cs (Ir.tb_channel_dict g tb) sb db ct = None) ∧
  IrMscclpp.get_channel_ids cs
    ((λ kv, (kv.1, tb_channel_obj (Threadblock.id tb) kv))
       <$> Gpu.channels g) sb db ct = Some [].
Proof.
  intros Hnd Hes Hnone.
  assert (Hids : TbChannel.chanIds
                   (tb_channel_obj (Threadblock.id tb) ((sb, db, ct), es))
                 = []).
  { unfold tb_channel_obj. cbn [TbChannel.chanIds snd].
    rewrite (filter_none (λ ie : nat * (Z * ConnectedTo),
                            ie.2.1 = Threadblock.id tb)); [done|].
    intros [i e] Hie. apply enumerate_elem in Hie.
    apply list_elem_of_lookup_2 in Hie. by apply Hnone. }
  assert (Hconn : TbChannel.connectedTo
                    (tb_channel_obj (Threadblock.id tb) ((sb, db, ct), es))
                  = []).
  { unfold tb_channel_obj. cbn [TbChannel.connectedTo snd].
    rewrite (filter_none (λ e : Z * ConnectedTo, e.1 = Threadblock.id tb));
      [done|]. intros e He. by apply Hnone. }
  split.
  - intros Hcs. apply get_channel_ids_no_entry; [|done].
    rewrite tb_channel_dict_get by done. rewrite Hes. cbn.
    rewrite decide_False; [done|]. intros Hne. by apply Hne.
  - unfold IrMscclpp.get_channel_ids.
    rewrite (mapM_ext_total _ (λ _, [])).
    + cbn. clear. induction cs as [|c cs IH]; [done|]. cbn in *.
      by injection IH as ->.
    + intros c _. rewrite dict_get_fmap_val, Hes. cbn [fmap option_fmap
        option_map mbind option_bind]. by rewrite Hconn.
Qed.

(** The placeholder sample: the key has channels of the threadblocks 0
    and -1 only; a threadblock of id 7 finds none. *)
Lemma foreign_key_lookup_witness :
  get_channel_ids [ex_scr]
    (Ir.tb_channel_dict
       (Gpu.mk 0 [] 0 0 0
          [((Buffer.input, Buffer.scratch, ChannelType.sm),
            [(-1, ToRank 5); (0, ToRank 1)])])
       (Threadblock.mk 7 [] [] 0))
    Buffer.input Buffer.scratch ChannelType.sm = None.
Proof.
  assert (Hnd : NoDup
            (Gpu.channels
               (Gpu.mk 0 [] 0 0 0
                  [((Buffer.input, Buffer.scratch, ChannelType.sm),
                    [(-1, ToRank 5); (0, ToRank 1)])])).*1)
    by (apply (bool_decide_unpack _); by vm_compute).
  assert (Hnone : ∀ e : Z * ConnectedTo,
            e ∈ [(-1, ToRank 5); (0, ToRank 1)] →
            e.1 ≠ Threadblock.id (Threadblock.mk 7 [] [] 0)).
  { intros e He.
    repeat (apply elem_of_cons in He as [->|He]; [by cbn|]).
    by apply elem_of_nil in He. }
  apply (proj1 (foreign_key_lookup _ (Threadblock.mk 7 [] [] 0)
                  Buffer.input Buffer.scratch ChannelType.sm
                  _ [ex_scr] Hnd eq_refl Hnone)).
  by right.
Defined.
